(** * The music playback connection of the bot (src/services/Music.ts)

    A shallow embedding of [MusicConnection]: the queue sequencing
    (play / skip / rewind / seek / disconnect), the stream-end handler with
    its [doPlayNext] guard, the volume fader and the speaking-activity
    ducking timers.

    JavaScript runs every handler to completion, so the connection is a
    state record and every handler is a function on it.  Asynchronous
    completions (the speech synthesis callback, the promise of
    [getStream], timers) are kept as pending work inside the state and are
    delivered by explicit events.  JavaScript numbers are idealised as
    rationals ([Q]); a [throw] is the outcome [Threw], which keeps the state
    reached when the exception left the handler. *)

From Stdlib Require Import QArith Qminmax Lia Lqa Sorted.
From stdpp Require Import gmap strings list.

(** ** Data *)

(** Modelled from the spec: the declaration of [MusicQueueItem] is in
    types.ts, which is not among the sources; the service reads [title]
    (announcement text, embed) and [imageURL] (embed), and calls
    [getStream()], whose result arrives as an event below. *)
Record MusicQueueItem : Type := mkItem {
  title : string;
  imageURL : string
}.

(** What is handed to [connection.play]: the synthesized announcement of an
    item, or the item's own stream, possibly with [-ss time] input args. *)
Inductive AudioSource : Type :=
| Announcement (next : MusicQueueItem)
| ItemStream (item : MusicQueueItem) (ss : option Q).

(** Calls that leave the connection: transport, speech service, console and
    the now-playing message. *)
Inductive Effect : Type :=
| TJoin (channel : string)
| TSwitchChannel (channel : string)
| TPlay (src : AudioSource)
| TStopPlaying
| TSetVolume (v : Q)
| TPause
| TResume
| TLeave
| Synthesize (text : string)
| ConsoleLog
| ConsoleError
| EditNowPlaying.

Inductive Error : Type :=
| JsError (message : string)  (* throw new Error(message) *)
| TypeError                   (* member access or call on null / undefined *)
| JoinFailed                  (* channel.join rejected *)
| StreamFailed                (* getStream rejected *)
| TransportError              (* the transport refused a stream handed to play *)
| OutOfFuel.                  (* a bound of the model was reached; this never
                                 happens, see playNext_within_depth and
                                 elapse_enough_fuel *)

(** The part of eris' [VoiceConnection] the service reads and writes:
    the [playing] and [paused] flags and the inline [volume]. *)
Record VoiceConnection : Type := mkVoice {
  playing : bool;
  paused : bool;
  tvolume : Q
}.

(** Callbacks handed to [setTimeout]. *)
Inductive TimerAct : Type :=
| TFade (newVol : Q)   (* () => this.connection.setVolume(newVol) *)
| TDuck                (* the closure of the speakingStart handler *)
| TRestore.            (* the closure of the speakingStop handler *)

Record Timer : Type := mkTimer {
  tid : nat;
  due : nat;           (* milliseconds *)
  act : TimerAct
}.

(** The connection object together with the pending work of the event loop.
    [doneCallback] holds a closure over the item [next] of one [playNext]
    call, so it is represented by that item. *)
Record Conn : Type := mkConn {
  (* musicQueueCache *)
  current : option MusicQueueItem;
  queue : list (option MusicQueueItem);
  (* MusicConnection *)
  voiceChannel : option string;
  connection : option VoiceConnection;
  nowPlayingMessage : bool;
  volume : Q;
  doPlayNext : bool;
  speaking : gset string;
  doneCallback : option MusicQueueItem;
  startSpeakingTimeout : option nat;
  stopSpeakingTimeout : option nat;
  fadeTimeouts : list nat;
  (* event loop *)
  now : nat;
  nextTimer : nat;
  timers : list Timer;
  synthPending : list MusicQueueItem;
  streamPending : list MusicQueueItem;
  log : list Effect;
  (* the transport's own bookkeeping, which the service never reads: its
     last stream has ended or was stopped; false on a transport that has
     not played yet *)
  ended : bool
}.

Inductive outcome : Type :=
| Done (s : Conn)
| Threw (e : Error) (s : Conn).

Definition bind (o : outcome) (k : Conn -> outcome) : outcome :=
  match o with
  | Done s => k s
  | Threw e s => Threw e s
  end.

Notation "'let!' s ':=' o 'in' k" := (bind o (fun s => k))
  (at level 10, s name, o at level 100, k at level 200).

Definition state_of (o : outcome) : Conn :=
  match o with Done s => s | Threw _ s => s end.

(** ** Field updates *)

Definition set_current (x : option MusicQueueItem) (s : Conn) : Conn :=
  mkConn x (queue s) (voiceChannel s) (connection s) (nowPlayingMessage s)
    (volume s) (doPlayNext s) (speaking s) (doneCallback s)
    (startSpeakingTimeout s) (stopSpeakingTimeout s) (fadeTimeouts s)
    (now s) (nextTimer s) (timers s) (synthPending s) (streamPending s) (log s) (ended s).

Definition set_queue (x : list (option MusicQueueItem)) (s : Conn) : Conn :=
  mkConn (current s) x (voiceChannel s) (connection s) (nowPlayingMessage s)
    (volume s) (doPlayNext s) (speaking s) (doneCallback s)
    (startSpeakingTimeout s) (stopSpeakingTimeout s) (fadeTimeouts s)
    (now s) (nextTimer s) (timers s) (synthPending s) (streamPending s) (log s) (ended s).

Definition set_voiceChannel (x : option string) (s : Conn) : Conn :=
  mkConn (current s) (queue s) x (connection s) (nowPlayingMessage s)
    (volume s) (doPlayNext s) (speaking s) (doneCallback s)
    (startSpeakingTimeout s) (stopSpeakingTimeout s) (fadeTimeouts s)
    (now s) (nextTimer s) (timers s) (synthPending s) (streamPending s) (log s) (ended s).

Definition set_connection (x : option VoiceConnection) (s : Conn) : Conn :=
  mkConn (current s) (queue s) (voiceChannel s) x (nowPlayingMessage s)
    (volume s) (doPlayNext s) (speaking s) (doneCallback s)
    (startSpeakingTimeout s) (stopSpeakingTimeout s) (fadeTimeouts s)
    (now s) (nextTimer s) (timers s) (synthPending s) (streamPending s) (log s) (ended s).

Definition set_nowPlayingMessage (x : bool) (s : Conn) : Conn :=
  mkConn (current s) (queue s) (voiceChannel s) (connection s) x
    (volume s) (doPlayNext s) (speaking s) (doneCallback s)
    (startSpeakingTimeout s) (stopSpeakingTimeout s) (fadeTimeouts s)
    (now s) (nextTimer s) (timers s) (synthPending s) (streamPending s) (log s) (ended s).

Definition set_volume (x : Q) (s : Conn) : Conn :=
  mkConn (current s) (queue s) (voiceChannel s) (connection s)
    (nowPlayingMessage s) x (doPlayNext s) (speaking s) (doneCallback s)
    (startSpeakingTimeout s) (stopSpeakingTimeout s) (fadeTimeouts s)
    (now s) (nextTimer s) (timers s) (synthPending s) (streamPending s) (log s) (ended s).

Definition set_doPlayNext (x : bool) (s : Conn) : Conn :=
  mkConn (current s) (queue s) (voiceChannel s) (connection s)
    (nowPlayingMessage s) (volume s) x (speaking s) (doneCallback s)
    (startSpeakingTimeout s) (stopSpeakingTimeout s) (fadeTimeouts s)
    (now s) (nextTimer s) (timers s) (synthPending s) (streamPending s) (log s) (ended s).

Definition set_speaking (x : gset string) (s : Conn) : Conn :=
  mkConn (current s) (queue s) (voiceChannel s) (connection s)
    (nowPlayingMessage s) (volume s) (doPlayNext s) x (doneCallback s)
    (startSpeakingTimeout s) (stopSpeakingTimeout s) (fadeTimeouts s)
    (now s) (nextTimer s) (timers s) (synthPending s) (streamPending s) (log s) (ended s).

Definition set_doneCallback (x : option MusicQueueItem) (s : Conn) : Conn :=
  mkConn (current s) (queue s) (voiceChannel s) (connection s)
    (nowPlayingMessage s) (volume s) (doPlayNext s) (speaking s) x
    (startSpeakingTimeout s) (stopSpeakingTimeout s) (fadeTimeouts s)
    (now s) (nextTimer s) (timers s) (synthPending s) (streamPending s) (log s) (ended s).

Definition set_startSpeakingTimeout (x : option nat) (s : Conn) : Conn :=
  mkConn (current s) (queue s) (voiceChannel s) (connection s)
    (nowPlayingMessage s) (volume s) (doPlayNext s) (speaking s)
    (doneCallback s) x (stopSpeakingTimeout s) (fadeTimeouts s)
    (now s) (nextTimer s) (timers s) (synthPending s) (streamPending s) (log s) (ended s).

Definition set_stopSpeakingTimeout (x : option nat) (s : Conn) : Conn :=
  mkConn (current s) (queue s) (voiceChannel s) (connection s)
    (nowPlayingMessage s) (volume s) (doPlayNext s) (speaking s)
    (doneCallback s) (startSpeakingTimeout s) x (fadeTimeouts s)
    (now s) (nextTimer s) (timers s) (synthPending s) (streamPending s) (log s) (ended s).

Definition set_fadeTimeouts (x : list nat) (s : Conn) : Conn :=
  mkConn (current s) (queue s) (voiceChannel s) (connection s)
    (nowPlayingMessage s) (volume s) (doPlayNext s) (speaking s)
    (doneCallback s) (startSpeakingTimeout s) (stopSpeakingTimeout s) x
    (now s) (nextTimer s) (timers s) (synthPending s) (streamPending s) (log s) (ended s).

Definition set_now (x : nat) (s : Conn) : Conn :=
  mkConn (current s) (queue s) (voiceChannel s) (connection s)
    (nowPlayingMessage s) (volume s) (doPlayNext s) (speaking s)
    (doneCallback s) (startSpeakingTimeout s) (stopSpeakingTimeout s)
    (fadeTimeouts s) x (nextTimer s) (timers s) (synthPending s)
    (streamPending s) (log s) (ended s).

Definition set_nextTimer (x : nat) (s : Conn) : Conn :=
  mkConn (current s) (queue s) (voiceChannel s) (connection s)
    (nowPlayingMessage s) (volume s) (doPlayNext s) (speaking s)
    (doneCallback s) (startSpeakingTimeout s) (stopSpeakingTimeout s)
    (fadeTimeouts s) (now s) x (timers s) (synthPending s)
    (streamPending s) (log s) (ended s).

Definition set_timers (x : list Timer) (s : Conn) : Conn :=
  mkConn (current s) (queue s) (voiceChannel s) (connection s)
    (nowPlayingMessage s) (volume s) (doPlayNext s) (speaking s)
    (doneCallback s) (startSpeakingTimeout s) (stopSpeakingTimeout s)
    (fadeTimeouts s) (now s) (nextTimer s) x (synthPending s)
    (streamPending s) (log s) (ended s).

Definition set_synthPending (x : list MusicQueueItem) (s : Conn) : Conn :=
  mkConn (current s) (queue s) (voiceChannel s) (connection s)
    (nowPlayingMessage s) (volume s) (doPlayNext s) (speaking s)
    (doneCallback s) (startSpeakingTimeout s) (stopSpeakingTimeout s)
    (fadeTimeouts s) (now s) (nextTimer s) (timers s) x
    (streamPending s) (log s) (ended s).

Definition set_streamPending (x : list MusicQueueItem) (s : Conn) : Conn :=
  mkConn (current s) (queue s) (voiceChannel s) (connection s)
    (nowPlayingMessage s) (volume s) (doPlayNext s) (speaking s)
    (doneCallback s) (startSpeakingTimeout s) (stopSpeakingTimeout s)
    (fadeTimeouts s) (now s) (nextTimer s) (timers s) (synthPending s)
    x (log s) (ended s).

Definition emit (e : Effect) (s : Conn) : Conn :=
  mkConn (current s) (queue s) (voiceChannel s) (connection s)
    (nowPlayingMessage s) (volume s) (doPlayNext s) (speaking s)
    (doneCallback s) (startSpeakingTimeout s) (stopSpeakingTimeout s)
    (fadeTimeouts s) (now s) (nextTimer s) (timers s) (synthPending s)
    (streamPending s) (log s ++ [e]) (ended s).

Definition set_ended (x : bool) (s : Conn) : Conn :=
  mkConn (current s) (queue s) (voiceChannel s) (connection s)
    (nowPlayingMessage s) (volume s) (doPlayNext s) (speaking s)
    (doneCallback s) (startSpeakingTimeout s) (stopSpeakingTimeout s)
    (fadeTimeouts s) (now s) (nextTimer s) (timers s) (synthPending s)
    (streamPending s) (log s) x.

(** ** Timers of the event loop *)

Definition setTimeout (a : TimerAct) (delay : nat) (s : Conn) : nat * Conn :=
  (nextTimer s,
   set_nextTimer (S (nextTimer s))
     (set_timers (timers s ++ [mkTimer (nextTimer s) (now s + delay) a]) s)).

Definition clearTimeout (id : nat) (s : Conn) : Conn :=
  set_timers (List.filter (fun t => negb (tid t =? id)) (timers s)) s.

(** ** The transport, as far as the service uses it

    The voice transport is eris' [VoiceConnection], a library outside the
    repository (spec section 6: play, stop, setVolume, getVolume, leave, and
    the event streamEnded). *)

(** A member access on [this.connection]: a TypeError once the connection
    has been dropped ([null]). *)
Definition withConnection (f : VoiceConnection -> Conn -> outcome)
    (s : Conn) : outcome :=
  match connection s with
  | None => Threw TypeError s
  | Some c => f c s
  end.

(** Modelled from the spec: [setVolume] of the transport sets the volume
    that its [volume] getter reports. *)
Definition connSetVolume (v : Q) : Conn -> outcome :=
  withConnection (fun c s =>
    Done (emit (TSetVolume v)
            (set_connection (Some (mkVoice (playing c) (paused c) v)) s))).

(** Modelled from the spec: [play] of the transport.  When the transport
    accepts the stream it is playing from then on, with a stream that has
    not ended; when it does not ([accepted] is false) the call fails with
    a TransportError (spec section 7) and nothing has changed. *)
Definition connPlay (accepted : bool) (src : AudioSource) : Conn -> outcome :=
  withConnection (fun c s =>
    if accepted then
      Done (emit (TPlay src)
              (set_ended false
                 (set_connection (Some (mkVoice true (paused c) (tvolume c))) s)))
    else Threw TransportError s).

(** The transport's state once its stream is over. *)
Definition stopped (c : VoiceConnection) : VoiceConnection :=
  mkVoice false (paused c) (tvolume c).

(** [stopPlaying] of the transport.  The spec names the call and the
    event and says no more; this is what eris' VoiceConnection does.  It
    returns at once when its last stream has ended already; otherwise,
    with a stream active or with none played yet, it clears [playing],
    marks the stream ended and emits 'end'.  The transport is a Node
    EventEmitter, whose [emit] runs the listener [onEnd] before
    [stopPlaying] returns.  (A playing transport has not ended; the test
    on [playing] only says so for states no run reaches.) *)
Definition stopPlayingWith (onEnd : Conn -> outcome) : Conn -> outcome :=
  withConnection (fun c s =>
    if playing c || negb (ended s)
    then onEnd (emit TStopPlaying
                  (set_ended true (set_connection (Some (stopped c)) s)))
    else Done (emit TStopPlaying s)).

(** ** The fader *)

Definition VOL_FADE_TIME : Q := 1.5.

(** The loop [for (let i = 0; i < VOL_FADE_TIME * 10; i++)] runs for
    i = 0 .. 14. *)
Definition fadeSteps : nat := 15.

Definition clampVol (x : Q) : Q := Qmax 0 (Qmin x 2).

Definition fadeSample (startVol step : Q) (i : nat) : Q :=
  clampVol (startVol + inject_Z (Z.of_nat i) * step).

Definition cancelFadeVolume (s : Conn) : Conn :=
  set_fadeTimeouts []
    (fold_left (fun st id => clearTimeout id st) (fadeTimeouts s) s).

Definition pushFade (startVol step : Q) (st : Conn) (i : nat) : Conn :=
  let '(id, st') := setTimeout (TFade (fadeSample startVol step i)) (i * 100) st in
  set_fadeTimeouts (fadeTimeouts st' ++ [id]) st'.

Definition fadeVolumeTo (newVolume : Q) (s : Conn) : outcome :=
  withConnection (fun c s0 =>
    let startVol := tvolume c in
    let diff := (newVolume - startVol)%Q in
    let step := (diff / (VOL_FADE_TIME * 10))%Q in
    Done (fold_left (pushFade startVol step) (seq 0 fadeSteps) s0))
  (cancelFadeVolume s).

Definition setVolume (v : Q) (s : Conn) : outcome :=
  match connection s with
  | Some _ => fadeVolumeTo v (set_volume v s)
  | None => Done s
  end.

(** ** Activity ducking: the speakingStart / speakingStop listeners *)

Definition noneSpeaking (s : Conn) : bool :=
  bool_decide (size (speaking s) = 0).

Definition onSpeakingStart (userId : string) (s : Conn) : Conn :=
  let s1 :=
    if noneSpeaking s then
      match stopSpeakingTimeout s with
      | Some id => set_stopSpeakingTimeout None (clearTimeout id s)
      | None =>
          let '(id, s') := setTimeout TDuck 500 (cancelFadeVolume s) in
          set_startSpeakingTimeout (Some id) s'
      end
    else s in
  set_speaking ({[ userId ]} ∪ speaking s1) s1.

Definition onSpeakingStop (userId : string) (s : Conn) : Conn :=
  let s1 := set_speaking (speaking s ∖ {[ userId ]}) s in
  if noneSpeaking s1 then
    let s2 :=
      match startSpeakingTimeout s1 with
      | Some id => set_startSpeakingTimeout None (clearTimeout id s1)
      | None => s1
      end in
    let '(id, s3) := setTimeout TRestore 1000 s2 in
    set_stopSpeakingTimeout (Some id) s3
  else s1.

(** ** Sequencing *)

Definition shift (q : list (option MusicQueueItem))
    : option MusicQueueItem * list (option MusicQueueItem) :=
  match q with
  | [] => (None, [])
  | x :: q' => (x, q')
  end.

Definition announcementText (next : MusicQueueItem) : string :=
  ("Now playing: " ++ title next)%string.

(** [polly.synthesizeSpeech(params, callback)]: the request is recorded and
    its callback runs on a later [EvSynthReply]. *)
Definition synthesizeSpeech (next : MusicQueueItem) (s : Conn) : Conn :=
  emit (Synthesize (announcementText next))
    (set_synthPending (synthPending s ++ [next]) s).

(** Calling the closure stored in [doneCallback]: an async function that
    runs up to [await next.getStream()]; the rest runs on [EvStreamReady]. *)
Definition callDone (next : MusicQueueItem) (s : Conn) : Conn :=
  set_streamPending (streamPending s ++ [next]) s.

(** The 'end' listener up to its test of [doPlayNext]. *)
Definition endCore (s : Conn) : Conn :=
  let s1 := set_current None (emit ConsoleLog s) in
  match doneCallback s1 with
  | Some next => set_doneCallback None (callDone next s1)
  | None => s1
  end.

(** The 'end' listener, given the [playNext] method it calls. *)
Definition endHandlerWith (playNext : Conn -> outcome) (s : Conn) : outcome :=
  let s2 := endCore s in
  if doPlayNext s2 then playNext s2 else Done s2.

(** [playNext] stops the transport, whose 'end' listener may call
    [playNext] again; [depth] bounds that nesting.  The listener runs with
    [doPlayNext = false] there, so one level is all that is ever used
    (lemma [playNextF_depth]). *)
Fixpoint playNextF (depth : nat) (s : Conn) : outcome :=
  let '(next, q') := shift (queue s) in
  let s1 := set_queue q' s in
  match next with
  | None => Done s1
  | Some item =>
      withConnection (fun c s1 =>
        let! s2 :=
          (if playing c then
             match depth with
             | 0 => Threw OutOfFuel s1
             | S d =>
                 stopPlayingWith (endHandlerWith (playNextF d))
                   (set_doPlayNext false s1)
             end
           else Done s1) in
        Done (synthesizeSpeech item s2)) s1
  end.

Definition playNext : Conn -> outcome := playNextF 1.

Definition endHandler : Conn -> outcome := endHandlerWith playNext.

Definition stopPlaying : Conn -> outcome := stopPlayingWith endHandler.

(** The transport reaching the end of the stream by itself. *)
Definition streamEnd (s : Conn) : outcome :=
  match connection s with
  | Some c =>
      if playing c
      then endHandler (set_ended true (set_connection (Some (stopped c)) s))
      else Done s
  | None => Done s
  end.

(** Callback of [synthesizeSpeech] for the request made for [next]; [ok]
    says whether the synthesis succeeded, [accepted] whether the transport
    takes the announcement. *)
Definition synthReply (next : MusicQueueItem) (ok accepted : bool) (s : Conn)
    : outcome :=
  if ok then
    connPlay accepted (Announcement next) (set_doneCallback (Some next) s)
  else
    let s1 := emit ConsoleError s in
    match doneCallback s1 with
    | Some stale => Done (callDone stale s1)
    | None => Threw TypeError s1
    end.

Definition updateNowPlayingMessage (s : Conn) : Conn :=
  if nowPlayingMessage s then emit EditNowPlaying s else s.

(** The rest of the [doneCallback] closure of [next], after [getStream];
    [ok] says whether the stream was fetched, [accepted] whether the
    transport takes it. *)
Definition streamReady (next : MusicQueueItem) (ok accepted : bool) (s : Conn)
    : outcome :=
  if ok then
    let! s1 := connPlay accepted (ItemStream next None)
                 (set_current (Some next) s) in
    Done (set_doPlayNext true (updateNowPlayingMessage s1))
  else Threw StreamFailed s.

(** ** The public operations *)

Definition isPlaying (s : Conn) : bool :=
  match connection s with Some c => playing c | None => false end.

Definition isPaused (s : Conn) : bool :=
  match connection s with Some c => paused c | None => false end.

Definition isConnected (s : Conn) : bool :=
  match connection s with Some _ => true | None => false end.

Definition getNowPlaying (s : Conn) : option MusicQueueItem := current s.

Definition getQueue (s : Conn) : list (option MusicQueueItem) := queue s.

(** [connect(channel)]; [joined] is what [channel.join] resolves to
    ([None] when it rejects): a transport of its own, which has not played
    yet. *)
Definition connect (channel : string) (joined : option VoiceConnection)
    (s : Conn) : outcome :=
  match connection s with
  | Some _ =>
      Done (emit (TSwitchChannel channel) (set_voiceChannel (Some channel) s))
  | None =>
      let s1 := emit (TJoin channel) (set_voiceChannel (Some channel) s) in
      match joined with
      | Some c => Done (set_ended false (set_connection (Some c) s1))
      | None => Threw JoinFailed s1
      end
  end.

Definition play (item : MusicQueueItem) (voiceChannel' : option string)
    (joined : option VoiceConnection) (s : Conn) : outcome :=
  let s0 := emit ConsoleLog s in
  let! s1 :=
    (match voiceChannel' with
     | Some ch => connect ch joined s0
     | None =>
         match connection s0 with
         | Some _ => Done s0
         | None =>
             match voiceChannel s0 with
             | Some ch => connect ch joined s0
             | None =>
                 Threw (JsError "Not connected and no voice channel specified") s0
             end
         end
     end) in
  let s2 := set_queue (queue s1 ++ [Some item]) s1 in
  let! s3 :=
    (match current s2 with
     | None => playNext s2
     | Some _ => Done s2
     end) in
  Done (updateNowPlayingMessage s3).

Definition pause (s : Conn) : Conn :=
  match connection s with
  | Some c =>
      emit TPause (set_connection (Some (mkVoice (playing c) true (tvolume c))) s)
  | None => s
  end.

Definition resume (s : Conn) : Conn :=
  match connection s with
  | Some c =>
      emit TResume (set_connection (Some (mkVoice (playing c) false (tvolume c))) s)
  | None => s
  end.

(** [this.musicQueueCache.queue.unshift(this.musicQueueCache.current)] *)
Definition unshiftCurrent (s : Conn) : Conn :=
  set_queue (current s :: queue s) s.

Definition rewind (joined : option VoiceConnection) (s : Conn) : outcome :=
  let! s1 :=
    (match connection s with
     | Some _ => Done s
     | None =>
         match voiceChannel s with
         | Some ch => connect ch joined s
         | None => Threw (JsError "Not connected to a voice channel") s
         end
     end) in
  playNext (unshiftCurrent s1).

Definition skip (s : Conn) : outcome :=
  match connection s with
  | Some _ => playNext s
  | None => Done s
  end.

(** [seek] up to its [await]: the guard is cleared, then [current.getStream()]
    is called, which throws on an empty [current]. *)
Definition seekBegin (s : Conn) : outcome :=
  let s1 := set_doPlayNext false s in
  match current s1 with
  | Some _ => Done s1
  | None => Threw TypeError s1
  end.

(** [seek] after its [await], for the item [cur] it read before; [ok]
    says whether the stream was fetched, [accepted] whether the transport
    takes it. *)
Definition seekResume (cur : MusicQueueItem) (time : Q) (ok accepted : bool)
    (s : Conn) : outcome :=
  if ok then
    let! s1 := stopPlaying s in
    let! s2 := connPlay accepted (ItemStream cur (Some time)) s1 in
    Done (set_doPlayNext true (set_current (Some cur) s2))
  else Threw StreamFailed s.

(** [seek(time)] when nothing else runs while it awaits the stream and the
    transport takes the stream. *)
Definition seek (time : Q) (ok : bool) (s : Conn) : outcome :=
  let! s1 := seekBegin s in
  match current s with
  | Some cur => seekResume cur time ok true s1
  | None => Done s1
  end.

Definition disconnect (s : Conn) : outcome :=
  match connection s with
  | Some _ =>
      let! s1 := stopPlaying s in
      match voiceChannel s1 with
      | Some _ => Done (set_connection None (emit TLeave s1))
      | None => Threw TypeError s1
      end
  | None => Done s
  end.

(** ** The event loop *)

(** What a timer does when it fires. *)
Definition fire (a : TimerAct) (s : Conn) : outcome :=
  match a with
  | TFade newVol => connSetVolume newVol s
  | TDuck =>
      let! s1 := connSetVolume (0.2 * volume s) s in
      Done (set_startSpeakingTimeout None s1)
  | TRestore =>
      let s1 := set_stopSpeakingTimeout None s in
      fadeVolumeTo (volume s1) s1
  end.

(** The pending timer that fires first: least due time, and among equal
    due times the one set first. *)
Fixpoint earliest (ts : list Timer) : option Timer :=
  match ts with
  | [] => None
  | t :: r =>
      match earliest r with
      | Some u => if due u <? due t then Some u else Some t
      | None => Some t
      end
  end.

(** Firing one timer bounds the work left by [timerWeight]: a restore timer
    schedules the fifteen timers of a fade. *)
Definition actWeight (a : TimerAct) : nat :=
  match a with
  | TRestore => S fadeSteps
  | _ => 1
  end.

Definition timerWeight (ts : list Timer) : nat :=
  list_sum (map (fun t => actWeight (act t)) ts).

(** Run every timer due up to the time [target], in firing order; an
    exception in a timer callback ends the run.  The result is the list of
    callbacks that ran, and the outcome. *)
Fixpoint runTimers (fuel : nat) (target : nat) (s : Conn)
    : list TimerAct * outcome :=
  match earliest (timers s) with
  | Some t =>
      if due t <=? target then
        match fuel with
        | 0 => ([], Threw OutOfFuel s)
        | S f =>
            match fire (act t)
                    (clearTimeout (tid t)
                       (set_now (Nat.max (now s) (due t)) s)) with
            | Done s1 =>
                let '(fired, o) := runTimers f target s1 in
                (act t :: fired, o)
            | Threw e s1 => ([act t], Threw e s1)
            end
        end
      else ([], Done (set_now (Nat.max (now s) target) s))
  | None => ([], Done (set_now (Nat.max (now s) target) s))
  end.

(** [d] milliseconds pass without any other event. *)
Definition elapseTrace (d : nat) (s : Conn) : list TimerAct * outcome :=
  runTimers (timerWeight (timers s)) (now s + d) s.

Definition elapse (d : nat) (s : Conn) : outcome := snd (elapseTrace d s).

#[global] Instance MusicQueueItem_eq_dec : EqDecision MusicQueueItem.
Proof. solve_decision. Defined.

Fixpoint removeFirst (x : MusicQueueItem) (l : list MusicQueueItem)
    : option (list MusicQueueItem) :=
  match l with
  | [] => None
  | y :: r =>
      if bool_decide (x = y) then Some r
      else option_map (cons y) (removeFirst x r)
  end.

Inductive Event : Type :=
| EvPlay (item : MusicQueueItem) (voiceChannel' : option string)
         (joined : option VoiceConnection)
| EvPause
| EvResume
| EvRewind (joined : option VoiceConnection)
| EvSkip
| EvSetVolume (v : Q)
| EvSeek (time : Q)
| EvSeekBegin
| EvSeekResume (cur : MusicQueueItem) (time : Q) (ok : bool)
| EvDisconnect
| EvStreamEnd
| EvSpeakingStart (userId : string)
| EvSpeakingStop (userId : string)
| EvSynthReply (next : MusicQueueItem) (ok : bool)
| EvStreamReady (next : MusicQueueItem) (ok : bool)
| EvElapse (d : nat)
(* the same completions when the transport refuses the stream *)
| EvSynthReplyRefused (next : MusicQueueItem)
| EvStreamReadyRefused (next : MusicQueueItem)
| EvSeekResumeRefused (cur : MusicQueueItem) (time : Q).

(** Transport events reach the listeners only while the connection object
    exists; a completion is delivered only for a request that is pending. *)
Definition step (e : Event) (s : Conn) : outcome :=
  match e with
  | EvPlay item ch joined => play item ch joined s
  | EvPause => Done (pause s)
  | EvResume => Done (resume s)
  | EvRewind joined => rewind joined s
  | EvSkip => skip s
  | EvSetVolume v => setVolume v s
  | EvSeek time => seek time true s
  | EvSeekBegin => seekBegin s
  | EvSeekResume cur time ok => seekResume cur time ok true s
  | EvDisconnect => disconnect s
  | EvStreamEnd => streamEnd s
  | EvSpeakingStart u =>
      Done (if isConnected s then onSpeakingStart u s else s)
  | EvSpeakingStop u =>
      Done (if isConnected s then onSpeakingStop u s else s)
  | EvSynthReply next ok =>
      match removeFirst next (synthPending s) with
      | Some rest => synthReply next ok true (set_synthPending rest s)
      | None => Done s
      end
  | EvStreamReady next ok =>
      match removeFirst next (streamPending s) with
      | Some rest => streamReady next ok true (set_streamPending rest s)
      | None => Done s
      end
  | EvElapse d => elapse d s
  | EvSynthReplyRefused next =>
      match removeFirst next (synthPending s) with
      | Some rest => synthReply next true false (set_synthPending rest s)
      | None => Done s
      end
  | EvStreamReadyRefused next =>
      match removeFirst next (streamPending s) with
      | Some rest => streamReady next true false (set_streamPending rest s)
      | None => Done s
      end
  | EvSeekResumeRefused cur time => seekResume cur time true false s
  end.

Fixpoint run (evs : list Event) (s : Conn) : outcome :=
  match evs with
  | [] => Done s
  | e :: r => let! s1 := step e s in run r s1
  end.

(** The timer callbacks that ran during a run of events, in order. *)
Definition firedBy (e : Event) (s : Conn) : list TimerAct :=
  match e with
  | EvElapse d => fst (elapseTrace d s)
  | _ => []
  end.

Fixpoint fired (evs : list Event) (s : Conn) : list TimerAct :=
  match evs with
  | [] => []
  | e :: r =>
      firedBy e s ++
      match step e s with
      | Done s1 => fired r s1
      | Threw _ _ => []
      end
  end.

(** Number of items taken off the queue for sequencing so far: every
    successful dequeue of [playNext] makes exactly one synthesis request. *)
Definition isSynthesize (e : Effect) : bool :=
  match e with Synthesize _ => true | _ => false end.

Definition advances (s : Conn) : nat :=
  length (List.filter isSynthesize (log s)).

(** ** States used in the examples *)

Definition freshConn : Conn :=
  mkConn None [] None None false 1 true ∅ None None None []
    0 0 [] [] [] [] false.

Definition idleVoice : VoiceConnection := mkVoice false false 1.

(** Connected to channel "C1", nothing queued, nothing playing. *)
Definition idleConn : Conn :=
  set_connection (Some idleVoice) (set_voiceChannel (Some "C1"%string) freshConn).

Definition itemA : MusicQueueItem := mkItem "Song1" "a.png".
Definition itemB : MusicQueueItem := mkItem "Song2" "b.png".
Definition itemC : MusicQueueItem := mkItem "Song3" "c.png".

(** [itemA] was enqueued, announced and started; then [itemB] and [itemC]
    were enqueued: [itemA] is playing, the other two wait in the queue. *)
Definition playingConn : Conn :=
  state_of
    (run [EvPlay itemA None None; EvSynthReply itemA true; EvStreamEnd;
          EvStreamReady itemA true; EvPlay itemB None None;
          EvPlay itemC None None] idleConn).

(** The transport refused the stream of [itemA] after its announcement:
    [itemA] is the current item but nothing plays and the announcement has
    ended; then [itemB] was enqueued and a fade to volume 2 scheduled. *)
Definition refusedConn : Conn :=
  state_of
    (run [EvPlay itemB None None; EvSetVolume 2]
       (state_of
          (run [EvPlay itemA None None; EvSynthReply itemA true; EvStreamEnd;
                EvStreamReadyRefused itemA] idleConn))).

(** ** Notions used in the statements *)




(** The state [playNext] reaches when it has to stop an active stream. *)
Definition afterStop (c : VoiceConnection) (q : list (option MusicQueueItem))
    (s : Conn) : Conn :=
  endCore (emit TStopPlaying
             (set_ended true
                (set_connection (Some (stopped c))
                   (set_doPlayNext false (set_queue q s))))).

Definition isFadeHandle (ids : list nat) (t : Timer) : bool :=
  existsb (Nat.eqb (tid t)) ids.

(** Every pending timer is a fade step whose handle is in [fadeTimeouts]. *)
Definition onlyFades (s : Conn) : Prop :=
  forall t, In t (timers s) -> isFadeHandle (fadeTimeouts s) t = true.

(** The timers one fade schedules, for handles from [n] on and delays
    counted from the time [t0]. *)
Definition fadeTimer (a b : Q) (n t0 : nat) (i : nat) : Timer :=
  mkTimer (n + i) (t0 + i * 100) (TFade (fadeSample a b i)).

(** Fade timers in firing order, with pairwise distinct handles. *)
Definition before (t u : Timer) : Prop := due t <= due u /\ tid t <> tid u.

Definition fadeAct (t : Timer) : Prop := exists v, act t = TFade v.

(** The volume the transport is left with after the fade steps [ts]. *)
Fixpoint lastVolume (v0 : Q) (ts : list Timer) : Q :=
  match ts with
  | [] => v0
  | t :: r => lastVolume (match act t with TFade v => v | _ => v0 end) r
  end.

(** The fields that hold timers and their handles. *)
Definition sameTimers (s s' : Conn) : Prop :=
  timers s' = timers s /\ fadeTimeouts s' = fadeTimeouts s /\
  startSpeakingTimeout s' = startSpeakingTimeout s /\
  stopSpeakingTimeout s' = stopSpeakingTimeout s.

(** [itemA] is playing, [itemB] and [itemC] are queued, and a fade to
    volume 2 has just been scheduled. *)
Definition fadingConn : Conn :=
  state_of (run [EvSetVolume 2] playingConn).

(** What the sequencing of items reads and writes. *)
Definition seqView (s : Conn) :=
  (current s, queue s, connection s, doneCallback s, doPlayNext s,
   synthPending s, streamPending s).

(** An idle connected connection: nothing current, queued, playing or
    pending, and the guard set. *)
Definition idle (s : Conn) : Prop :=
  exists c, playing c = false /\
    seqView s = (None, [], Some c, None, true, [], []).

(** What the ducking logic and the timers read and write. *)
Definition duckView (s : Conn) :=
  (connection s, volume s, speaking s,
   startSpeakingTimeout s, stopSpeakingTimeout s, fadeTimeouts s,
   timers s, now s, nextTimer s).

(** The transport with the ducked volume applied. *)
Definition ducked (c : VoiceConnection) (V : Q) : VoiceConnection :=
  mkVoice (playing c) (paused c) (0.2 * V).

(** ** Further operations of the connection, the registry and a caller *)

(** [switchChannel(voiceChannel)]: public, and what [connect] does on a
    live connection. *)
Definition switchChannel (channel : string) (s : Conn) : outcome :=
  withConnection (fun _ s1 => Done (emit (TSwitchChannel channel) s1))
    (set_voiceChannel (Some channel) s).

Definition setNowPlayingMessage (s : Conn) : Conn :=
  set_nowPlayingMessage true s.

(** Modelled from the spec: the [MusicQueue] that [MusicCache.get] resolves
    to (types.ts and the cache are not among the sources): the current item
    and the queue of one guild. *)
Record MusicQueue : Type := mkQueue {
  mqCurrent : option MusicQueueItem;
  mqQueue : list (option MusicQueueItem)
}.

(** [new MusicConnection(service, musicQueueCache)] with the field
    initialisers of the class: volume 1.0, [doPlayNext] true, nobody
    speaking, no fade timers, no transport. *)
Definition newMusicConnection (cache : MusicQueue) : Conn :=
  mkConn (mqCurrent cache) (mqQueue cache) None None false 1 true ∅
    None None None [] 0 0 [] [] [] [] false.

(** The registry of [MusicService].  Connections are objects: they are
    told apart by the order in which they were made.  [objects] holds the
    initial state of every connection made so far, [musicConnections] maps
    a guild to its connection. *)
Record Registry : Type := mkRegistry {
  musicConnections : gmap string nat;
  objects : list Conn
}.

(** [getMusicConnection(guild)] up to its [await]: the lookup in the map.
    A connection that is found is returned. *)
Definition getMusicConnectionBegin (guildId : string) (r : Registry)
    : option nat :=
  musicConnections r !! guildId.

(** [getMusicConnection(guild)] after [await this.cache.get(guild.id)] has
    resolved to [cache]: a connection is made and set for the guild,
    whatever the map holds for it by then. *)
Definition getMusicConnectionResume (cache : MusicQueue) (guildId : string)
    (r : Registry) : nat * Registry :=
  let conn := length (objects r) in
  (conn,
   mkRegistry (<[guildId := conn]> (musicConnections r))
     (objects r ++ [newMusicConnection cache])).

(** The whole call when nothing else runs while it awaits the cache;
    [cacheGet] is what [this.cache.get] resolves to. *)
Definition getMusicConnection (cacheGet : string -> MusicQueue)
    (guildId : string) (r : Registry) : nat * Registry :=
  match getMusicConnectionBegin guildId r with
  | Some conn => (conn, r)
  | None => getMusicConnectionResume (cacheGet guildId) guildId r
  end.

(** Modelled from the spec: what a lookup in the platforms of the service
    returns for an item's platform (models/MusicPlatform is not among the
    sources). *)
Record MusicPlatform : Type := mkPlatform {
  supportsSeek : bool;
  getType : string
}.

(** How the action of a command ends: with a reply, with an exception, or
    with a call of [conn.seek(time)] that it does not await; [o] is what
    that call has done when it reaches its own [await] and the action
    returns. *)
Inductive CommandResult : Type :=
| Replied (key : string)
| Called (time : Q) (o : outcome)
| CommandThrew (e : Error).

(** The action of the seek command (modules/music/commands/music/seek.ts)
    on the connection of the guild.  [platforms] is
    [this.client.music.platforms], as a lookup by item: [None] when the
    service has no such member, and [MusicService] in services/Music.ts
    has none.  The member access [platforms.get] is evaluated before its
    argument [getNowPlaying().platform]. *)
Definition seekAction
    (platforms : option (MusicQueueItem -> option MusicPlatform))
    (duration : Q) (s : Conn) : CommandResult :=
  if negb (isPlaying s) then Replied "music.notPlaying"
  else
    match platforms with
    | None => CommandThrew TypeError
    | Some platformOf =>
        match getNowPlaying s with
        | None => CommandThrew TypeError
        | Some item =>
            match platformOf item with
            | None => CommandThrew TypeError
            | Some musicPlatform =>
                if negb (supportsSeek musicPlatform)
                then Replied "cmd.seek.notSupported"
                else Called duration (seekBegin s)
            end
        end
    end.

(** ** Notions used in the further statements *)

(** The items handed to [play] by a list of events, in order. *)
Fixpoint plays (evs : list Event) : list MusicQueueItem :=
  match evs with
  | [] => []
  | EvPlay item _ _ :: r => item :: plays r
  | _ :: r => plays r
  end.

(** What the volume side of the connection consists of: the target, the
    set of speakers, the timers and their handles, and the clock. *)
Definition volView (s : Conn) :=
  (volume s, speaking s, startSpeakingTimeout s, stopSpeakingTimeout s,
   fadeTimeouts s, timers s, nextTimer s, now s).

(** What the sequencing side consists of, with the transport reduced to
    its [playing] and [paused] flags. *)
Definition flags (c : VoiceConnection) : bool * bool := (playing c, paused c).

Definition playView (s : Conn) :=
  (current s, queue s, voiceChannel s, nowPlayingMessage s, doneCallback s,
   doPlayNext s, synthPending s, streamPending s,
   option_map flags (connection s)).

(** Events of the volume side: volume commands, speaking signals, time. *)
Definition volumeEvent (e : Event) : bool :=
  match e with
  | EvSetVolume _ | EvSpeakingStart _ | EvSpeakingStop _ | EvElapse _ => true
  | _ => false
  end.

(** The ways a call of [playNext] can end, by the head of the queue and
    the state of the transport. *)
Inductive playNextCase (s : Conn) : outcome -> Prop :=
| pn_empty : queue s = [] -> playNextCase s (Done s)
| pn_null q : queue s = None :: q -> playNextCase s (Done (set_queue q s))
| pn_disconnected item q :
    queue s = Some item :: q -> connection s = None ->
    playNextCase s (Threw TypeError (set_queue q s))
| pn_idle item q c :
    queue s = Some item :: q -> connection s = Some c -> playing c = false ->
    playNextCase s (Done (synthesizeSpeech item (set_queue q s)))
| pn_playing item q c :
    queue s = Some item :: q -> connection s = Some c -> playing c = true ->
    playNextCase s (Done (synthesizeSpeech item (afterStop c q s))).

(** A speaking signal of an identity other than [v]. *)
Definition otherSpeaker (v : string) (e : Event) : bool :=
  match e with
  | EvSpeakingStart u | EvSpeakingStop u => negb (String.eqb u v)
  | _ => false
  end.

(** A volume command, or time passing. *)
Definition volumeCommandOrTime (e : Event) : bool :=
  match e with
  | EvSetVolume _ | EvElapse _ => true
  | _ => false
  end.

(** A live connection whose pending timers are the steps of at most one
    fade. *)
Definition oneFade (s : Conn) : Prop :=
  isConnected s = true /\ onlyFades s /\ Forall fadeAct (timers s) /\
  length (timers s) <= fadeSteps.

Definition isDuck (t : Timer) : bool :=
  match act t with TDuck => true | _ => false end.

(** Timer handles are pairwise distinct and below the next handle; a
    pending ducking timer is the one [startSpeakingTimeout] names, and
    then somebody is speaking. *)
Definition duckOK (ts : list Timer) (nt : nat) (sst : option nat)
    (sp : gset string) : Prop :=
  List.NoDup (map tid ts) /\
  Forall (fun t => tid t < nt) ts /\
  Forall (fun t => act t = TDuck -> sst = Some (tid t) /\ sp <> ∅) ts.

Definition duckInv (s : Conn) : Prop :=
  duckOK (timers s) (nextTimer s) (startSpeakingTimeout s) (speaking s).

Definition noDucks (ts : list Timer) : Prop :=
  Forall (fun t => act t <> TDuck) ts.

(** The outcome is the program's own: no bound of the model was reached. *)
Definition withinBounds (o : outcome) : Prop :=
  forall s', o <> Threw OutOfFuel s'.

(** * Properties *)

(** ** Bookkeeping *)

Lemma set_queue_same (s : Conn) : set_queue (queue s) s = s.
Proof. destruct s; reflexivity. Qed.

Lemma advances_emit (e : Effect) (s : Conn) :
  advances (emit e s) = advances s + (if isSynthesize e then 1 else 0).
Proof.
  unfold advances; cbn [log emit]. rewrite List.filter_app, length_app.
  cbn [List.filter]. destruct (isSynthesize e); reflexivity.
Qed.

Lemma advances_log (s' s : Conn) : log s' = log s -> advances s' = advances s.
Proof. unfold advances; intros ->; reflexivity. Qed.

Lemma advances_endCore (s : Conn) : advances (endCore s) = advances s.
Proof.
  unfold endCore. cbn [doneCallback set_current emit].
  transitivity (advances (emit ConsoleLog s)).
  - apply advances_log. destruct (doneCallback s); reflexivity.
  - rewrite advances_emit; cbn; lia.
Qed.

Lemma queue_endCore (s : Conn) : queue (endCore s) = queue s.
Proof. unfold endCore; cbn. destruct (doneCallback s); reflexivity. Qed.

Lemma current_endCore (s : Conn) : current (endCore s) = None.
Proof. unfold endCore; cbn. destruct (doneCallback s); reflexivity. Qed.

Lemma doPlayNext_endCore (s : Conn) : doPlayNext (endCore s) = doPlayNext s.
Proof. unfold endCore; cbn. destruct (doneCallback s); reflexivity. Qed.

Lemma connection_endCore (s : Conn) : connection (endCore s) = connection s.
Proof. unfold endCore; cbn. destruct (doneCallback s); reflexivity. Qed.

Lemma timers_endCore (s : Conn) : timers (endCore s) = timers s.
Proof. unfold endCore; cbn. destruct (doneCallback s); reflexivity. Qed.

Lemma voiceChannel_endCore (s : Conn) : voiceChannel (endCore s) = voiceChannel s.
Proof. unfold endCore; cbn. destruct (doneCallback s); reflexivity. Qed.

Lemma doneCallback_endCore (s : Conn) : doneCallback (endCore s) = None.
Proof.
  unfold endCore; cbn. destruct (doneCallback s) eqn:E; cbn; [reflexivity|exact E].
Qed.

(** ** The nesting bound of [playNext] *)

Lemma endHandlerWith_guarded (pn : Conn -> outcome) (s : Conn) :
  doPlayNext s = false -> endHandlerWith pn s = Done (endCore s).
Proof.
  intros Hg. unfold endHandlerWith. cbv zeta.
  rewrite doPlayNext_endCore, Hg. reflexivity.
Qed.

(** [playNext] with a stream active, at any nesting bound that allows the
    stop: the guard is cleared, the transport stopped, its 'end' listener
    runs up to the guard, and the announcement is requested. *)
Lemma playNextF_playing (d : nat) (s : Conn) (c : VoiceConnection)
    (item : MusicQueueItem) (q : list (option MusicQueueItem)) :
  connection s = Some c -> playing c = true -> queue s = Some item :: q ->
  playNextF (S d) s =
  Done (synthesizeSpeech item
          (endCore (emit TStopPlaying
                      (set_ended true
                         (set_connection (Some (stopped c))
                            (set_doPlayNext false (set_queue q s))))))).
Proof.
  intros Hc Hp Hq.
  unfold playNextF; fold playNextF. rewrite Hq. cbn [shift].
  unfold withConnection. cbn [connection set_queue]. rewrite Hc, Hp.
  unfold stopPlayingWith, withConnection.
  cbn [connection set_queue set_doPlayNext]. rewrite Hc, Hp. cbn [orb].
  rewrite endHandlerWith_guarded by reflexivity. reflexivity.
Qed.

Lemma playNextF_idle (d : nat) (s : Conn) (c : VoiceConnection)
    (item : MusicQueueItem) (q : list (option MusicQueueItem)) :
  connection s = Some c -> playing c = false -> queue s = Some item :: q ->
  playNextF d s = Done (synthesizeSpeech item (set_queue q s)).
Proof.
  intros Hc Hp Hq.
  destruct d; unfold playNextF; fold playNextF; rewrite Hq; cbn [shift];
    unfold withConnection; cbn [connection set_queue]; rewrite Hc, Hp;
    reflexivity.
Qed.

Lemma playNextF_null (d : nat) (s : Conn) (q : list (option MusicQueueItem)) :
  queue s = None :: q -> playNextF d s = Done (set_queue q s).
Proof.
  intros Hq. destruct d; unfold playNextF; fold playNextF; rewrite Hq; reflexivity.
Qed.

Lemma playNextF_empty (d : nat) (s : Conn) :
  queue s = [] -> playNextF d s = Done s.
Proof.
  intros Hq. destruct d; unfold playNextF; fold playNextF; rewrite Hq;
    cbn [shift]; rewrite <- Hq, set_queue_same; reflexivity.
Qed.

(** One level of nesting is all [playNext] ever uses: a larger bound gives
    the same result, and at bound one the bound is never reached. *)
Lemma playNextF_depth (d : nat) (s : Conn) :
  playNextF (S d) s = playNextF 1 s.
Proof.
  destruct (queue s) as [|[item|] q] eqn:Hq.
  - rewrite !playNextF_empty; auto.
  - destruct (connection s) as [c|] eqn:Hc.
    + destruct (playing c) eqn:Hp.
      * rewrite !(playNextF_playing _ s c item q); auto.
      * rewrite !(playNextF_idle _ s c item q); auto.
    + unfold playNextF; fold playNextF. rewrite Hq. cbn [shift].
      unfold withConnection. cbn [connection set_queue]. rewrite Hc. reflexivity.
  - rewrite !(playNextF_null _ s q); auto.
Qed.

Lemma playNext_within_depth (s s' : Conn) : playNext s <> Threw OutOfFuel s'.
Proof.
  unfold playNext.
  destruct (queue s) as [|[item|] q] eqn:Hq.
  - rewrite playNextF_empty; [discriminate|auto].
  - destruct (connection s) as [c|] eqn:Hc.
    + destruct (playing c) eqn:Hp.
      * rewrite (playNextF_playing _ s c item q); [discriminate|auto..].
      * rewrite (playNextF_idle _ s c item q); [discriminate|auto..].
    + unfold playNextF. rewrite Hq. cbn [shift].
      unfold withConnection. cbn [connection set_queue]. rewrite Hc. discriminate.
  - rewrite (playNextF_null _ s q); [discriminate|auto].
Qed.

(** ** Enqueueing without a transport *)

(** C5. With no live transport and no remembered voice channel, [play]
    called without a channel throws the "not connected" error before it
    touches the queue: the queue and the current item are as they were and
    the item is not appended. *)
Theorem play_not_connected_fails (s : Conn) (item : MusicQueueItem)
    (joined : option VoiceConnection) :
  connection s = None -> voiceChannel s = None ->
  exists s',
    play item None joined s =
      Threw (JsError "Not connected and no voice channel specified") s' /\
    queue s' = queue s /\ current s' = current s /\
    synthPending s' = synthPending s /\ connection s' = None.
Proof.
  intros Hc Hv. exists (emit ConsoleLog s).
  unfold play. cbn [connection voiceChannel emit]. rewrite Hc, Hv.
  cbn [bind]. repeat split; assumption.
Qed.

Lemma play_not_connected_fails_witness :
  exists s',
    play itemA None None freshConn =
      Threw (JsError "Not connected and no voice channel specified") s' /\
    queue s' = queue freshConn /\ current s' = current freshConn /\
    synthPending s' = synthPending freshConn /\ connection s' = None.
Proof.
  apply (play_not_connected_fails freshConn itemA None); reflexivity.
Defined.

(** ** Failure of the announcement synthesis *)

Lemma removeFirst_head (x : MusicQueueItem) (l : list MusicQueueItem) :
  removeFirst x (x :: l) = Some l.
Proof. cbn [removeFirst]. rewrite bool_decide_true; reflexivity. Qed.

(** The error branch of the synthesis callback calls [doneCallback], which
    the success branch would only have assigned afterwards. *)
Lemma synthReply_error_without_callback (next : MusicQueueItem)
    (accepted : bool) (s : Conn) :
  doneCallback s = None ->
  synthReply next false accepted s = Threw TypeError (emit ConsoleError s).
Proof.
  intros Hd. unfold synthReply. cbn [doneCallback emit]. rewrite Hd. reflexivity.
Qed.

(** C2 (what the code does). On an idle connected connection, enqueueing
    an item and then failing its announcement synthesis ends in a
    TypeError raised inside the callback; the item has left the queue, is
    not current, has no stream pending, and the transport was never asked
    to play anything. *)
Theorem synthesis_failure_drops_item (s : Conn) (c : VoiceConnection)
    (item : MusicQueueItem) :
  connection s = Some c -> playing c = false ->
  current s = None -> queue s = [] ->
  doneCallback s = None -> synthPending s = [] ->
  exists s',
    run [EvPlay item None None; EvSynthReply item false] s = Threw TypeError s' /\
    current s' = None /\ queue s' = [] /\ synthPending s' = [] /\
    streamPending s' = streamPending s /\ isPlaying s' = false /\
    forall src, In (TPlay src) (log s') -> In (TPlay src) (log s).
Proof.
  intros Hc Hp Hcur Hq Hd Hs.
  cbn [run step]. unfold play.
  cbn [connection emit]. rewrite Hc. cbn [bind].
  cbn [current set_queue queue emit]. rewrite Hcur, Hq. cbn [app].
  unfold playNext.
  erewrite (playNextF_idle 1 _ c item []); [|cbn; eassumption|assumption|reflexivity].
  cbn [bind]. unfold updateNowPlayingMessage.
  cbn [nowPlayingMessage synthesizeSpeech emit set_synthPending set_queue].
  destruct (nowPlayingMessage s).
  all: cbn [synthPending synthesizeSpeech set_synthPending emit set_queue];
    rewrite Hs; cbn [app]; rewrite removeFirst_head;
    rewrite synthReply_error_without_callback by (cbn; assumption);
    cbn [bind]; eexists; split; [reflexivity|].
  all: cbn [current queue synthPending streamPending connection log
         emit set_synthPending synthesizeSpeech set_queue].
  all: unfold isPlaying; cbn [connection emit set_synthPending
         synthesizeSpeech set_queue]; rewrite Hc, Hp.
  all: repeat split; try assumption.
  all: intros src H; rewrite !in_app_iff in H; cbn [In] in H;
    repeat match type of H with _ \/ _ => destruct H as [H|H] end;
    try discriminate H; try contradiction; assumption.
Qed.

Lemma synthesis_failure_drops_item_witness :
  exists s',
    run [EvPlay itemA None None; EvSynthReply itemA false] idleConn =
      Threw TypeError s' /\
    current s' = None /\ queue s' = [] /\ synthPending s' = [] /\
    streamPending s' = streamPending idleConn /\ isPlaying s' = false /\
    forall src, In (TPlay src) (log s') -> In (TPlay src) (log idleConn).
Proof.
  apply (synthesis_failure_drops_item idleConn idleVoice itemA); reflexivity.
Defined.

(** ** Seeking *)

Lemma run_app (evs evs' : list Event) (s : Conn) :
  run (evs ++ evs') s = (let! s1 := run evs s in run evs' s1).
Proof.
  revert s. induction evs as [|e evs IH]; intros s; [reflexivity|].
  cbn [app run]. destruct (step e s) as [s1|]; [|reflexivity].
  cbn [bind]. apply IH.
Qed.

Section Seek.

Variables (q : list (option MusicQueueItem)) (a : nat)
          (sp st : list MusicQueueItem).










End Seek.

Lemma seekBegin_current (s : Conn) (cur : MusicQueueItem) :
  current s = Some cur -> seekBegin s = Done (set_doPlayNext false s).
Proof.
  intros Hcur. unfold seekBegin. cbn [current set_doPlayNext]. rewrite Hcur.
  reflexivity.
Qed.





(** ** Stream end against skip and rewind *)

Lemma advances_synthesizeSpeech (item : MusicQueueItem) (s : Conn) :
  advances (synthesizeSpeech item s) = S (advances s).
Proof.
  unfold synthesizeSpeech. rewrite advances_emit. cbn [isSynthesize].
  rewrite (advances_log (set_synthPending _ s) s) by reflexivity. lia.
Qed.

Lemma queue_synthesizeSpeech (item : MusicQueueItem) (s : Conn) :
  queue (synthesizeSpeech item s) = queue s.
Proof. reflexivity. Qed.

Lemma doPlayNext_synthesizeSpeech (item : MusicQueueItem) (s : Conn) :
  doPlayNext (synthesizeSpeech item s) = doPlayNext s.
Proof. reflexivity. Qed.

Lemma connection_synthesizeSpeech (item : MusicQueueItem) (s : Conn) :
  connection (synthesizeSpeech item s) = connection s.
Proof. reflexivity. Qed.

Lemma current_synthesizeSpeech (item : MusicQueueItem) (s : Conn) :
  current (synthesizeSpeech item s) = current s.
Proof. reflexivity. Qed.

Lemma timers_synthesizeSpeech (item : MusicQueueItem) (s : Conn) :
  timers (synthesizeSpeech item s) = timers s.
Proof. reflexivity. Qed.

Lemma afterStop_facts (c : VoiceConnection) (q : list (option MusicQueueItem))
    (s : Conn) :
  queue (afterStop c q s) = q /\
  advances (afterStop c q s) = advances s /\
  doPlayNext (afterStop c q s) = false /\
  connection (afterStop c q s) = Some (stopped c) /\
  current (afterStop c q s) = None.
Proof.
  unfold afterStop.
  rewrite queue_endCore, advances_endCore, doPlayNext_endCore,
    connection_endCore, current_endCore, advances_emit.
  cbn [isSynthesize].
  rewrite (advances_log (set_ended _ _) s) by reflexivity.
  repeat split; try reflexivity; lia.
Qed.

Lemma playNext_playing (s : Conn) (c : VoiceConnection)
    (item : MusicQueueItem) (q : list (option MusicQueueItem)) :
  connection s = Some c -> playing c = true -> queue s = Some item :: q ->
  playNext s = Done (synthesizeSpeech item (afterStop c q s)).
Proof. apply playNextF_playing. Qed.

Lemma streamEnd_guard_clear (s : Conn) :
  doPlayNext s = false ->
  exists s', streamEnd s = Done s' /\ queue s' = queue s /\
             advances s' = advances s /\ doPlayNext s' = false.
Proof.
  intros Hg. unfold streamEnd.
  destruct (connection s) as [c|]; [|eauto].
  destruct (playing c); [|eauto].
  unfold endHandler. rewrite endHandlerWith_guarded by assumption.
  eexists; split; [reflexivity|].
  rewrite queue_endCore, advances_endCore, doPlayNext_endCore.
  repeat split; assumption.
Qed.

Lemma streamEnd_guard_set (s : Conn) (c : VoiceConnection)
    (item : MusicQueueItem) (q : list (option MusicQueueItem)) :
  connection s = Some c -> playing c = true -> doPlayNext s = true ->
  queue s = Some item :: q ->
  streamEnd s =
    Done (synthesizeSpeech item
            (set_queue q
               (endCore (set_ended true (set_connection (Some (stopped c)) s))))).
Proof.
  intros Hc Hp Hg Hq. unfold streamEnd. rewrite Hc, Hp.
  unfold endHandler, endHandlerWith. cbv zeta.
  rewrite doPlayNext_endCore. cbn [doPlayNext set_connection set_ended]. rewrite Hg.
  unfold playNext.
  apply (playNextF_idle 1 _ (stopped c)).
  - rewrite connection_endCore; reflexivity.
  - reflexivity.
  - rewrite queue_endCore; assumption.
Qed.

Lemma skip_while_playing (s : Conn) (c : VoiceConnection)
    (item : MusicQueueItem) (q : list (option MusicQueueItem)) :
  connection s = Some c -> playing c = true -> queue s = Some item :: q ->
  exists s1, skip s = Done s1 /\ queue s1 = q /\
    advances s1 = S (advances s) /\ doPlayNext s1 = false /\
    streamEnd s1 = Done s1.
Proof.
  intros Hc Hp Hq.
  unfold skip. rewrite Hc, (playNext_playing s c item q) by assumption.
  destruct (afterStop_facts c q s) as (Aq & Aa & Ag & Ac & _).
  exists (synthesizeSpeech item (afterStop c q s)).
  split; [reflexivity|].
  rewrite advances_synthesizeSpeech, queue_synthesizeSpeech,
    doPlayNext_synthesizeSpeech, Aa, Aq, Ag.
  repeat (split; [reflexivity|]).
  unfold streamEnd. rewrite connection_synthesizeSpeech, Ac. reflexivity.
Qed.

Lemma rewind_while_playing (s : Conn) (c : VoiceConnection)
    (cur : MusicQueueItem) (joined : option VoiceConnection) :
  connection s = Some c -> playing c = true -> current s = Some cur ->
  exists s2, rewind joined s = Done s2 /\ queue s2 = queue s /\
    advances s2 = S (advances s) /\ doPlayNext s2 = false /\
    streamEnd s2 = Done s2.
Proof.
  intros Hc Hp Hcur.
  assert (Hu : queue (unshiftCurrent s) = Some cur :: queue s)
    by (unfold unshiftCurrent; cbn [queue set_queue]; rewrite Hcur; reflexivity).
  destruct (skip_while_playing (unshiftCurrent s) c cur (queue s) Hc Hp Hu)
    as (s2 & E & Q2 & A2 & G2 & L2).
  exists s2. unfold rewind. rewrite Hc. cbn [bind].
  unfold skip in E. change (connection (unshiftCurrent s)) with (connection s) in E.
  rewrite Hc in E.
  repeat split; assumption.
Qed.

Lemma ended_stop_facts (x : bool) (c : VoiceConnection) (s : Conn) :
  connection (set_ended x (set_connection (Some c) s)) = Some c /\
  advances (set_ended x (set_connection (Some c) s)) = advances s /\
  doPlayNext (set_ended x (set_connection (Some c) s)) = doPlayNext s.
Proof. split; [reflexivity|]. split; reflexivity. Qed.

Lemma skip_idle (s : Conn) (c : VoiceConnection) (item : MusicQueueItem)
    (q : list (option MusicQueueItem)) :
  connection s = Some c -> playing c = false -> queue s = Some item :: q ->
  skip s = Done (synthesizeSpeech item (set_queue q s)).
Proof.
  intros Hc Hp Hq. unfold skip. rewrite Hc. unfold playNext.
  apply (playNextF_idle 1 s c item q Hc Hp Hq).
Qed.

Lemma advances_set_queue (q : list (option MusicQueueItem)) (s : Conn) :
  advances (set_queue q s) = advances s.
Proof. reflexivity. Qed.

Lemma streamEnd_then_skip (s : Conn) (c : VoiceConnection)
    (item : MusicQueueItem) (q : list (option MusicQueueItem)) :
  connection s = Some c -> playing c = true -> doPlayNext s = true ->
  queue s = Some item :: q ->
  exists s4, streamEnd s = Done s4 /\ queue s4 = q /\
    advances s4 = S (advances s) /\ doPlayNext s4 = true /\
    forall item' q', q = Some item' :: q' ->
      exists s5, skip s4 = Done s5 /\ queue s5 = q' /\
        advances s5 = S (S (advances s)).
Proof.
  intros Hc Hp Hg Hq. rewrite (streamEnd_guard_set s c item q) by assumption.
  destruct (ended_stop_facts true (stopped c) s) as (C1 & A1 & G1).
  pose proof (connection_endCore
                (set_ended true (set_connection (Some (stopped c)) s))) as C0.
  pose proof (advances_endCore
                (set_ended true (set_connection (Some (stopped c)) s))) as A0.
  pose proof (doPlayNext_endCore
                (set_ended true (set_connection (Some (stopped c)) s))) as G0.
  rewrite C1 in C0. rewrite A1 in A0. rewrite G1, Hg in G0.
  generalize dependent (endCore
                (set_ended true (set_connection (Some (stopped c)) s))).
  intros s0 C0 A0 G0.
  exists (synthesizeSpeech item (set_queue q s0)).
  split; [reflexivity|].
  rewrite advances_synthesizeSpeech, queue_synthesizeSpeech,
    doPlayNext_synthesizeSpeech.
  split; [reflexivity|].
  split; [rewrite advances_set_queue, A0; reflexivity|].
  split; [exact G0|].
  intros item' q' ->.
  assert (Cs : connection (synthesizeSpeech item (set_queue (Some item' :: q') s0))
               = Some (stopped c))
    by (rewrite connection_synthesizeSpeech; exact C0).
  assert (Qs : queue (synthesizeSpeech item (set_queue (Some item' :: q') s0))
               = Some item' :: q')
    by (rewrite queue_synthesizeSpeech; reflexivity).
  rewrite (skip_idle _ (stopped c) item' q' Cs eq_refl Qs).
  eexists. split; [reflexivity|].
  split; [rewrite queue_synthesizeSpeech; reflexivity|].
  rewrite advances_synthesizeSpeech, advances_set_queue,
    advances_synthesizeSpeech, advances_set_queue, A0. reflexivity.
Qed.

(** C3 (as the code has it). While a stream is playing: [skip] dequeues
    exactly one item and leaves the guard clear, and the stream-end
    notification its stop raises has been handled inside it without a
    dequeue; [rewind] likewise dequeues exactly the item it re-inserted.
    A stream-end notification dequeues nothing while the guard is clear.
    With the guard set it dequeues one item and leaves the guard set, so a
    [skip] that follows dequeues a second one. *)
Theorem stream_end_advances_by_guard (s : Conn) (c : VoiceConnection)
    (cur item : MusicQueueItem) (q : list (option MusicQueueItem))
    (joined : option VoiceConnection) :
  connection s = Some c -> playing c = true ->
  current s = Some cur -> queue s = Some item :: q ->
  (exists s1, skip s = Done s1 /\ queue s1 = q /\
     advances s1 = S (advances s) /\ doPlayNext s1 = false /\
     streamEnd s1 = Done s1) /\
  (exists s2, rewind joined s = Done s2 /\ queue s2 = queue s /\
     advances s2 = S (advances s) /\ doPlayNext s2 = false /\
     streamEnd s2 = Done s2) /\
  (doPlayNext s = false ->
   exists s3, streamEnd s = Done s3 /\ queue s3 = queue s /\
     advances s3 = advances s) /\
  (doPlayNext s = true ->
   exists s4, streamEnd s = Done s4 /\ queue s4 = q /\
     advances s4 = S (advances s) /\ doPlayNext s4 = true /\
     forall item' q', q = Some item' :: q' ->
       exists s5, skip s4 = Done s5 /\ queue s5 = q' /\
         advances s5 = S (S (advances s))).
Proof.
  intros Hc Hp Hcur Hq. split; [|split; [|split]].
  - exact (skip_while_playing s c item q Hc Hp Hq).
  - exact (rewind_while_playing s c cur joined Hc Hp Hcur).
  - intros Hg. destruct (streamEnd_guard_clear s Hg) as (s3 & E & Q3 & A3 & _).
    exists s3; repeat split; assumption.
  - intros Hg. exact (streamEnd_then_skip s c item q Hc Hp Hg Hq).
Qed.

Lemma stream_end_advances_by_guard_witness :
  (exists s1, skip playingConn = Done s1 /\ queue s1 = [Some itemC] /\
     advances s1 = S (advances playingConn) /\ doPlayNext s1 = false /\
     streamEnd s1 = Done s1) /\
  (exists s2, rewind None playingConn = Done s2 /\
     queue s2 = queue playingConn /\
     advances s2 = S (advances playingConn) /\ doPlayNext s2 = false /\
     streamEnd s2 = Done s2) /\
  (doPlayNext playingConn = false ->
   exists s3, streamEnd playingConn = Done s3 /\
     queue s3 = queue playingConn /\ advances s3 = advances playingConn) /\
  (doPlayNext playingConn = true ->
   exists s4, streamEnd playingConn = Done s4 /\ queue s4 = [Some itemC] /\
     advances s4 = S (advances playingConn) /\ doPlayNext s4 = true /\
     forall item' q', [Some itemC] = Some item' :: q' ->
       exists s5, skip s4 = Done s5 /\ queue s5 = q' /\
         advances s5 = S (S (advances playingConn))).
Proof.
  apply (stream_end_advances_by_guard playingConn (mkVoice true false 1)
           itemA itemB [Some itemC] None); reflexivity.
Defined.

(** C3 (as stated) fails.  With [itemA] playing and [itemB], [itemC]
    queued, one natural stream end followed by one [skip] takes two items
    off the queue: the end handler dequeues [itemB] and, the guard still
    being set, the skip dequeues [itemC] before [itemB] was ever started. *)
Lemma natural_end_then_skip_advances_twice :
  exists s',
    run [EvStreamEnd; EvSkip] playingConn = Done s' /\
    queue playingConn = [Some itemB; Some itemC] /\
    queue s' = [] /\
    synthPending s' = [itemB; itemC] /\
    advances s' = advances playingConn + 2 /\
    advances s' <> advances playingConn + 1.
Proof.
  eexists. split; [vm_compute; reflexivity|].
  vm_compute. repeat split; discriminate.
Qed.

(** The other way round: a natural stream end that arrives while [seek]
    awaits the stream is absorbed, and nothing is dequeued for it. *)
Lemma natural_end_during_seek_advances_nothing :
  exists s',
    run [EvSeekBegin; EvStreamEnd; EvSeekResume itemA 30 true] playingConn
      = Done s' /\
    queue s' = queue playingConn /\ advances s' = advances playingConn.
Proof.
  eexists. split; [vm_compute; reflexivity|].
  vm_compute. split; reflexivity.
Qed.

(** ** Timers: cancelling and scheduling a fade *)

Ltac conn_cbv :=
  cbv beta iota delta
    [set_current set_queue set_voiceChannel set_connection set_ended
     set_nowPlayingMessage set_volume set_doPlayNext set_speaking
     set_doneCallback set_startSpeakingTimeout set_stopSpeakingTimeout
     set_fadeTimeouts set_now set_nextTimer set_timers set_synthPending
     set_streamPending emit
     current queue voiceChannel connection nowPlayingMessage volume doPlayNext
     speaking doneCallback startSpeakingTimeout stopSpeakingTimeout
     fadeTimeouts now nextTimer timers synthPending streamPending log].

Lemma set_timers_same (s : Conn) : set_timers (timers s) s = s.
Proof. destruct s; reflexivity. Qed.

Lemma filter_cleared (id : nat) (ids : list nat) (ts : list Timer) :
  List.filter (fun t => negb (isFadeHandle ids t))
    (List.filter (fun t => negb (tid t =? id)) ts) =
  List.filter (fun t => negb (isFadeHandle (id :: ids) t)) ts.
Proof.
  induction ts as [|t ts IH]; [reflexivity|].
  unfold isFadeHandle in *. cbn [List.filter existsb].
  destruct (tid t =? id); cbn [negb orb List.filter]; rewrite IH; reflexivity.
Qed.

Lemma clearTimeouts_fold (ids : list nat) (s : Conn) :
  fold_left (fun st id => clearTimeout id st) ids s =
  set_timers (List.filter (fun t => negb (isFadeHandle ids t)) (timers s)) s.
Proof.
  revert s. induction ids as [|id ids IH]; intros s.
  - cbn [fold_left]. unfold isFadeHandle. cbn [existsb negb].
    rewrite List.forallb_filter_id by (apply forallb_forall; reflexivity).
    symmetry; apply set_timers_same.
  - cbn [fold_left]. rewrite IH. unfold clearTimeout.
    cbn [timers set_timers]. rewrite filter_cleared.
    destruct s; reflexivity.
Qed.

Lemma cancelFadeVolume_eq (s : Conn) :
  cancelFadeVolume s =
  set_fadeTimeouts []
    (set_timers
       (List.filter (fun t => negb (isFadeHandle (fadeTimeouts s) t)) (timers s)) s).
Proof. unfold cancelFadeVolume. rewrite clearTimeouts_fold. reflexivity. Qed.

Lemma pushFade_fold (a b : Q) (m k : nat) (s : Conn) :
  fold_left (pushFade a b) (seq k m) s =
  set_fadeTimeouts (fadeTimeouts s ++ map (fun i => nextTimer s + (i - k)) (seq k m))
    (set_nextTimer (nextTimer s + m)
       (set_timers
          (timers s ++
           map (fun i => mkTimer (nextTimer s + (i - k)) (now s + i * 100)
                            (TFade (fadeSample a b i))) (seq k m)) s)).
Proof.
  revert k s. induction m as [|m IH]; intros k s.
  - cbn [seq map fold_left]. rewrite !app_nil_r, Nat.add_0_r.
    destruct s; reflexivity.
  - cbn [seq fold_left]. rewrite IH. unfold pushFade, setTimeout.
    destruct s; conn_cbv. cbn [seq map]. f_equal.
    + rewrite <- app_assoc. cbn [app]. do 2 f_equal; [lia|].
      apply map_ext_in. intros i Hi. apply in_seq in Hi. lia.
    + lia.
    + rewrite <- app_assoc. cbn [app]. do 2 f_equal; [f_equal; lia|].
      apply map_ext_in. intros i Hi. apply in_seq in Hi. f_equal. lia.
Qed.

Lemma fadeVolumeTo_eq (v : Q) (s : Conn) (c : VoiceConnection) :
  connection s = Some c ->
  fadeVolumeTo v s =
  Done (set_fadeTimeouts (map (fun i => nextTimer s + i) (seq 0 fadeSteps))
          (set_nextTimer (nextTimer s + fadeSteps)
             (set_timers
                (List.filter (fun t => negb (isFadeHandle (fadeTimeouts s) t))
                   (timers s) ++
                 map (fadeTimer (tvolume c)
                        ((v - tvolume c) / (VOL_FADE_TIME * 10))
                        (nextTimer s) (now s))
                     (seq 0 fadeSteps)) s))).
Proof.
  intros Hc. unfold fadeVolumeTo. rewrite cancelFadeVolume_eq.
  unfold withConnection. cbn [connection set_fadeTimeouts set_timers].
  rewrite Hc. f_equal. rewrite pushFade_fold.
  cbn [fadeTimeouts timers nextTimer now set_fadeTimeouts set_timers app].
  destruct s; conn_cbv. repeat f_equal;
    apply map_ext; intros i; unfold fadeTimer; repeat f_equal; lia.
Qed.

Lemma filter_onlyFades (s : Conn) :
  onlyFades s ->
  List.filter (fun t => negb (isFadeHandle (fadeTimeouts s) t)) (timers s) = [].
Proof.
  intros H. unfold onlyFades in H.
  induction (timers s) as [|t ts IH]; [reflexivity|].
  cbn [List.filter]. rewrite (H t) by (left; reflexivity). cbn [negb].
  apply IH. intros u Hu. apply H. right; exact Hu.
Qed.

Lemma fadeVolumeTo_onlyFades (v : Q) (s : Conn) (c : VoiceConnection) :
  connection s = Some c -> onlyFades s ->
  fadeVolumeTo v s =
  Done (set_fadeTimeouts (map (fun i => nextTimer s + i) (seq 0 fadeSteps))
          (set_nextTimer (nextTimer s + fadeSteps)
             (set_timers
                (map (fadeTimer (tvolume c)
                        ((v - tvolume c) / (VOL_FADE_TIME * 10))
                        (nextTimer s) (now s))
                     (seq 0 fadeSteps)) s))).
Proof.
  intros Hc Hf. rewrite (fadeVolumeTo_eq v s c Hc), (filter_onlyFades s Hf).
  reflexivity.
Qed.

(** ** Running the timers of a fade *)

Lemma earliest_In (ts : list Timer) (t : Timer) :
  earliest ts = Some t -> In t ts.
Proof.
  revert t. induction ts as [|u r IH]; intros t; [discriminate|].
  cbn [earliest]. destruct (earliest r) as [w|].
  - destruct (due w <? due u); intros [= <-]; [right; apply IH|left]; reflexivity.
  - intros [= <-]; left; reflexivity.
Qed.

Lemma earliest_head (t : Timer) (r : list Timer) :
  Forall (fun u => due t <= due u) r -> earliest (t :: r) = Some t.
Proof.
  intros H. cbn [earliest]. destruct (earliest r) as [w|] eqn:E; [|reflexivity].
  apply earliest_In in E. rewrite List.Forall_forall in H. specialize (H w E).
  apply Nat.ltb_ge in H. rewrite H. reflexivity.
Qed.

Lemma runTimers_idle (fuel target : nat) (s : Conn) :
  (forall t, earliest (timers s) = Some t -> target < due t) ->
  runTimers fuel target s = ([], Done (set_now (Nat.max (now s) target) s)).
Proof.
  intros H. destruct fuel; cbn [runTimers];
    (destruct (earliest (timers s)) as [t|]; [|reflexivity]);
    specialize (H t eq_refl); apply Nat.leb_gt in H; rewrite H; reflexivity.
Qed.

Lemma runTimers_step (f target : nat) (s s1 : Conn) (t : Timer) :
  earliest (timers s) = Some t -> due t <= target ->
  fire (act t) (clearTimeout (tid t) (set_now (Nat.max (now s) (due t)) s))
    = Done s1 ->
  runTimers (S f) target s =
    (act t :: fst (runTimers f target s1), snd (runTimers f target s1)).
Proof.
  intros He Hd Hf. cbn [runTimers]. rewrite He.
  apply Nat.leb_le in Hd. rewrite Hd, Hf.
  destruct (runTimers f target s1); reflexivity.
Qed.

Lemma clearTimeout_head (t : Timer) (r : list Timer) :
  Forall (before t) r ->
  List.filter (fun u => negb (tid u =? tid t)) (t :: r) = r.
Proof.
  intros H. cbn [List.filter]. rewrite Nat.eqb_refl. cbn [negb].
  apply List.forallb_filter_id, forallb_forall. intros u Hu.
  rewrite List.Forall_forall in H. destruct (H u Hu) as [_ Hn].
  apply negb_true_iff, Nat.eqb_neq. congruence.
Qed.

Lemma runTimers_fades (ts : list Timer) :
  forall (s : Conn) (c : VoiceConnection) (fuel target : nat),
    timers s = ts -> connection s = Some c ->
    Forall fadeAct ts -> StronglySorted before ts ->
    Forall (fun t => due t <= target) ts -> length ts <= fuel ->
    exists s',
      runTimers fuel target s = (map act ts, Done s') /\
      timers s' = [] /\
      connection s' =
        Some (mkVoice (playing c) (paused c) (lastVolume (tvolume c) ts)) /\
      volume s' = volume s /\ queue s' = queue s /\ current s' = current s /\
      speaking s' = speaking s.
Proof.
  induction ts as [|t r IH]; intros s c fuel target Ht Hc Hf Hs Hd Hl.
  - rewrite runTimers_idle by (rewrite Ht; discriminate).
    eexists; split; [reflexivity|].
    cbn [timers connection volume queue current speaking set_now lastVolume].
    rewrite Ht, Hc. destruct c; repeat split.
  - destruct fuel as [|f]; [cbn in Hl; lia|].
    apply StronglySorted_inv in Hs. destruct Hs as [Hs Hb].
    apply List.Forall_cons_iff in Hf. destruct Hf as [[v Hv] Hf].
    apply List.Forall_cons_iff in Hd. destruct Hd as [Hdt Hd].
    set (s1 := emit (TSetVolume v)
                 (set_connection (Some (mkVoice (playing c) (paused c) v))
                    (clearTimeout (tid t)
                       (set_now (Nat.max (now s) (due t)) s)))).
    assert (He : earliest (timers s) = Some t).
    { rewrite Ht. apply earliest_head.
      eapply List.Forall_impl; [|exact Hb]. intros u [Hu _]; exact Hu. }
    assert (Hfire : fire (act t)
                      (clearTimeout (tid t)
                         (set_now (Nat.max (now s) (due t)) s)) = Done s1).
    { rewrite Hv. cbn [fire]. unfold connSetVolume, withConnection.
      cbn [connection clearTimeout set_timers set_now]. rewrite Hc. reflexivity. }
    assert (Ht1 : timers s1 = r).
    { unfold s1, clearTimeout. cbn [timers emit set_connection set_ended set_timers set_now].
      rewrite Ht. apply clearTimeout_head; assumption. }
    destruct (IH s1 (mkVoice (playing c) (paused c) v) f target Ht1 eq_refl
                Hf Hs Hd ltac:(cbn in Hl; lia))
      as (s' & E & T' & C' & V' & Q' & Cu' & Sp').
    exists s'. rewrite (runTimers_step f target s s1 t He Hdt Hfire), E.
    cbn [fst snd map lastVolume playing paused tvolume] in *. rewrite Hv.
    repeat split; assumption.
Qed.

(** ** The samples of a fade *)

Lemma clampVol_bounds (x : Q) : (0 <= clampVol x <= 2)%Q.
Proof.
  unfold clampVol.
  destruct (Q.max_spec 0 (Qmin x 2)) as [[H E]|[H E]];
  destruct (Q.min_spec x 2) as [[H' E']|[H' E']];
  rewrite E; rewrite ?E' in *; split; lra.
Qed.

#[global] Instance clampVol_wd : Proper (Qeq ==> Qeq) clampVol.
Proof. intros x y H. unfold clampVol. rewrite H. reflexivity. Qed.

Lemma clampVol_id (x : Q) : (0 <= x <= 2)%Q -> (clampVol x == x)%Q.
Proof.
  intros [H0 H2]. unfold clampVol.
  rewrite (Q.min_l x 2 H2). apply Q.max_r. exact H0.
Qed.

(** The last sample of a fade inside the legal range lies one fifteenth of
    the way short of the target. *)
Lemma fadeSample_last (a v : Q) :
  (0 <= a <= 2)%Q -> (0 <= v <= 2)%Q ->
  (fadeSample a ((v - a) / (VOL_FADE_TIME * 10)) 14 == a + (14 # 15) * (v - a))%Q.
Proof.
  intros Ha Hv. unfold fadeSample.
  assert (E : (a + inject_Z (Z.of_nat 14) * ((v - a) / (VOL_FADE_TIME * 10))
               == a + (14 # 15) * (v - a))%Q).
  { unfold VOL_FADE_TIME. cbn [Z.of_nat Pos.of_succ_nat Pos.succ]. field. }
  rewrite E. apply clampVol_id. lra.
Qed.

Lemma fade_timers_sorted (a b : Q) (n t0 m : nat) :
  forall k, StronglySorted before (map (fadeTimer a b n t0) (seq k m)).
Proof.
  induction m as [|m IH]; intros k; cbn [seq map]; constructor.
  - apply IH.
  - apply List.Forall_forall. intros u Hu. apply in_map_iff in Hu.
    destruct Hu as (i & <- & Hi). apply in_seq in Hi.
    unfold before, fadeTimer; cbn [due tid]. lia.
Qed.

Lemma fade_timers_fadeAct (a b : Q) (n t0 : nat) (l : list nat) :
  Forall fadeAct (map (fadeTimer a b n t0) l).
Proof.
  apply List.Forall_forall. intros u Hu. apply in_map_iff in Hu.
  destruct Hu as (i & <- & _). eexists; reflexivity.
Qed.

Lemma fade_timers_due (a b : Q) (n t0 target : nat) :
  t0 + 1400 <= target ->
  Forall (fun t => due t <= target) (map (fadeTimer a b n t0) (seq 0 fadeSteps)).
Proof.
  intros Hd. apply List.Forall_forall. intros u Hu. apply in_map_iff in Hu.
  destruct Hu as (i & <- & Hi). apply in_seq in Hi.
  unfold fadeTimer, fadeSteps in *; cbn [due]. lia.
Qed.

Lemma fade_timers_weight (a b : Q) (n t0 : nat) (l : list nat) :
  timerWeight (map (fadeTimer a b n t0) l) = length l.
Proof.
  unfold timerWeight. induction l as [|i l IH]; [reflexivity|].
  cbn [map length act fadeTimer actWeight]. unfold list_sum in *.
  cbn [fold_right]. rewrite IH. reflexivity.
Qed.

(** C1 (what the code does). After [setVolume v] on a connected
    connection, once all fifteen steps of the fade have run, the
    transport's volume is the fifteenth sample, taken at i = 14: for a
    start volume and a target in [0,2] that is start + 14/15 (v - start),
    which is the target only when the volume was already there. *)
Theorem setVolume_fade_ends_at_last_sample (s : Conn) (c : VoiceConnection)
    (v : Q) (d : nat) :
  connection s = Some c -> onlyFades s -> 1400 <= d ->
  exists s1 s2 c2,
    setVolume v s = Done s1 /\ elapse d s1 = Done s2 /\
    length (fst (elapseTrace d s1)) = fadeSteps /\
    timers s2 = [] /\ connection s2 = Some c2 /\
    tvolume c2 =
      fadeSample (tvolume c) ((v - tvolume c) / (VOL_FADE_TIME * 10)) 14 /\
    ((0 <= tvolume c <= 2)%Q -> (0 <= v <= 2)%Q ->
     (tvolume c2 == tvolume c + (14 # 15) * (v - tvolume c))%Q /\
     ((tvolume c2 == v)%Q <-> (tvolume c == v)%Q)).
Proof.
  intros Hc Hf Hd.
  unfold setVolume. rewrite Hc.
  rewrite (fadeVolumeTo_onlyFades v (set_volume v s) c Hc Hf).
  cbn [nextTimer now set_volume].
  set (a := tvolume c). set (b := ((v - a) / (VOL_FADE_TIME * 10))%Q).
  set (ts := map (fadeTimer a b (nextTimer s) (now s)) (seq 0 fadeSteps)).
  set (s1 := set_fadeTimeouts _ _).
  destruct (runTimers_fades ts s1 c (timerWeight ts) (now s + d))
    as (s2 & E & T2 & C2 & _).
  - reflexivity.
  - exact Hc.
  - apply fade_timers_fadeAct.
  - apply fade_timers_sorted.
  - apply fade_timers_due. cbn [now set_volume]. lia.
  - unfold ts. rewrite fade_timers_weight, length_map. reflexivity.
  - exists s1, s2, (mkVoice (playing c) (paused c) (lastVolume (tvolume c) ts)).
    assert (Et : elapseTrace d s1 = (map act ts, Done s2)) by exact E.
    unfold elapse. rewrite Et. cbn [fst snd].
    split; [reflexivity|]. split; [reflexivity|].
    split; [unfold ts; rewrite !length_map, length_seq; reflexivity|].
    split; [exact T2|]. split; [exact C2|].
    split; [reflexivity|].
    intros Ha Hv. cbn [tvolume].
    change (lastVolume (tvolume c) ts) with (fadeSample a b 14).
    pose proof (fadeSample_last a v Ha Hv) as L. fold b in L.
    split; [exact L|]. rewrite L. split; intros H; lra.
Qed.

Lemma setVolume_fade_ends_at_last_sample_witness :
  exists s1 s2 c2,
    setVolume 2 idleConn = Done s1 /\ elapse 1400 s1 = Done s2 /\
    length (fst (elapseTrace 1400 s1)) = fadeSteps /\
    timers s2 = [] /\ connection s2 = Some c2 /\
    tvolume c2 =
      fadeSample (tvolume idleVoice)
        ((2 - tvolume idleVoice) / (VOL_FADE_TIME * 10)) 14 /\
    ((0 <= tvolume idleVoice <= 2)%Q -> (0 <= 2 <= 2)%Q ->
     (tvolume c2 == tvolume idleVoice + (14 # 15) * (2 - tvolume idleVoice))%Q /\
     ((tvolume c2 == 2)%Q <-> (tvolume idleVoice == 2)%Q)).
Proof.
  apply (setVolume_fade_ends_at_last_sample idleConn idleVoice 2 1400).
  - reflexivity.
  - intros t [].
  - lia.
Defined.

(** The failing input of C1: from transport volume 1, [setVolume 2] and
    1400 ms later (all fifteen steps have run, no timer is pending) the
    transport is at 29/15, not at 2. *)
Lemma setVolume_two_from_one_stops_short :
  exists s' c',
    run [EvSetVolume 2; EvElapse 1400] idleConn = Done s' /\
    fired [EvSetVolume 2; EvElapse 1400] idleConn <> [] /\
    timers s' = [] /\ connection s' = Some c' /\
    (tvolume c' == 29 # 15)%Q /\ ~ (tvolume c' == 2)%Q.
Proof.
  do 2 eexists. split; [vm_compute; reflexivity|].
  split; [vm_compute; discriminate|].
  split; [reflexivity|]. split; [reflexivity|].
  split; [reflexivity|]. vm_compute. discriminate.
Qed.

(** ** The stored volume target *)

Lemma fire_TDuck (s : Conn) (c : VoiceConnection) :
  connection s = Some c ->
  fire TDuck s =
  Done (set_startSpeakingTimeout None
          (emit (TSetVolume (0.2 * volume s))
             (set_connection
                (Some (mkVoice (playing c) (paused c) (0.2 * volume s))) s))).
Proof.
  intros Hc. cbn [fire]. unfold connSetVolume, withConnection. rewrite Hc.
  reflexivity.
Qed.

(** C6 (as the code has it). On a connected connection [setVolume level]
    stores [level] itself as the volume target, without clamping; what is
    clamped to [0,2] is every sample of the fade it schedules.  The volume
    the ducking timer applies is 0.2 times the stored target.  Without a
    connection [setVolume] does nothing. *)
Theorem setVolume_stores_level_unclamped (s : Conn) (c : VoiceConnection)
    (v : Q) :
  connection s = Some c ->
  exists s1,
    setVolume v s = Done s1 /\ volume s1 = v /\
    (forall t, In t (timers s1) ->
       In t (timers s) \/ exists x, act t = TFade x /\ (0 <= x <= 2)%Q) /\
    (exists s2 c2, fire TDuck s1 = Done s2 /\ connection s2 = Some c2 /\
       tvolume c2 = (0.2 * volume s1)%Q) /\
    (forall s0, connection s0 = None -> setVolume v s0 = Done s0).
Proof.
  intros Hc. unfold setVolume at 1. rewrite Hc.
  rewrite (fadeVolumeTo_eq v (set_volume v s) c Hc).
  eexists. split; [reflexivity|]. split; [reflexivity|]. split; [|split].
  - intros t Ht. cbn [timers set_fadeTimeouts set_nextTimer set_timers set_volume
                      fadeTimeouts] in Ht.
    apply in_app_iff in Ht. destruct Ht as [Ht|Ht].
    + left. apply List.filter_In in Ht. apply Ht.
    + right. apply in_map_iff in Ht. destruct Ht as (i & <- & _).
      eexists. split; [reflexivity|]. apply clampVol_bounds.
  - erewrite fire_TDuck by (cbn; exact Hc). do 2 eexists.
    split; [reflexivity|]. split; reflexivity.
  - intros s0 H0. unfold setVolume. rewrite H0. reflexivity.
Qed.

Lemma setVolume_stores_level_unclamped_witness :
  exists s1,
    setVolume 5 idleConn = Done s1 /\ volume s1 = 5%Q /\
    (forall t, In t (timers s1) ->
       In t (timers idleConn) \/
       exists x, act t = TFade x /\ (0 <= x <= 2)%Q) /\
    (exists s2 c2, fire TDuck s1 = Done s2 /\ connection s2 = Some c2 /\
       tvolume c2 = (0.2 * volume s1)%Q) /\
    (forall s0, connection s0 = None -> setVolume 5 s0 = Done s0).
Proof.
  apply (setVolume_stores_level_unclamped idleConn idleVoice 5). reflexivity.
Defined.

(** C6 (as stated) fails: [setVolume 5] stores 5, outside [0,2]. *)
Lemma setVolume_five_is_stored_unclamped :
  exists s1,
    setVolume 5 idleConn = Done s1 /\ volume s1 = 5%Q /\
    ~ (0 <= volume s1 <= 2)%Q.
Proof.
  eexists. split; [vm_compute; reflexivity|]. split; [reflexivity|].
  cbn. intros [_ H]. revert H. vm_compute. intros H; apply H; reflexivity.
Qed.

(** ** Disconnecting *)

Lemma log_endCore (s : Conn) : log (endCore s) = log s ++ [ConsoleLog].
Proof. unfold endCore; cbn. destruct (doneCallback s); reflexivity. Qed.

Lemma sameTimers_endCore (s : Conn) : sameTimers s (endCore s).
Proof.
  unfold sameTimers, endCore; cbn. destruct (doneCallback s); repeat split.
Qed.

(** The 'end' listener on a transport that has just stopped: whatever the
    guard and the queue are, it completes, only appends to the log, and
    touches neither timers nor connection. *)
Lemma endHandler_after_stop (s : Conn) (c : VoiceConnection) :
  connection s = Some c -> playing c = false ->
  exists s' l,
    endHandler s = Done s' /\ log s' = log s ++ l /\ sameTimers s s' /\
    connection s' = Some c /\ voiceChannel s' = voiceChannel s.
Proof.
  intros Hc Hp. unfold endHandler, endHandlerWith. cbv zeta.
  pose proof (sameTimers_endCore s) as Ht.
  pose proof (log_endCore s) as Hl.
  pose proof (connection_endCore s) as Hc'. rewrite Hc in Hc'.
  pose proof (voiceChannel_endCore s) as Hv.
  set (s0 := endCore s) in *. clearbody s0.
  destruct (doPlayNext s0).
  - unfold playNext. destruct (queue s0) as [|[item|] q] eqn:Hq.
    + rewrite playNextF_empty by assumption. eauto 10.
    + rewrite (playNextF_idle 1 s0 c item q) by assumption.
      exists (synthesizeSpeech item (set_queue q s0)),
             [ConsoleLog; Synthesize (announcementText item)].
      split; [reflexivity|].
      split; [cbn [log synthesizeSpeech emit set_synthPending set_queue];
              rewrite Hl, <- app_assoc; reflexivity|].
      split; [exact Ht|]. split; assumption.
    + rewrite (playNextF_null 1 s0 q) by assumption.
      exists (set_queue q s0), [ConsoleLog]. repeat split; try assumption; apply Ht.
  - eauto 10.
Qed.

(** It leaves no current item: the listener clears it, and the advance
    it may make only requests an announcement. *)
Lemma endHandler_after_stop_current (s s' : Conn) (c : VoiceConnection) :
  connection s = Some c -> playing c = false -> endHandler s = Done s' ->
  current s' = None.
Proof.
  intros Hc Hp. unfold endHandler, endHandlerWith. cbv zeta.
  pose proof (current_endCore s) as Hcu.
  pose proof (connection_endCore s) as Hc'. rewrite Hc in Hc'.
  set (s0 := endCore s) in *. clearbody s0.
  destruct (doPlayNext s0).
  - unfold playNext. destruct (queue s0) as [|[item|] q] eqn:Hq.
    + rewrite playNextF_empty by assumption. intros [= <-]. exact Hcu.
    + rewrite (playNextF_idle 1 s0 c item q) by assumption.
      intros [= <-]. exact Hcu.
    + rewrite (playNextF_null 1 s0 q) by assumption. intros [= <-]. exact Hcu.
  - intros [= <-]. exact Hcu.
Qed.

(** C9 (as the code has it). On a connected connection with its voice
    channel, [disconnect] asks the transport to stop and to leave and drops
    the transport handle.  It cancels no timer: pending fade and
    debounce timers and their handles stay as they are.  When the stop
    raises no 'end' (no stream is playing and the transport's last stream
    has ended already), queue and current item are unchanged; when it
    raises one (a stream is playing, or the transport has not played
    yet), the current item is cleared. *)
Theorem disconnect_releases_transport_only (s : Conn) (c : VoiceConnection)
    (ch : string) :
  connection s = Some c -> voiceChannel s = Some ch ->
  exists s' l,
    disconnect s = Done s' /\ connection s' = None /\
    log s' = log s ++ TStopPlaying :: l ++ [TLeave] /\
    sameTimers s s' /\
    (playing c = false -> ended s = true ->
     queue s' = queue s /\ current s' = current s) /\
    (playing c = true \/ ended s = false -> current s' = None).
Proof.
  intros Hc Hv. unfold disconnect, stopPlaying, stopPlayingWith, withConnection.
  rewrite Hc. destruct (playing c || negb (ended s)) eqn:Hr.
  - destruct (endHandler_after_stop
                (emit TStopPlaying
                   (set_ended true (set_connection (Some (stopped c)) s)))
                (stopped c) eq_refl eq_refl)
      as (s1 & l & E & Hl & Ht & Hc1 & Hv1).
    rewrite E. cbn [bind]. rewrite Hv1.
    cbn [voiceChannel emit set_connection set_ended].
    rewrite Hv. exists (set_connection None (emit TLeave s1)), l.
    split; [reflexivity|]. split; [reflexivity|].
    split; [cbn [log emit set_connection set_ended] in *;
            rewrite Hl, <- !app_assoc; reflexivity|].
    split; [exact Ht|].
    split; [intros Hp He; rewrite Hp, He in Hr; discriminate|].
    intros _.
    refine (endHandler_after_stop_current _ s1 (stopped c) _ _ E); reflexivity.
  - cbn [bind voiceChannel emit]. rewrite Hv.
    exists (set_connection None (emit TLeave (emit TStopPlaying s))), [].
    split; [reflexivity|]. split; [reflexivity|].
    split; [cbn [log emit set_connection set_ended app];
            rewrite <- app_assoc; reflexivity|].
    split; [repeat split|]. split; [repeat split|].
    apply orb_false_iff in Hr. destruct Hr as [Hp He].
    apply negb_false_iff in He.
    intros [H|H]; [rewrite Hp in H|rewrite He in H]; discriminate.
Qed.

Lemma disconnect_releases_transport_only_witness :
  exists s' l,
    disconnect refusedConn = Done s' /\ connection s' = None /\
    log s' = log refusedConn ++ TStopPlaying :: l ++ [TLeave] /\
    sameTimers refusedConn s' /\
    (playing (mkVoice false false 1) = false -> ended refusedConn = true ->
     queue s' = queue refusedConn /\ current s' = current refusedConn) /\
    (playing (mkVoice false false 1) = true \/ ended refusedConn = false ->
     current s' = None).
Proof.
  apply (disconnect_releases_transport_only refusedConn
           (mkVoice false false 1) "C1"%string); reflexivity.
Defined.

(** C9 (as stated) fails.  Disconnecting while a fade is scheduled leaves
    its fifteen timers pending, and the first of them to fire afterwards
    calls [setVolume] on the dropped connection.  With a stream playing
    the stop also runs the 'end' listener, which clears the current item
    and dequeues the next one. *)
Lemma disconnect_keeps_timers_pending :
  exists s',
    disconnect fadingConn = Done s' /\
    length (timers fadingConn) = 15 /\ length (timers s') = 15 /\
    fadeTimeouts s' <> [] /\
    (exists s'', elapse 100 s' = Threw TypeError s'') /\
    current fadingConn = Some itemA /\ current s' = None /\
    queue fadingConn = [Some itemB; Some itemC] /\ queue s' = [Some itemC].
Proof.
  eexists. split; [vm_compute; reflexivity|].
  repeat split; try reflexivity; try discriminate.
  eexists. vm_compute. reflexivity.
Qed.

(** ** Enqueueing *)

Lemma play_while_current (item cur : MusicQueueItem) (s : Conn)
    (joined : option VoiceConnection) :
  isConnected s = true -> current s = Some cur ->
  exists s',
    play item None joined s = Done s' /\
    queue s' = queue s ++ [Some item] /\ current s' = Some cur /\
    isConnected s' = true /\ isPlaying s' = isPlaying s.
Proof.
  intros Hc Hcur. unfold isConnected, isPlaying in *. unfold play.
  cbn [connection emit]. destruct (connection s) as [c|] eqn:Ec; [|discriminate].
  cbn [bind current set_queue emit]. rewrite Hcur. cbn [bind].
  eexists; split; [reflexivity|]. unfold updateNowPlayingMessage.
  cbn [nowPlayingMessage set_queue emit].
  destruct (nowPlayingMessage s);
    cbn [queue current connection set_queue emit]; rewrite Ec; repeat split;
    assumption.
Qed.

Lemma plays_while_current (cur : MusicQueueItem) (rest : list MusicQueueItem) :
  forall s, isConnected s = true -> current s = Some cur ->
  exists s',
    run (map (fun i => EvPlay i None None) rest) s = Done s' /\
    queue s' = queue s ++ map Some rest /\ current s' = Some cur /\
    isPlaying s' = isPlaying s.
Proof.
  induction rest as [|item rest IH]; intros s Hc Hcur.
  - exists s. rewrite app_nil_r. repeat split; assumption.
  - destruct (play_while_current item cur s None Hc Hcur)
      as (s1 & E1 & Q1 & C1 & K1 & P1).
    destruct (IH s1 K1 C1) as (s2 & E2 & Q2 & C2 & P2).
    exists s2. cbn [map run step]. rewrite E1. cbn [bind].
    split; [exact E2|]. rewrite Q2, Q1, <- app_assoc, P2, P1.
    repeat split; assumption.
Qed.

Lemma seqView_updateNowPlayingMessage (s : Conn) :
  seqView (updateNowPlayingMessage s) = seqView s.
Proof. unfold updateNowPlayingMessage. destruct (nowPlayingMessage s); reflexivity. Qed.

Lemma play_idle_view (first : MusicQueueItem) (s : Conn) (c : VoiceConnection)
    (g : bool) (sr : list MusicQueueItem) (joined : option VoiceConnection) :
  seqView s = (None, [], Some c, None, g, [], sr) -> playing c = false ->
  exists s1,
    play first None joined s = Done s1 /\
    seqView s1 = (None, [], Some c, None, g, [first], sr).
Proof.
  unfold seqView at 1. intros [= Hcur Hq Hc Hd Hg Hsy Hsr] Hp.
  unfold play. cbn [connection emit]. rewrite Hc. cbn [bind].
  cbn [current set_queue queue emit]. rewrite Hcur, Hq. cbn [app].
  unfold playNext.
  erewrite (playNextF_idle 1 _ c first []); [|cbn; eassumption|assumption|reflexivity].
  cbn [bind]. eexists; split; [reflexivity|].
  rewrite seqView_updateNowPlayingMessage. unfold seqView.
  cbn [current queue connection doneCallback doPlayNext synthPending
       streamPending synthesizeSpeech set_synthPending set_queue emit].
  rewrite Hcur, Hc, Hd, Hg, Hsy, Hsr. reflexivity.
Qed.

Lemma synthReply_ok_view (first : MusicQueueItem) (s : Conn)
    (cu : option MusicQueueItem) (q : list (option MusicQueueItem))
    (c : VoiceConnection) (dc : option MusicQueueItem) (g : bool)
    (sy sr : list MusicQueueItem) :
  seqView s = (cu, q, Some c, dc, g, first :: sy, sr) ->
  exists s2,
    step (EvSynthReply first true) s = Done s2 /\
    seqView s2 =
      (cu, q, Some (mkVoice true (paused c) (tvolume c)), Some first, g, sy, sr).
Proof.
  unfold seqView at 1. intros [= Hcur Hq Hc Hd Hg Hsy Hsr].
  cbn [step]. rewrite Hsy, removeFirst_head.
  unfold synthReply, connPlay, withConnection.
  cbn [connection set_doneCallback set_synthPending]. rewrite Hc.
  eexists; split; [reflexivity|]. unfold seqView.
  cbn [current queue connection doneCallback doPlayNext synthPending
       streamPending set_doneCallback set_synthPending set_connection set_ended emit].
  rewrite Hcur, Hq, Hg, Hsr. reflexivity.
Qed.

Lemma streamEnd_announcement_view (first : MusicQueueItem) (s : Conn)
    (cu : option MusicQueueItem) (c : VoiceConnection)
    (sy sr : list MusicQueueItem) :
  seqView s = (cu, [], Some c, Some first, true, sy, sr) -> playing c = true ->
  exists s3,
    step EvStreamEnd s = Done s3 /\
    seqView s3 = (None, [], Some (stopped c), None, true, sy, sr ++ [first]).
Proof.
  unfold seqView at 1. intros [= Hcur Hq Hc Hd Hg Hsy Hsr] Hp.
  cbn [step]. unfold streamEnd. rewrite Hc, Hp.
  unfold endHandler, endHandlerWith. cbv zeta.
  rewrite doPlayNext_endCore. cbn [doPlayNext set_connection set_ended]. rewrite Hg.
  unfold playNext. rewrite playNextF_empty by (rewrite queue_endCore; exact Hq).
  eexists; split; [reflexivity|]. unfold seqView.
  rewrite current_endCore, queue_endCore, connection_endCore,
    doneCallback_endCore, doPlayNext_endCore.
  cbn [queue connection doPlayNext set_connection set_ended]. rewrite Hq, Hg.
  unfold endCore.
  cbn [doneCallback synthPending streamPending set_current set_connection set_ended emit].
  rewrite Hd.
  cbn [synthPending streamPending set_doneCallback callDone set_streamPending
       set_current set_connection set_ended emit].
  rewrite Hsy, Hsr. reflexivity.
Qed.

Lemma streamReady_ok_view (first : MusicQueueItem) (s : Conn)
    (cu : option MusicQueueItem) (q : list (option MusicQueueItem))
    (c : VoiceConnection) (dc : option MusicQueueItem) (g : bool)
    (sy sr : list MusicQueueItem) :
  seqView s = (cu, q, Some c, dc, g, sy, first :: sr) ->
  exists s4,
    step (EvStreamReady first true) s = Done s4 /\
    seqView s4 =
      (Some first, q, Some (mkVoice true (paused c) (tvolume c)), dc, true, sy, sr).
Proof.
  unfold seqView at 1. intros [= Hcur Hq Hc Hd Hg Hsy Hsr].
  cbn [step]. rewrite Hsr, removeFirst_head.
  unfold streamReady, connPlay, withConnection.
  cbn [connection set_current set_streamPending]. rewrite Hc. cbn [bind].
  eexists; split; [reflexivity|].
  transitivity (seqView (set_doPlayNext true
     (emit (TPlay (ItemStream first None))
        (set_connection (Some (mkVoice true (paused c) (tvolume c)))
           (set_current (Some first) (set_streamPending sr s)))))).
  - unfold updateNowPlayingMessage.
    cbn [nowPlayingMessage emit set_connection set_ended set_current set_streamPending].
    destruct (nowPlayingMessage s); reflexivity.
  - unfold seqView.
    cbn [current queue connection doneCallback doPlayNext synthPending
         streamPending set_doPlayNext set_current set_streamPending
         set_connection set_ended emit].
    rewrite Hq, Hd, Hsy. reflexivity.
Qed.

(** The first item on an idle connection, through announcement and start
    of its stream. *)
Lemma first_item_sequenced (first : MusicQueueItem) (s : Conn) :
  idle s ->
  exists s' c',
    run [EvPlay first None None; EvSynthReply first true; EvStreamEnd;
         EvStreamReady first true] s = Done s' /\
    seqView s' = (Some first, [], Some c', None, true, [], []) /\
    playing c' = true.
Proof.
  intros (c & Hp & Hv).
  destruct (play_idle_view first s c true [] None Hv Hp) as (s1 & E1 & V1).
  destruct (synthReply_ok_view first s1 _ _ _ _ _ _ _ V1) as (s2 & E2 & V2).
  destruct (streamEnd_announcement_view first s2 _ _ _ _ V2 eq_refl)
    as (s3 & E3 & V3).
  destruct (streamReady_ok_view first s3 _ _ _ _ _ _ [] V3) as (s4 & E4 & V4).
  exists s4. eexists. split; [|split; [exact V4|reflexivity]].
  cbn [run].
  change (step (EvPlay first None None) s) with (play first None None s).
  rewrite E1. cbn [bind].
  rewrite E2. cbn [bind]. rewrite E3. cbn [bind]. rewrite E4. reflexivity.
Qed.

(** C7 (as the code has it). On an idle connected connection, when the
    first item has been announced and its stream started before the other
    enqueues are made, the current item is the first enqueued item and the
    queue holds the others in submission order. *)
Theorem enqueues_after_first_started (first : MusicQueueItem)
    (rest : list MusicQueueItem) (s : Conn) :
  idle s ->
  exists s',
    run ([EvPlay first None None; EvSynthReply first true; EvStreamEnd;
          EvStreamReady first true] ++
         map (fun i => EvPlay i None None) rest) s = Done s' /\
    current s' = Some first /\ queue s' = map Some rest /\
    isPlaying s' = true.
Proof.
  intros Hi.
  destruct (first_item_sequenced first s Hi) as (s1 & c1 & E1 & V1 & P1).
  unfold seqView in V1. injection V1 as C1 Q1 K1 _ _ _ _.
  assert (K1' : isConnected s1 = true) by (unfold isConnected; rewrite K1; reflexivity).
  destruct (plays_while_current first rest s1 K1' C1) as (s2 & E2 & Q2 & C2 & P2).
  exists s2. split.
  - rewrite run_app, E1. exact E2.
  - rewrite Q2, Q1, P2. unfold isPlaying. rewrite K1. repeat split; assumption.
Qed.

Lemma enqueues_after_first_started_witness :
  exists s',
    run ([EvPlay itemA None None; EvSynthReply itemA true; EvStreamEnd;
          EvStreamReady itemA true] ++
         map (fun i => EvPlay i None None) [itemB; itemC]) idleConn = Done s' /\
    current s' = Some itemA /\ queue s' = map Some [itemB; itemC] /\
    isPlaying s' = true.
Proof.
  apply (enqueues_after_first_started itemA [itemB; itemC] idleConn).
  exists idleVoice. split; reflexivity.
Defined.

(** C7 (as stated) fails.  Two enqueues made back to back on an idle
    connection: the current item is still empty when the second call tests
    it, so the second item is dequeued at once as well.  When all
    sequencing has completed the current item is the second one and the
    queue is empty. *)
Lemma back_to_back_enqueues_dequeue_both :
  exists s1 s2,
    run [EvPlay itemA None None; EvPlay itemB None None] idleConn = Done s1 /\
    queue s1 = [] /\ synthPending s1 = [itemA; itemB] /\
    run [EvSynthReply itemA true; EvSynthReply itemB true; EvStreamEnd;
         EvStreamReady itemB true] s1 = Done s2 /\
    synthPending s2 = [] /\ streamPending s2 = [] /\ timers s2 = [] /\
    current s2 = Some itemB /\ current s2 <> Some itemA /\
    queue s2 = [] /\ queue s2 <> [Some itemB].
Proof.
  do 2 eexists. split; [vm_compute; reflexivity|].
  split; [reflexivity|]. split; [reflexivity|].
  split; [vm_compute; reflexivity|].
  repeat split; try reflexivity; discriminate.
Qed.

(** ** Activity ducking *)

Ltac duck_fields :=
  cbn [connection volume speaking startSpeakingTimeout stopSpeakingTimeout
       fadeTimeouts timers now nextTimer
       set_connection set_ended set_volume set_speaking set_startSpeakingTimeout
       set_stopSpeakingTimeout set_fadeTimeouts set_timers set_now
       set_nextTimer emit].

Lemma noneSpeaking_true (s : Conn) : speaking s = ∅ -> noneSpeaking s = true.
Proof. intros H. unfold noneSpeaking. rewrite H. reflexivity. Qed.

Lemma step_speakingStart (u : string) (s : Conn) (c : VoiceConnection) :
  connection s = Some c ->
  step (EvSpeakingStart u) s = Done (onSpeakingStart u s).
Proof. intros H. cbn [step]. unfold isConnected. rewrite H. reflexivity. Qed.

Lemma step_speakingStop (u : string) (s : Conn) (c : VoiceConnection) :
  connection s = Some c ->
  step (EvSpeakingStop u) s = Done (onSpeakingStop u s).
Proof. intros H. cbn [step]. unfold isConnected. rewrite H. reflexivity. Qed.

(** A fresh activity period begins: the first speaker cancels a running
    fade and arms the 500 ms ducking timer. *)
Lemma start_fresh_view (u : string) (s : Conn) :
  speaking s = ∅ -> stopSpeakingTimeout s = None -> onlyFades s ->
  duckView (onSpeakingStart u s) =
  (connection s, volume s, {[ u ]} ∪ ∅, Some (nextTimer s), None, [],
   [mkTimer (nextTimer s) (now s + 500) TDuck], now s, S (nextTimer s)).
Proof.
  intros Hs Ht Hf. unfold onSpeakingStart.
  rewrite (noneSpeaking_true s Hs), Ht, cancelFadeVolume_eq,
    (filter_onlyFades s Hf).
  unfold setTimeout, duckView. duck_fields. rewrite Hs, Ht. reflexivity.
Qed.

(** A speaker starts while a restore is pending: the restore timer is
    cleared and no ducking timer is armed. *)
Lemma start_cancels_restore_view (w : string) (s : Conn)
    (co : option VoiceConnection) (V : Q) (st : option nat) (id : nat)
    (fts : list nat) (ts : list Timer) (T nt : nat) :
  duckView s = (co, V, ∅, st, Some id, fts, ts, T, nt) ->
  duckView (onSpeakingStart w s) =
  (co, V, {[ w ]} ∪ ∅, st, None, fts,
   List.filter (fun t => negb (tid t =? id)) ts, T, nt).
Proof.
  unfold duckView at 1. intros [= Hc Hv Hs Hst Hsto Hf Ht Hn Hnt].
  unfold onSpeakingStart. rewrite (noneSpeaking_true s Hs), Hsto.
  unfold clearTimeout, duckView. duck_fields.
  rewrite Hc, Hv, Hs, Hst, Hf, Ht, Hn, Hnt. reflexivity.
Qed.

(** The last speaker stops: a pending ducking timer is cleared and the
    1000 ms restore timer is armed. *)
Lemma stop_last_view (u : string) (s : Conn)
    (co : option VoiceConnection) (V : Q) (sp : gset string)
    (st sto : option nat) (fts : list nat) (ts : list Timer) (T nt : nat) :
  duckView s = (co, V, sp, st, sto, fts, ts, T, nt) -> sp ∖ {[ u ]} = ∅ ->
  duckView (onSpeakingStop u s) =
  (co, V, ∅, None, Some nt, fts,
   match st with
   | Some id => List.filter (fun t => negb (tid t =? id)) ts
   | None => ts
   end ++ [mkTimer nt (T + 1000) TRestore], T, S nt).
Proof.
  unfold duckView at 1. intros [= Hc Hv Hs Hst Hsto Hf Ht Hn Hnt] He.
  unfold onSpeakingStop.
  rewrite noneSpeaking_true by (cbn [speaking set_speaking]; rewrite Hs; exact He).
  cbn [startSpeakingTimeout set_speaking]. rewrite Hst.
  destruct st as [id|]; unfold setTimeout, clearTimeout, duckView; duck_fields;
    rewrite ?Hst, Hc, Hv, Hs, He, Hf, Ht, Hn, Hnt; reflexivity.
Qed.

(** Time passes and the only pending timer is not yet due. *)
Lemma elapse_before_due (d : nat) (s : Conn) (t : Timer) :
  timers s = [t] -> now s + d < due t ->
  elapseTrace d s = ([], Done (set_now (now s + d) s)).
Proof.
  intros Ht Hd. unfold elapseTrace.
  rewrite runTimers_idle by (rewrite Ht; intros t' [= <-]; exact Hd).
  rewrite Nat.max_r by lia. reflexivity.
Qed.

Lemma elapse_no_timers (d : nat) (s : Conn) :
  timers s = [] -> elapseTrace d s = ([], Done (set_now (now s + d) s)).
Proof.
  intros Ht. unfold elapseTrace.
  rewrite runTimers_idle by (rewrite Ht; discriminate).
  rewrite Nat.max_r by lia. reflexivity.
Qed.

(** Time passes beyond the ducking timer, the only one pending. *)
Lemma elapse_duck_view (d : nat) (s : Conn) (c : VoiceConnection) (V : Q)
    (sp : gset string) (sto : option nat) (fts : list nat) (n td T nt : nat) :
  duckView s =
    (Some c, V, sp, Some n, sto, fts, [mkTimer n td TDuck], T, nt) ->
  T <= td <= T + d ->
  exists s',
    elapseTrace d s = ([TDuck], Done s') /\
    duckView s' =
      (Some (mkVoice (playing c) (paused c) (0.2 * V)), V, sp, None, sto, fts,
       [], T + d, nt).
Proof.
  unfold duckView at 1. intros [= Hc Hv Hs Hst Hsto Hf Ht Hn Hnt] Hd.
  unfold elapseTrace. rewrite Ht, Hn.
  change (timerWeight [mkTimer n td TDuck]) with 1.
  set (s0 := clearTimeout n (set_now (Nat.max (now s) td) s)).
  assert (C0 : connection s0 = Some c) by exact Hc.
  erewrite (runTimers_step 0 (T + d) s _ (mkTimer n td TDuck));
    [|rewrite Ht; reflexivity|cbn; lia|cbn [act tid]; fold s0; apply fire_TDuck; exact C0].
  rewrite runTimers_idle.
  2:{ unfold s0, clearTimeout. duck_fields. rewrite Ht. cbn [List.filter tid].
      rewrite Nat.eqb_refl. discriminate. }
  cbn [fst snd act]. eexists; split; [reflexivity|].
  unfold s0, clearTimeout, duckView. duck_fields.
  rewrite ?Hc, ?Hv, ?Hs, ?Hsto, ?Hf, ?Ht, ?Hn, ?Hnt. cbn [List.filter tid].
  rewrite Nat.eqb_refl. cbn [negb due].
  replace (Nat.max (Nat.max T td) (T + d)) with (T + d) by lia.
  reflexivity.
Qed.

Lemma fadeVolumeTo_timers (v : Q) (s s1 : Conn) (c : VoiceConnection) :
  connection s = Some c -> fadeVolumeTo v s = Done s1 ->
  timers s1 =
    List.filter (fun t => negb (isFadeHandle (fadeTimeouts s) t)) (timers s) ++
    map (fadeTimer (tvolume c) ((v - tvolume c) / (VOL_FADE_TIME * 10))
           (nextTimer s) (now s)) (seq 0 fadeSteps).
Proof.
  intros Hc H. rewrite (fadeVolumeTo_eq v s c Hc) in H.
  injection H as <-. reflexivity.
Qed.

Lemma fadeVolumeTo_disconnected (v : Q) (s : Conn) :
  connection s = None -> fadeVolumeTo v s = Threw TypeError (cancelFadeVolume s).
Proof.
  intros Hc. unfold fadeVolumeTo, withConnection. rewrite cancelFadeVolume_eq.
  cbn [connection set_fadeTimeouts set_timers]. rewrite Hc. reflexivity.
Qed.

(** Where the callbacks that run come from: a timer that was pending, or a
    fade step scheduled on the way. *)
Lemma fire_timers_origin (a : TimerAct) (s s1 : Conn) :
  fire a s = Done s1 ->
  forall t, In t (timers s1) -> In t (timers s) \/ fadeAct t.
Proof.
  destruct a as [v| |]; cbn [fire]; unfold connSetVolume, withConnection.
  - destruct (connection s); [|discriminate]. intros [= <-] t Ht. left; exact Ht.
  - destruct (connection s); [|discriminate]. cbn [bind].
    intros [= <-] t Ht. left; exact Ht.
  - destruct (connection s) as [c|] eqn:Hc.
    + intros F t Ht.
      rewrite (fadeVolumeTo_timers _ (set_stopSpeakingTimeout None s) s1 c Hc F)
        in Ht.
      apply in_app_iff in Ht. destruct Ht as [Ht|Ht].
      * left. apply List.filter_In in Ht. apply Ht.
      * right. apply in_map_iff in Ht. destruct Ht as (i & <- & _).
        eexists; reflexivity.
    + rewrite fadeVolumeTo_disconnected by exact Hc. discriminate.
Qed.

Lemma runTimers_origin (fuel target : nat) :
  forall (s : Conn) (a : TimerAct),
    In a (fst (runTimers fuel target s)) ->
    (exists t, In t (timers s) /\ act t = a) \/ (exists v, a = TFade v).
Proof.
  induction fuel as [|f IH]; intros s a; cbn [runTimers];
    destruct (earliest (timers s)) as [t|] eqn:E; try (intros []);
    destruct (due t <=? target); try (intros []).
  destruct (fire (act t) _) as [s1|e s1] eqn:F.
  - destruct (runTimers f target s1) as [l o] eqn:R. cbn [fst].
    intros [<-|Ha].
    + left. exists t. split; [apply earliest_In; exact E|reflexivity].
    + specialize (IH s1 a). rewrite R in IH. destruct (IH Ha) as [(t' & Ht' & <-)|Hv].
      * destruct (fire_timers_origin _ _ _ F t' Ht') as [Hin|[v Hv]].
        -- left. exists t'. split; [|reflexivity].
           unfold clearTimeout in Hin. cbn [timers set_timers set_now] in Hin.
           apply List.filter_In in Hin. apply Hin.
        -- right. exists v. exact Hv.
      * right. exact Hv.
  - cbn [fst]. intros [<-|[]].
    left. exists t. split; [apply earliest_In; exact E|reflexivity].
Qed.

(** *** The fuel of [elapse] is enough *)

Lemma timerWeight_app (l l' : list Timer) :
  timerWeight (l ++ l') = timerWeight l + timerWeight l'.
Proof. unfold timerWeight. rewrite map_app, list_sum_app. reflexivity. Qed.

Lemma timerWeight_filter (f : Timer -> bool) (l : list Timer) :
  timerWeight (List.filter f l) <= timerWeight l.
Proof.
  unfold timerWeight. induction l as [|t l IH]; [reflexivity|].
  cbn [List.filter]. destruct (f t); cbn [map list_sum]; unfold list_sum in *;
    cbn [fold_right]; lia.
Qed.

Lemma timerWeight_clear (t : Timer) (l : list Timer) :
  In t l ->
  timerWeight (List.filter (fun u => negb (tid u =? tid t)) l)
    + actWeight (act t) <= timerWeight l.
Proof.
  unfold timerWeight. induction l as [|u l IH]; intros Hin; [destruct Hin|].
  cbn [List.filter]. destruct Hin as [->|Hin].
  - rewrite Nat.eqb_refl. cbn [negb map].
    pose proof (timerWeight_filter (fun u => negb (tid u =? tid t)) l) as H.
    unfold timerWeight, list_sum in *. cbn [fold_right]. lia.
  - specialize (IH Hin).
    destruct (negb (tid u =? tid t)); cbn [map]; unfold list_sum in *;
      cbn [fold_right]; lia.
Qed.

Lemma fire_weight (a : TimerAct) (s s1 : Conn) :
  fire a s = Done s1 ->
  timerWeight (timers s1) + 1 <= timerWeight (timers s) + actWeight a.
Proof.
  destruct a as [v| |]; cbn [fire]; unfold connSetVolume, withConnection.
  - destruct (connection s); [|discriminate]. intros [= <-].
    cbn [timers emit set_connection set_ended actWeight]. unfold fadeSteps. lia.
  - destruct (connection s); [|discriminate]. cbn [bind]. intros [= <-].
    cbn [timers emit set_connection set_ended set_startSpeakingTimeout actWeight].
    unfold fadeSteps. lia.
  - destruct (connection s) as [c|] eqn:Hc.
    + intros F.
      rewrite (fadeVolumeTo_timers _ (set_stopSpeakingTimeout None s) s1 c Hc F).
      rewrite timerWeight_app, fade_timers_weight, length_seq.
      pose proof (timerWeight_filter
                    (fun t => negb (isFadeHandle (fadeTimeouts s) t)) (timers s)).
      cbn [actWeight]. change (timers (set_stopSpeakingTimeout None s))
        with (timers s).
      change (fadeTimeouts (set_stopSpeakingTimeout None s))
        with (fadeTimeouts s). unfold fadeSteps. lia.
    + rewrite fadeVolumeTo_disconnected by exact Hc. discriminate.
Qed.

Lemma fire_uses_no_fuel (a : TimerAct) (s s1 : Conn) :
  fire a s <> Threw OutOfFuel s1.
Proof.
  destruct a as [v| |]; cbn [fire]; unfold connSetVolume, withConnection.
  - destruct (connection s); discriminate.
  - destruct (connection s); discriminate.
  - unfold fadeVolumeTo, withConnection.
    destruct (connection (cancelFadeVolume _)); discriminate.
Qed.

Lemma runTimers_fuel (fuel target : nat) :
  forall s s', timerWeight (timers s) <= fuel ->
    snd (runTimers fuel target s) <> Threw OutOfFuel s'.
Proof.
  induction fuel as [|f IH]; intros s s' Hw; cbn [runTimers];
    destruct (earliest (timers s)) as [t|] eqn:E; try discriminate;
    destruct (due t <=? target); try discriminate.
  - apply earliest_In in E.
    pose proof (timerWeight_clear t (timers s) E) as H.
    destruct (act t); cbn [actWeight] in H; lia.
  - pose proof (earliest_In _ _ E) as Hin.
    pose proof (timerWeight_clear t (timers s) Hin) as Hc.
    destruct (fire (act t) _) as [s1|e s1] eqn:F.
    + pose proof (fire_weight _ _ _ F) as Hf.
      unfold clearTimeout in Hf. cbn [timers set_timers set_now] in Hf.
      specialize (IH s1 s').
      destruct (runTimers f target s1) as [l o]. cbn [snd] in *.
      apply IH. lia.
    + cbn [snd]. intros [= -> ->]. exact (fire_uses_no_fuel _ _ _ F).
Qed.

(** [elapse] never stops for lack of fuel. *)
Lemma elapse_enough_fuel (d : nat) (s s' : Conn) :
  elapse d s <> Threw OutOfFuel s'.
Proof. apply runTimers_fuel. reflexivity. Qed.

(** Time passes beyond the restore timer, the only one pending: it fires
    and starts a fade from the transport's volume to the stored target;
    after another 1400 ms that fade has run all its steps. *)
Lemma elapse_restore (d : nat) (s : Conn) (c : VoiceConnection) (V : Q)
    (sp : gset string) (st sto : option nat) (n td T nt : nat) :
  duckView s =
    (Some c, V, sp, st, sto, [], [mkTimer n td TRestore], T, nt) ->
  T <= td <= T + d ->
  (exists l o, elapseTrace d s = (TRestore :: l, o)) /\
  (td + 1400 <= T + d ->
   exists l s',
     elapseTrace d s = (TRestore :: l, Done s') /\ length l = fadeSteps /\
     timers s' = [] /\ volume s' = V /\
     connection s' =
       Some (mkVoice (playing c) (paused c)
               (fadeSample (tvolume c)
                  ((V - tvolume c) / (VOL_FADE_TIME * 10)) 14))).
Proof.
  unfold duckView at 1. intros [= Hc Hv Hs Hst Hsto Hf Ht Hn Hnt] Hd.
  unfold elapseTrace. rewrite Ht, Hn.
  change (timerWeight [mkTimer n td TRestore]) with (S fadeSteps).
  set (s0 := set_stopSpeakingTimeout None
               (clearTimeout n (set_now (Nat.max (now s) td) s))).
  assert (C0 : connection s0 = Some c) by exact Hc.
  assert (T0 : timers s0 = []).
  { unfold s0, clearTimeout. duck_fields. rewrite Ht. cbn [List.filter tid].
    rewrite Nat.eqb_refl. reflexivity. }
  assert (N0 : now s0 = td).
  { unfold s0, clearTimeout. duck_fields. rewrite Hn. lia. }
  assert (V0 : volume s0 = V) by exact Hv.
  pose proof (fadeVolumeTo_eq V s0 c C0) as F. rewrite T0, N0 in F.
  cbn [List.filter app] in F.
  set (ts := map (fadeTimer (tvolume c) ((V - tvolume c) / (VOL_FADE_TIME * 10))
                    (nextTimer s0) td) (seq 0 fadeSteps)) in *.
  set (s1 := set_fadeTimeouts _ _) in F.
  assert (Hstep : runTimers (S fadeSteps) (T + d) s =
                  (TRestore :: fst (runTimers fadeSteps (T + d) s1),
                   snd (runTimers fadeSteps (T + d) s1))).
  { apply (runTimers_step fadeSteps (T + d) s s1 (mkTimer n td TRestore)).
    - rewrite Ht; reflexivity.
    - cbn [due]; lia.
    - cbn [act tid fire due]. fold s0. rewrite <- V0 in F. exact F. }
  rewrite Hstep. split; [eauto|].
  intros Hfull.
  destruct (runTimers_fades ts s1 c fadeSteps (T + d))
    as (s2 & E & T2 & C2 & V2 & _).
  - reflexivity.
  - exact C0.
  - apply fade_timers_fadeAct.
  - apply fade_timers_sorted.
  - apply fade_timers_due. lia.
  - unfold ts. rewrite length_map, length_seq. reflexivity.
  - rewrite E. cbn [fst snd]. exists (map act ts), s2.
    split; [reflexivity|].
    split; [unfold ts; rewrite !length_map, length_seq; reflexivity|].
    split; [exact T2|]. split; [rewrite V2; exact V0|]. exact C2.
Qed.

Lemma duckView_set_now (x : nat) (s : Conn) :
  duckView (set_now x s) =
  (connection s, volume s, speaking s, startSpeakingTimeout s,
   stopSpeakingTimeout s, fadeTimeouts s, timers s, x, nextTimer s).
Proof. reflexivity. Qed.

Lemma elapse_step (d : nat) (s s' : Conn) (l : list TimerAct) :
  elapseTrace d s = (l, Done s') ->
  step (EvElapse d) s = Done s' /\ firedBy (EvElapse d) s = l.
Proof. intros H. cbn [step firedBy]. unfold elapse. rewrite H. split; reflexivity. Qed.

Lemma run_cons (e : Event) (r : list Event) (s s1 : Conn) :
  step e s = Done s1 -> run (e :: r) s = run r s1.
Proof. intros H. cbn [run]. rewrite H. reflexivity. Qed.

Lemma fired_cons (e : Event) (r : list Event) (s s1 : Conn) :
  step e s = Done s1 -> fired (e :: r) s = firedBy e s ++ fired r s1.
Proof. intros H. cbn [fired]. rewrite H. reflexivity. Qed.

Lemma fired_elapse_last (d : nat) (s : Conn) :
  fired [EvElapse d] s = fst (elapseTrace d s).
Proof.
  cbn [fired firedBy]. destruct (step (EvElapse d) s); apply app_nil_r.
Qed.

Lemma fired_app (evs evs' : list Event) (s s1 : Conn) :
  run evs s = Done s1 -> fired (evs ++ evs') s = fired evs s ++ fired evs' s1.
Proof.
  revert s. induction evs as [|e evs IH]; intros s.
  - intros [= ->]. reflexivity.
  - cbn [app run fired]. destruct (step e s) as [s0|]; [|discriminate].
    cbn [bind]. intros H. rewrite (IH s0 H), app_assoc. reflexivity.
Qed.

Lemma last_speaker_gone (u : string) :
  ({[ u ]} ∪ ∅ : gset string) ∖ {[ u ]} = ∅.
Proof. rewrite union_empty_r_L. apply difference_diag_L. Qed.

Section Ducking.

Variables (s : Conn) (c : VoiceConnection) (u : string).

Hypothesis Hc : connection s = Some c.
Hypothesis Hs : speaking s = ∅.
Hypothesis Hsto : stopSpeakingTimeout s = None.
Hypothesis Hf : onlyFades s.

(** The first speaker of a fresh activity period has started. *)
Lemma armed_view :
  exists s1,
    step (EvSpeakingStart u) s = Done s1 /\
    duckView s1 =
      (Some c, volume s, {[ u ]} ∪ ∅, Some (nextTimer s), None, [],
       [mkTimer (nextTimer s) (now s + 500) TDuck], now s, S (nextTimer s)).
Proof using Hc Hs Hsto Hf.
  exists (onSpeakingStart u s). split; [apply (step_speakingStart u s c Hc)|].
  rewrite (start_fresh_view u s Hs Hsto Hf), Hc. reflexivity.
Qed.

(** ... and has kept speaking for more than 500 ms. *)
Lemma ducked_view (d : nat) :
  500 < d ->
  exists s2,
    run [EvSpeakingStart u; EvElapse d] s = Done s2 /\
    fired [EvSpeakingStart u; EvElapse d] s = [TDuck] /\
    duckView s2 =
      (Some (ducked c (volume s)), volume s, {[ u ]} ∪ ∅, None, None, [], [],
       now s + d, S (nextTimer s)).
Proof using Hc Hs Hsto Hf.
  intros Hd. destruct armed_view as (s1 & E1 & V1).
  destruct (elapse_duck_view d s1 _ _ _ _ _ _ _ _ _ V1 ltac:(lia))
    as (s2 & E2 & V2).
  destruct (elapse_step d s1 s2 _ E2) as [S2 F2].
  exists s2. rewrite (run_cons _ _ _ _ E1), (fired_cons _ _ _ _ E1).
  rewrite (run_cons _ _ _ _ S2), (fired_cons _ _ _ _ S2), F2.
  repeat split. exact V2.
Qed.

(** ... or has stopped again within 500 ms. *)
Lemma blip_view (d1 : nat) :
  d1 < 500 ->
  exists s3,
    run [EvSpeakingStart u; EvElapse d1; EvSpeakingStop u] s = Done s3 /\
    fired [EvSpeakingStart u; EvElapse d1; EvSpeakingStop u] s = [] /\
    duckView s3 =
      (Some c, volume s, ∅, None, Some (S (nextTimer s)), [],
       [mkTimer (S (nextTimer s)) (now s + d1 + 1000) TRestore],
       now s + d1, S (S (nextTimer s))).
Proof using Hc Hs Hsto Hf.
  intros Hd. destruct armed_view as (s1 & E1 & V1).
  pose proof V1 as V1'. unfold duckView in V1'.
  injection V1' as C1 _ _ _ _ _ T1 N1 _.
  pose proof (elapse_before_due d1 s1 _ T1 ltac:(rewrite N1; cbn [due]; lia)) as E2.
  destruct (elapse_step d1 s1 _ _ E2) as [S2 F2].
  assert (V2 : duckView (set_now (now s1 + d1) s1) =
               (Some c, volume s, {[ u ]} ∪ ∅, Some (nextTimer s), None, [],
                [mkTimer (nextTimer s) (now s + 500) TDuck], now s + d1,
                S (nextTimer s))).
  { rewrite duckView_set_now. unfold duckView in V1.
    injection V1 as -> -> -> -> -> -> -> -> ->. reflexivity. }
  pose proof (last_speaker_gone u) as He.
  pose proof (stop_last_view u _ _ _ _ _ _ _ _ _ _ V2 He) as V3.
  cbn [List.filter tid] in V3. rewrite Nat.eqb_refl in V3. cbn [negb app] in V3.
  assert (S3 : step (EvSpeakingStop u) (set_now (now s1 + d1) s1) =
               Done (onSpeakingStop u (set_now (now s1 + d1) s1)))
    by (apply (step_speakingStop u _ c); exact C1).
  eexists.
  rewrite (run_cons _ _ _ _ E1), (fired_cons _ _ _ _ E1).
  rewrite (run_cons _ _ _ _ S2), (fired_cons _ _ _ _ S2), F2.
  rewrite (run_cons _ _ _ _ S3), (fired_cons _ _ _ _ S3).
  split; [reflexivity|]. split; [reflexivity|]. exact V3.
Qed.

(** After ducking, the last speaker has stopped. *)
Lemma silence_view (d : nat) :
  500 < d ->
  exists s3,
    run [EvSpeakingStart u; EvElapse d; EvSpeakingStop u] s = Done s3 /\
    fired [EvSpeakingStart u; EvElapse d; EvSpeakingStop u] s = [TDuck] /\
    duckView s3 =
      (Some (ducked c (volume s)), volume s, ∅, None, Some (S (nextTimer s)), [],
       [mkTimer (S (nextTimer s)) (now s + d + 1000) TRestore],
       now s + d, S (S (nextTimer s))).
Proof using Hc Hs Hsto Hf.
  intros Hd. destruct (ducked_view d Hd) as (s2 & R2 & F2 & V2).
  pose proof (last_speaker_gone u) as He.
  pose proof (stop_last_view u _ _ _ _ _ _ _ _ _ _ V2 He) as V3.
  cbn [app] in V3.
  assert (C2 : connection s2 = Some (ducked c (volume s)))
    by (unfold duckView in V2; congruence).
  pose proof (step_speakingStop u s2 _ C2) as S3.
  exists (onSpeakingStop u s2).
  change [EvSpeakingStart u; EvElapse d; EvSpeakingStop u]
    with ([EvSpeakingStart u; EvElapse d] ++ [EvSpeakingStop u]).
  rewrite run_app, R2. cbn [bind]. rewrite (run_cons _ _ _ _ S3).
  rewrite (fired_app _ _ _ _ R2), F2, (fired_cons _ _ _ _ S3).
  repeat split. exact V3.
Qed.

End Ducking.

(** C8 (as the code has it).  Starting with no one speaking and no
    ducking or restore timer pending: a speaker active for more than
    500 ms makes the transport volume 0.2 times the stored target; a
    speaker who stops again within 500 ms never causes ducking; once the
    last speaker has stopped, nothing is restored before 1000 ms of
    silence, after 1000 ms the restore timer fires and fades towards the
    stored target; a speaker starting within those 1000 ms cancels the
    restore for good. *)
Theorem ducking_debounce (s : Conn) (c : VoiceConnection) (u w : string)
    (d d1 d2 d3 : nat) :
  connection s = Some c -> speaking s = ∅ ->
  stopSpeakingTimeout s = None -> onlyFades s ->
  (500 < d ->
   exists s',
     run [EvSpeakingStart u; EvElapse d] s = Done s' /\
     fired [EvSpeakingStart u; EvElapse d] s = [TDuck] /\
     connection s' = Some (ducked c (volume s))) /\
  (d1 < 500 ->
   ~ In TDuck
       (fired [EvSpeakingStart u; EvElapse d1; EvSpeakingStop u; EvElapse d2] s) /\
   exists s',
     run [EvSpeakingStart u; EvElapse d1; EvSpeakingStop u] s = Done s' /\
     connection s' = Some c) /\
  (500 < d -> d2 < 1000 ->
   exists s',
     run [EvSpeakingStart u; EvElapse d; EvSpeakingStop u; EvElapse d2] s
       = Done s' /\
     fired [EvSpeakingStart u; EvElapse d; EvSpeakingStop u; EvElapse d2] s
       = [TDuck] /\
     connection s' = Some (ducked c (volume s))) /\
  (500 < d -> 1000 <= d2 ->
   exists l,
     fired [EvSpeakingStart u; EvElapse d; EvSpeakingStop u; EvElapse d2] s
       = TDuck :: TRestore :: l) /\
  (500 < d -> 2400 <= d2 ->
   exists s',
     run [EvSpeakingStart u; EvElapse d; EvSpeakingStop u; EvElapse d2] s
       = Done s' /\
     connection s' =
       Some (mkVoice (playing c) (paused c)
               (fadeSample (0.2 * volume s)
                  ((volume s - 0.2 * volume s) / (VOL_FADE_TIME * 10)) 14))) /\
  (500 < d -> d2 < 1000 ->
   exists s',
     run [EvSpeakingStart u; EvElapse d; EvSpeakingStop u; EvElapse d2;
          EvSpeakingStart w; EvElapse d3] s = Done s' /\
     fired [EvSpeakingStart u; EvElapse d; EvSpeakingStop u; EvElapse d2;
            EvSpeakingStart w; EvElapse d3] s = [TDuck] /\
     connection s' = Some (ducked c (volume s)) /\ timers s' = []).
Proof.
  intros Hc Hs Hsto Hf.
  split; [|split; [|split; [|split; [|split]]]].
  - intros Hd. destruct (ducked_view s c u Hc Hs Hsto Hf d Hd) as (s2 & R & F & V).
    exists s2. repeat split; try assumption. unfold duckView in V. congruence.
  - intros Hd. destruct (blip_view s c u Hc Hs Hsto Hf d1 Hd) as (s3 & R & F & V).
    split.
    + change [EvSpeakingStart u; EvElapse d1; EvSpeakingStop u; EvElapse d2]
        with ([EvSpeakingStart u; EvElapse d1; EvSpeakingStop u] ++ [EvElapse d2]).
      rewrite (fired_app _ _ _ _ R), F, fired_elapse_last. cbn [app].
      intros Hin. apply runTimers_origin in Hin.
      destruct Hin as [(t & Ht & Ha)|[v Hv]]; [|discriminate].
      assert (T3 : timers s3 = [mkTimer (S (nextTimer s)) (now s + d1 + 1000) TRestore])
        by (unfold duckView in V; congruence).
      rewrite T3 in Ht. destruct Ht as [<-|[]]. discriminate.
    + exists s3. split; [exact R|]. unfold duckView in V. congruence.
  - intros Hd Hd2.
    destruct (silence_view s c u Hc Hs Hsto Hf d Hd) as (s3 & R & F & V).
    pose proof V as V'. unfold duckView in V'.
    injection V' as C3 _ _ _ _ _ T3 N3 _.
    pose proof (elapse_before_due d2 s3 _ T3 ltac:(rewrite N3; cbn [due]; lia)) as E.
    destruct (elapse_step d2 s3 _ _ E) as [S4 F4].
    exists (set_now (now s3 + d2) s3).
    change [EvSpeakingStart u; EvElapse d; EvSpeakingStop u; EvElapse d2]
      with ([EvSpeakingStart u; EvElapse d; EvSpeakingStop u] ++ [EvElapse d2]).
    rewrite run_app, R, (fired_app _ _ _ _ R), F, fired_elapse_last, E.
    cbn [bind]. rewrite (run_cons _ _ _ _ S4).
    repeat split. exact C3.
  - intros Hd Hd2.
    destruct (silence_view s c u Hc Hs Hsto Hf d Hd) as (s3 & R & F & V).
    destruct (elapse_restore d2 s3 _ _ _ _ _ _ _ _ _ V ltac:(lia))
      as [(l & o & E) _].
    exists l.
    change [EvSpeakingStart u; EvElapse d; EvSpeakingStop u; EvElapse d2]
      with ([EvSpeakingStart u; EvElapse d; EvSpeakingStop u] ++ [EvElapse d2]).
    rewrite (fired_app _ _ _ _ R), F, fired_elapse_last, E. reflexivity.
  - intros Hd Hd2.
    destruct (silence_view s c u Hc Hs Hsto Hf d Hd) as (s3 & R & F & V).
    destruct (elapse_restore d2 s3 _ _ _ _ _ _ _ _ _ V ltac:(lia))
      as [_ Hfull].
    destruct (Hfull ltac:(lia)) as (l & s' & E & _ & _ & _ & C').
    destruct (elapse_step d2 s3 _ _ E) as [S4 _].
    exists s'.
    change [EvSpeakingStart u; EvElapse d; EvSpeakingStop u; EvElapse d2]
      with ([EvSpeakingStart u; EvElapse d; EvSpeakingStop u] ++ [EvElapse d2]).
    rewrite run_app, R. cbn [bind]. rewrite (run_cons _ _ _ _ S4).
    split; [reflexivity|]. exact C'.
  - intros Hd Hd2.
    destruct (silence_view s c u Hc Hs Hsto Hf d Hd) as (s3 & R & F & V).
    pose proof V as V'. unfold duckView in V'.
    injection V' as C3 _ _ _ _ _ T3 N3 _.
    pose proof (elapse_before_due d2 s3 _ T3 ltac:(rewrite N3; cbn [due]; lia)) as E.
    destruct (elapse_step d2 s3 _ _ E) as [S4 F4].
    set (s4 := set_now (now s3 + d2) s3) in *.
    assert (V4 : duckView s4 =
                 (Some (ducked c (volume s)), volume s, ∅, None,
                  Some (S (nextTimer s)), [],
                  [mkTimer (S (nextTimer s)) (now s + d + 1000) TRestore],
                  now s3 + d2, S (S (nextTimer s)))).
    { unfold s4. rewrite duckView_set_now. unfold duckView in V.
      injection V as -> -> -> -> -> -> -> _ ->. reflexivity. }
    pose proof (start_cancels_restore_view w s4 _ _ _ _ _ _ _ _ V4) as V5.
    cbn [List.filter tid] in V5. rewrite Nat.eqb_refl in V5. cbn [negb] in V5.
    pose proof (step_speakingStart w s4 _ C3) as S5.
    set (s5 := onSpeakingStart w s4) in *.
    assert (T5 : timers s5 = []) by (unfold duckView in V5; congruence).
    assert (C5 : connection s5 = Some (ducked c (volume s)))
      by (unfold duckView in V5; congruence).
    pose proof (elapse_no_timers d3 s5 T5) as E6.
    destruct (elapse_step d3 s5 _ _ E6) as [S6 F6].
    exists (set_now (now s5 + d3) s5).
    change [EvSpeakingStart u; EvElapse d; EvSpeakingStop u; EvElapse d2;
            EvSpeakingStart w; EvElapse d3]
      with ([EvSpeakingStart u; EvElapse d; EvSpeakingStop u] ++
            [EvElapse d2; EvSpeakingStart w; EvElapse d3]).
    rewrite run_app, R, (fired_app _ _ _ _ R), F. cbn [bind].
    rewrite (run_cons _ _ _ _ S4), (fired_cons _ _ _ _ S4), F4.
    rewrite (run_cons _ _ _ _ S5), (fired_cons _ _ _ _ S5).
    rewrite (run_cons _ _ _ _ S6), (fired_cons _ _ _ _ S6), F6.
    repeat split; assumption.
Qed.

Lemma ducking_debounce_witness :
  (500 < 600 ->
   exists s',
     run [EvSpeakingStart "u"; EvElapse 600] idleConn = Done s' /\
     fired [EvSpeakingStart "u"; EvElapse 600] idleConn = [TDuck] /\
     connection s' = Some (ducked idleVoice (volume idleConn))) /\
  (100 < 500 ->
   ~ In TDuck
       (fired [EvSpeakingStart "u"; EvElapse 100; EvSpeakingStop "u";
               EvElapse 200] idleConn) /\
   exists s',
     run [EvSpeakingStart "u"; EvElapse 100; EvSpeakingStop "u"] idleConn
       = Done s' /\
     connection s' = Some idleVoice) /\
  (500 < 600 -> 200 < 1000 ->
   exists s',
     run [EvSpeakingStart "u"; EvElapse 600; EvSpeakingStop "u"; EvElapse 200]
       idleConn = Done s' /\
     fired [EvSpeakingStart "u"; EvElapse 600; EvSpeakingStop "u"; EvElapse 200]
       idleConn = [TDuck] /\
     connection s' = Some (ducked idleVoice (volume idleConn))) /\
  (500 < 600 -> 1000 <= 200 ->
   exists l,
     fired [EvSpeakingStart "u"; EvElapse 600; EvSpeakingStop "u"; EvElapse 200]
       idleConn = TDuck :: TRestore :: l) /\
  (500 < 600 -> 2400 <= 200 ->
   exists s',
     run [EvSpeakingStart "u"; EvElapse 600; EvSpeakingStop "u"; EvElapse 200]
       idleConn = Done s' /\
     connection s' =
       Some (mkVoice (playing idleVoice) (paused idleVoice)
               (fadeSample (0.2 * volume idleConn)
                  ((volume idleConn - 0.2 * volume idleConn)
                   / (VOL_FADE_TIME * 10)) 14))) /\
  (500 < 600 -> 200 < 1000 ->
   exists s',
     run [EvSpeakingStart "u"; EvElapse 600; EvSpeakingStop "u"; EvElapse 200;
          EvSpeakingStart "w"; EvElapse 50] idleConn = Done s' /\
     fired [EvSpeakingStart "u"; EvElapse 600; EvSpeakingStop "u"; EvElapse 200;
            EvSpeakingStart "w"; EvElapse 50] idleConn = [TDuck] /\
     connection s' = Some (ducked idleVoice (volume idleConn)) /\
     timers s' = []).
Proof.
  apply (ducking_debounce idleConn idleVoice "u" "w" 600 100 200 50).
  - reflexivity.
  - reflexivity.
  - reflexivity.
  - intros t [].
Defined.

(** The restore after a full ducking period, on the example connection:
    1000 ms after the last speaker stopped the restore timer fires, and
    1400 ms later its fade has run. *)
Lemma restore_after_silence_example :
  exists s' c',
    run [EvSpeakingStart "u"; EvElapse 600; EvSpeakingStop "u"; EvElapse 2400]
      idleConn = Done s' /\
    length (fired [EvSpeakingStart "u"; EvElapse 600; EvSpeakingStop "u";
                   EvElapse 2400] idleConn) = 17 /\
    connection s' = Some c' /\ (tvolume c' == 71 # 75)%Q /\ timers s' = [].
Proof.
  do 2 eexists. split; [vm_compute; reflexivity|].
  split; [vm_compute; reflexivity|].
  split; [reflexivity|]. split; reflexivity.
Qed.

(** C8 (as stated) fails.  A speaker who starts, stops after 100 ms and
    starts again 100 ms later finds the restore timer pending: the handler
    only clears it and arms no ducking timer.  The speaker then stays
    active for 4000 ms, and the volume is never set to 0.2 times the
    target. *)
Lemma sustained_speaker_after_blip_not_ducked :
  exists s',
    run [EvSpeakingStart "u"; EvElapse 100; EvSpeakingStop "u"; EvElapse 100;
         EvSpeakingStart "u"; EvElapse 4000] idleConn = Done s' /\
    fired [EvSpeakingStart "u"; EvElapse 100; EvSpeakingStop "u"; EvElapse 100;
           EvSpeakingStart "u"; EvElapse 4000] idleConn = [] /\
    size (speaking s') = 1 /\ timers s' = [] /\
    connection s' = Some idleVoice /\ log s' = [] /\
    ~ (tvolume idleVoice == 0.2 * volume s')%Q.
Proof.
  eexists. split; [vm_compute; reflexivity|].
  split; [vm_compute; reflexivity|].
  split; [vm_compute; reflexivity|].
  split; [reflexivity|]. split; [reflexivity|]. split; [reflexivity|].
  vm_compute. discriminate.
Qed.

(** ** Rewinding *)




(** * Further properties *)

(** ** The cases of [playNext] *)

Lemma playNext_disconnected (s : Conn) (item : MusicQueueItem)
    (q : list (option MusicQueueItem)) :
  connection s = None -> queue s = Some item :: q ->
  playNext s = Threw TypeError (set_queue q s).
Proof.
  intros Hc Hq. unfold playNext, playNextF. rewrite Hq. cbn [shift].
  unfold withConnection. cbn [connection set_queue]. rewrite Hc. reflexivity.
Qed.

Lemma playNext_cases (s : Conn) : playNextCase s (playNext s).
Proof.
  destruct (queue s) as [|[item|] q] eqn:Hq.
  - unfold playNext. rewrite playNextF_empty by assumption.
    apply pn_empty; assumption.
  - destruct (connection s) as [c|] eqn:Hc.
    + destruct (playing c) eqn:Hp.
      * rewrite (playNext_playing s c item q) by assumption.
        apply (pn_playing s item q c); assumption.
      * unfold playNext. rewrite (playNextF_idle 1 s c item q) by assumption.
        apply (pn_idle s item q c); assumption.
    + rewrite (playNext_disconnected s item q) by assumption.
      apply (pn_disconnected s item q); assumption.
  - unfold playNext. rewrite (playNextF_null 1 s q) by assumption.
    apply pn_null; assumption.
Qed.

(** ** The two sides of the connection do not interfere *)

Ltac fields :=
  cbn [current queue voiceChannel connection nowPlayingMessage volume
       doPlayNext speaking doneCallback startSpeakingTimeout
       stopSpeakingTimeout fadeTimeouts now nextTimer timers synthPending
       streamPending log
       set_current set_queue set_voiceChannel set_connection set_ended
       set_nowPlayingMessage set_volume set_doPlayNext set_speaking
       set_doneCallback set_startSpeakingTimeout set_stopSpeakingTimeout
       set_fadeTimeouts set_now set_nextTimer set_timers set_synthPending
       set_streamPending emit
       synthesizeSpeech callDone unshiftCurrent state_of bind].

Lemma keeps_bind {A : Type} (v : Conn -> A) (o : outcome)
    (k : Conn -> outcome) (s : Conn) :
  v (state_of o) = v s -> (forall s1, v (state_of (k s1)) = v s1) ->
  v (state_of (bind o k)) = v s.
Proof.
  destruct o as [s1|e s1]; cbn [bind state_of]; intros H K;
    [rewrite K|]; exact H.
Qed.

Lemma volView_endCore (s : Conn) : volView (endCore s) = volView s.
Proof. unfold endCore. fields. destruct (doneCallback s); reflexivity. Qed.

Lemma volView_afterStop (c : VoiceConnection)
    (q : list (option MusicQueueItem)) (s : Conn) :
  volView (afterStop c q s) = volView s.
Proof. unfold afterStop. rewrite volView_endCore. reflexivity. Qed.

Lemma volView_synthesizeSpeech (item : MusicQueueItem) (s : Conn) :
  volView (synthesizeSpeech item s) = volView s.
Proof. reflexivity. Qed.

Lemma volView_updateNowPlayingMessage (s : Conn) :
  volView (updateNowPlayingMessage s) = volView s.
Proof. unfold updateNowPlayingMessage. destruct (nowPlayingMessage s); reflexivity. Qed.

Lemma volView_playNext (s : Conn) : volView (state_of (playNext s)) = volView s.
Proof.
  destruct (playNext_cases s); cbn [state_of];
    rewrite ?volView_synthesizeSpeech, ?volView_afterStop; reflexivity.
Qed.

Lemma volView_endHandler (s : Conn) : volView (state_of (endHandler s)) = volView s.
Proof.
  unfold endHandler, endHandlerWith. cbv zeta.
  destruct (doPlayNext (endCore s)); cbn [state_of];
    rewrite ?volView_playNext; apply volView_endCore.
Qed.

Lemma volView_stopPlaying (s : Conn) :
  volView (state_of (stopPlaying s)) = volView s.
Proof.
  unfold stopPlaying, stopPlayingWith, withConnection.
  destruct (connection s) as [c|]; [|reflexivity].
  destruct (playing c || negb (ended s)); [|reflexivity].
  fold endHandler. rewrite volView_endHandler. reflexivity.
Qed.

Lemma volView_streamEnd (s : Conn) : volView (state_of (streamEnd s)) = volView s.
Proof.
  unfold streamEnd. destruct (connection s) as [c|]; [|reflexivity].
  destruct (playing c); [|reflexivity].
  rewrite volView_endHandler. reflexivity.
Qed.

Lemma volView_connPlay (accepted : bool) (src : AudioSource) (s : Conn) :
  volView (state_of (connPlay accepted src s)) = volView s.
Proof.
  unfold connPlay, withConnection.
  destruct (connection s); [destruct accepted|]; reflexivity.
Qed.

Lemma volView_connect (ch : string) (joined : option VoiceConnection) (s : Conn) :
  volView (state_of (connect ch joined s)) = volView s.
Proof.
  unfold connect. destruct (connection s); [reflexivity|].
  destruct joined; reflexivity.
Qed.

Lemma volView_ensure (err : string) (joined : option VoiceConnection)
    (s0 s : Conn) :
  volView s0 = volView s ->
  volView (state_of
             match connection s0 with
             | Some _ => Done s0
             | None =>
                 match voiceChannel s0 with
                 | Some ch => connect ch joined s0
                 | None => Threw (JsError err) s0
                 end
             end) = volView s.
Proof.
  intros H. destruct (connection s0) eqn:Hc; [exact H|].
  destruct (voiceChannel s0) as [ch|]; [|exact H].
  rewrite volView_connect. exact H.
Qed.

Lemma volView_play (item : MusicQueueItem) (ch : option string)
    (joined : option VoiceConnection) (s : Conn) :
  volView (state_of (play item ch joined s)) = volView s.
Proof.
  unfold play. apply keeps_bind.
  - destruct ch as [ch|].
    + rewrite volView_connect. reflexivity.
    + apply volView_ensure. reflexivity.
  - intros s1. apply keeps_bind.
    + fields. destruct (current s1); cbn [state_of];
        rewrite ?volView_playNext; reflexivity.
    + intros s3. cbn [state_of]. apply volView_updateNowPlayingMessage.
Qed.

Lemma volView_rewind (joined : option VoiceConnection) (s : Conn) :
  volView (state_of (rewind joined s)) = volView s.
Proof.
  unfold rewind. apply keeps_bind.
  - apply volView_ensure. reflexivity.
  - intros s1. rewrite volView_playNext. reflexivity.
Qed.

Lemma volView_skip (s : Conn) : volView (state_of (skip s)) = volView s.
Proof.
  unfold skip. destruct (connection s); [apply volView_playNext|reflexivity].
Qed.

Lemma volView_seekBegin (s : Conn) : volView (state_of (seekBegin s)) = volView s.
Proof. unfold seekBegin. fields. destruct (current s); reflexivity. Qed.

Lemma volView_seekResume (cur : MusicQueueItem) (time : Q)
    (ok accepted : bool) (s : Conn) :
  volView (state_of (seekResume cur time ok accepted s)) = volView s.
Proof.
  unfold seekResume. destruct ok; [|reflexivity].
  apply keeps_bind; [apply volView_stopPlaying|].
  intros s1. apply keeps_bind; [apply volView_connPlay|].
  intros s2. reflexivity.
Qed.

Lemma volView_seek (time : Q) (ok : bool) (s : Conn) :
  volView (state_of (seek time ok s)) = volView s.
Proof.
  unfold seek. apply keeps_bind; [apply volView_seekBegin|].
  intros s1. destruct (current s); [apply volView_seekResume|reflexivity].
Qed.

Lemma volView_disconnect (s : Conn) :
  volView (state_of (disconnect s)) = volView s.
Proof.
  unfold disconnect. destruct (connection s); [|reflexivity].
  apply keeps_bind; [apply volView_stopPlaying|].
  intros s1. destruct (voiceChannel s1); reflexivity.
Qed.

Lemma volView_synthReply (next : MusicQueueItem) (ok accepted : bool)
    (s : Conn) :
  volView (state_of (synthReply next ok accepted s)) = volView s.
Proof.
  unfold synthReply. destruct ok.
  - rewrite volView_connPlay. reflexivity.
  - fields. destruct (doneCallback s); reflexivity.
Qed.

Lemma volView_streamReady (next : MusicQueueItem) (ok accepted : bool)
    (s : Conn) :
  volView (state_of (streamReady next ok accepted s)) = volView s.
Proof.
  unfold streamReady. destruct ok; [|reflexivity].
  apply keeps_bind; [rewrite volView_connPlay; reflexivity|].
  intros s1. cbn [state_of].
  transitivity (volView (updateNowPlayingMessage s1)); [reflexivity|].
  apply volView_updateNowPlayingMessage.
Qed.

Lemma volView_step (e : Event) (s : Conn) :
  volumeEvent e = false ->
  volView (state_of (step e s)) = volView s.
Proof.
  destruct e; cbn [volumeEvent step]; try discriminate; intros _.
  - apply volView_play.
  - unfold pause. destruct (connection s); reflexivity.
  - unfold resume. destruct (connection s); reflexivity.
  - apply volView_rewind.
  - apply volView_skip.
  - apply volView_seek.
  - apply volView_seekBegin.
  - apply volView_seekResume.
  - apply volView_disconnect.
  - apply volView_streamEnd.
  - destruct (removeFirst next (synthPending s)); [|reflexivity].
    rewrite volView_synthReply. reflexivity.
  - destruct (removeFirst next (streamPending s)); [|reflexivity].
    rewrite volView_streamReady. reflexivity.
  - destruct (removeFirst next (synthPending s)); [|reflexivity].
    rewrite volView_synthReply. reflexivity.
  - destruct (removeFirst next (streamPending s)); [|reflexivity].
    rewrite volView_streamReady. reflexivity.
  - apply volView_seekResume.
Qed.

Lemma playView_cancelFadeVolume (s : Conn) :
  playView (cancelFadeVolume s) = playView s.
Proof. rewrite cancelFadeVolume_eq. reflexivity. Qed.

Lemma playView_fadeVolumeTo (v : Q) (s : Conn) :
  playView (state_of (fadeVolumeTo v s)) = playView s.
Proof.
  destruct (connection s) as [c|] eqn:Hc.
  - rewrite (fadeVolumeTo_eq v s c Hc). reflexivity.
  - rewrite (fadeVolumeTo_disconnected v s Hc). cbn [state_of].
    apply playView_cancelFadeVolume.
Qed.

Lemma playView_connSetVolume (v : Q) (s : Conn) :
  playView (state_of (connSetVolume v s)) = playView s.
Proof.
  unfold connSetVolume, withConnection.
  destruct (connection s) as [c|] eqn:Hc; [|reflexivity].
  unfold playView. fields. rewrite Hc. reflexivity.
Qed.

Lemma playView_setVolume (v : Q) (s : Conn) :
  playView (state_of (setVolume v s)) = playView s.
Proof.
  unfold setVolume. destruct (connection s); [|reflexivity].
  rewrite playView_fadeVolumeTo. reflexivity.
Qed.

Lemma playView_onSpeakingStart (u : string) (s : Conn) :
  playView (onSpeakingStart u s) = playView s.
Proof.
  unfold onSpeakingStart. destruct (noneSpeaking s); [|reflexivity].
  destruct (stopSpeakingTimeout s); [reflexivity|].
  rewrite cancelFadeVolume_eq. reflexivity.
Qed.

Lemma playView_onSpeakingStop (u : string) (s : Conn) :
  playView (onSpeakingStop u s) = playView s.
Proof.
  unfold onSpeakingStop. destruct (noneSpeaking _); [|reflexivity].
  fields. destruct (startSpeakingTimeout s); reflexivity.
Qed.

Lemma playView_fire (a : TimerAct) (s : Conn) :
  playView (state_of (fire a s)) = playView s.
Proof.
  destruct a as [v| |]; cbn [fire].
  - apply playView_connSetVolume.
  - apply keeps_bind; [apply playView_connSetVolume|]. reflexivity.
  - rewrite playView_fadeVolumeTo. reflexivity.
Qed.

Lemma playView_runTimers (fuel target : nat) :
  forall s, playView (state_of (snd (runTimers fuel target s))) = playView s.
Proof.
  induction fuel as [|f IH]; intros s; cbn [runTimers];
    destruct (earliest (timers s)) as [t|]; try reflexivity;
    destruct (due t <=? target); try reflexivity.
  pose proof (playView_fire (act t)
                (clearTimeout (tid t) (set_now (Nat.max (now s) (due t)) s))) as F.
  destruct (fire (act t) _) as [s1|e s1]; cbn [state_of] in F.
  - specialize (IH s1). destruct (runTimers f target s1) as [l o].
    cbn [snd] in *. rewrite IH. exact F.
  - exact F.
Qed.

Lemma playView_step (e : Event) (s : Conn) :
  volumeEvent e = true -> playView (state_of (step e s)) = playView s.
Proof.
  destruct e; cbn [volumeEvent step]; try discriminate; intros _.
  - apply playView_setVolume.
  - cbn [state_of]. destruct (isConnected s); [apply playView_onSpeakingStart|reflexivity].
  - cbn [state_of]. destruct (isConnected s); [apply playView_onSpeakingStop|reflexivity].
  - apply playView_runTimers.
Qed.

Lemma view_run {A : Type} (v : Conn -> A) (P : Event -> bool) :
  (forall e s, P e = true -> v (state_of (step e s)) = v s) ->
  forall evs s, forallb P evs = true -> v (state_of (run evs s)) = v s.
Proof.
  intros Hstep evs. induction evs as [|e r IH]; intros s H; [reflexivity|].
  cbn [forallb] in H. apply andb_prop in H. destruct H as [He Hr].
  cbn [run]. apply keeps_bind.
  - apply Hstep, He.
  - intros s1. specialize (IH s1 Hr). exact IH.
Qed.

(** X1. Sequencing never touches the volume side: whatever a run of play,
    pause, resume, rewind, skip, seek, disconnect, stream-end, synthesis
    reply and stream arrival events does, and however it ends (also with
    an exception), the volume target, the set of speakers, the clock and
    every timer and timer handle are as before. *)
Theorem sequencing_keeps_volume_side (evs : list Event) (s : Conn) :
  forallb (fun e => negb (volumeEvent e)) evs = true ->
  volView (state_of (run evs s)) = volView s.
Proof.
  apply (view_run volView (fun e => negb (volumeEvent e))).
  intros e s0 H. apply volView_step. destruct (volumeEvent e); [discriminate|reflexivity].
Qed.

Lemma sequencing_keeps_volume_side_witness :
  volView (state_of (run [EvSkip; EvSynthReply itemB true; EvStreamEnd;
                          EvStreamReady itemB true; EvPause; EvDisconnect]
                       fadingConn)) = volView fadingConn.
Proof.
  apply (sequencing_keeps_volume_side
           [EvSkip; EvSynthReply itemB true; EvStreamEnd;
            EvStreamReady itemB true; EvPause; EvDisconnect] fadingConn).
  reflexivity.
Defined.

(** X2. The volume side never touches the sequencing: whatever a run of
    volume commands, speaking signals and timer firings does, and however
    it ends, the current item, the queue, the remembered channel, the
    stored announcement callback, the [doPlayNext] guard, the pending
    synthesis and stream requests and the transport's playing and paused
    flags are as before. *)
Theorem volume_side_keeps_sequencing (evs : list Event) (s : Conn) :
  forallb volumeEvent evs = true ->
  playView (state_of (run evs s)) = playView s.
Proof.
  apply (view_run playView volumeEvent). intros e s0 H.
  apply playView_step, H.
Qed.

Lemma volume_side_keeps_sequencing_witness :
  playView (state_of (run [EvSetVolume 2; EvSpeakingStart "u"; EvElapse 700;
                           EvSpeakingStop "u"; EvElapse 3000] playingConn))
  = playView playingConn.
Proof.
  apply (volume_side_keeps_sequencing
           [EvSetVolume 2; EvSpeakingStart "u"; EvElapse 700;
            EvSpeakingStop "u"; EvElapse 3000] playingConn).
  reflexivity.
Defined.

(** ** The queue *)

Lemma queue_playNext (s : Conn) : queue (state_of (playNext s)) = tl (queue s).
Proof.
  destruct (playNext_cases s) as [H|q H|item q H Hc|item q c H Hc Hp|item q c H Hc Hp];
    cbn [state_of].
  - rewrite H. reflexivity.
  - rewrite H. reflexivity.
  - rewrite H. reflexivity.
  - rewrite queue_synthesizeSpeech, H. reflexivity.
  - rewrite queue_synthesizeSpeech, H.
    destruct (afterStop_facts c q s) as [Hq _]. exact Hq.
Qed.

Lemma queue_connect (ch : string) (joined : option VoiceConnection) (s : Conn) :
  queue (state_of (connect ch joined s)) = queue s.
Proof. unfold connect. destruct (connection s), joined; reflexivity. Qed.

Lemma queue_ensure (joined : option VoiceConnection) (m : string) (s : Conn) :
  queue (state_of
           match connection s with
           | Some _ => Done s
           | None =>
               match voiceChannel s with
               | Some ch => connect ch joined s
               | None => Threw (JsError m) s
               end
           end) = queue s.
Proof.
  destruct (connection s) eqn:Hc; [reflexivity|].
  destruct (voiceChannel s); [|reflexivity].
  apply queue_connect.
Qed.

Lemma queue_rewind (joined : option VoiceConnection) (s : Conn) :
  queue (state_of (rewind joined s)) = queue s.
Proof.
  unfold rewind. apply keeps_bind.
  - apply queue_ensure.
  - intros s1. rewrite queue_playNext. reflexivity.
Qed.

Lemma tl_suffix {A : Type} (l : list A) : tl l `suffix_of` l.
Proof. destruct l as [|x l]; [reflexivity|]. exists [x]. reflexivity. Qed.

Lemma suffix_bind (o : outcome) (k : Conn -> outcome) (s : Conn) :
  queue (state_of o) `suffix_of` queue s ->
  (forall s1, queue (state_of (k s1)) `suffix_of` queue s1) ->
  queue (state_of (bind o k)) `suffix_of` queue s.
Proof.
  destruct o as [s1|e s1]; cbn [bind state_of]; intros H K; [|exact H].
  etrans; [apply K|exact H].
Qed.

Lemma suffix_endHandler (s : Conn) :
  queue (state_of (endHandler s)) `suffix_of` queue s.
Proof.
  unfold endHandler, endHandlerWith.
  destruct (doPlayNext (endCore s)); cbn [state_of].
  - rewrite queue_playNext, queue_endCore. apply tl_suffix.
  - rewrite queue_endCore. reflexivity.
Qed.

Lemma suffix_stopPlaying (s : Conn) :
  queue (state_of (stopPlaying s)) `suffix_of` queue s.
Proof.
  unfold stopPlaying, stopPlayingWith, withConnection.
  destruct (connection s) as [c|]; [|reflexivity].
  destruct (playing c || negb (ended s)); [|reflexivity].
  etrans; [apply (suffix_endHandler _)|]. reflexivity.
Qed.

Lemma queue_connPlay (accepted : bool) (src : AudioSource) (s : Conn) :
  queue (state_of (connPlay accepted src s)) = queue s.
Proof.
  unfold connPlay, withConnection.
  destruct (connection s); [destruct accepted|]; reflexivity.
Qed.

Lemma queue_updateNowPlayingMessage (s : Conn) :
  queue (updateNowPlayingMessage s) = queue s.
Proof. unfold updateNowPlayingMessage. destruct (nowPlayingMessage s); reflexivity. Qed.

Lemma suffix_seekResume (cur : MusicQueueItem) (time : Q)
    (ok accepted : bool) (s : Conn) :
  queue (state_of (seekResume cur time ok accepted s)) `suffix_of` queue s.
Proof.
  unfold seekResume. destruct ok; [|reflexivity].
  apply suffix_bind; [apply suffix_stopPlaying|]. intros s1.
  apply suffix_bind; [rewrite queue_connPlay; reflexivity|]. intros s2.
  reflexivity.
Qed.

Lemma queue_seekBegin (s : Conn) : queue (state_of (seekBegin s)) = queue s.
Proof. unfold seekBegin. fields. destruct (current s); reflexivity. Qed.

Lemma suffix_step (e : Event) (s : Conn) :
  plays [e] = [] -> queue (state_of (step e s)) `suffix_of` queue s.
Proof.
  destruct (volumeEvent e) eqn:Hv.
  - intros _. pose proof (playView_step e s Hv) as H.
    unfold playView in H.
    assert (Hq : queue (state_of (step e s)) = queue s) by congruence.
    rewrite Hq. reflexivity.
  - destruct e; cbn [plays step]; try discriminate; intros _; cbn [state_of].
    + unfold pause. destruct (connection s); reflexivity.
    + unfold resume. destruct (connection s); reflexivity.
    + rewrite queue_rewind. reflexivity.
    + unfold skip. destruct (connection s); [|reflexivity].
      rewrite queue_playNext. apply tl_suffix.
    + unfold seek. apply suffix_bind; [rewrite queue_seekBegin; reflexivity|].
      intros s1. destruct (current s); [apply suffix_seekResume|reflexivity].
    + rewrite queue_seekBegin. reflexivity.
    + apply suffix_seekResume.
    + unfold disconnect. destruct (connection s); [|reflexivity].
      apply suffix_bind; [apply suffix_stopPlaying|]. intros s1.
      destruct (voiceChannel s1); reflexivity.
    + unfold streamEnd. destruct (connection s) as [c|]; [|reflexivity].
      destruct (playing c); [|reflexivity].
      etrans; [apply suffix_endHandler|]. reflexivity.
    + destruct (removeFirst next (synthPending s)); [|reflexivity].
      unfold synthReply. destruct ok.
      * rewrite queue_connPlay. reflexivity.
      * fields. destruct (doneCallback s); reflexivity.
    + destruct (removeFirst next (streamPending s)); [|reflexivity].
      unfold streamReady. destruct ok; [|reflexivity].
      apply suffix_bind; [rewrite queue_connPlay; reflexivity|].
      intros s1. cbn [state_of set_doPlayNext queue].
      rewrite queue_updateNowPlayingMessage. reflexivity.
    + destruct (removeFirst next (synthPending s)); [|reflexivity].
      unfold synthReply. rewrite queue_connPlay. reflexivity.
    + destruct (removeFirst next (streamPending s)); [|reflexivity].
      unfold streamReady.
      apply suffix_bind; [rewrite queue_connPlay; reflexivity|].
      intros s1. cbn [state_of set_doPlayNext queue].
      rewrite queue_updateNowPlayingMessage. reflexivity.
    + apply suffix_seekResume.
Qed.

Lemma suffix_play (item : MusicQueueItem) (ch : option string)
    (joined : option VoiceConnection) (s s' : Conn) :
  play item ch joined s = Done s' ->
  queue s' `suffix_of` queue s ++ [Some item].
Proof.
  unfold play.
  set (pre := match ch with
              | Some c => connect c joined (emit ConsoleLog s)
              | None => _
              end).
  assert (Hpre : queue (state_of pre) = queue s).
  { subst pre. destruct ch as [c|].
    - rewrite queue_connect. reflexivity.
    - rewrite (queue_ensure joined _ (emit ConsoleLog s)). reflexivity. }
  destruct pre as [s1|e s1]; cbn [bind state_of] in *; [|discriminate].
  pose proof (queue_playNext (set_queue (queue s1 ++ [Some item]) s1)) as Hn.
  cbn [current set_queue] in *.
  destruct (current s1).
  - cbn [bind]. intros [= <-]. rewrite queue_updateNowPlayingMessage.
    cbn [queue set_queue]. rewrite Hpre. reflexivity.
  - destruct (playNext _) as [s3|e s3]; cbn [bind state_of] in *; [|discriminate].
    intros [= <-]. rewrite queue_updateNowPlayingMessage, Hn.
    cbn [queue set_queue]. rewrite Hpre. apply tl_suffix.
Qed.

(** X3. [rewind] never changes the queue: it puts the current item in
    front and takes the head off again at once, whether it had to join a
    channel first, failed to, had no current item, or had to stop a
    stream. *)
Theorem rewind_keeps_queue (joined : option VoiceConnection) (s : Conn) :
  getQueue (state_of (rewind joined s)) = getQueue s.
Proof. unfold getQueue. apply queue_rewind. Qed.

(** X4. First in, first out: after any run of events that ends without an
    exception, the queue is a tail of the queue at the start followed by
    the items handed to [play] during the run, in the order of the calls.
    Nothing is reordered, duplicated or put anywhere but at the end. *)
Theorem queue_is_fifo (evs : list Event) (s s' : Conn) :
  run evs s = Done s' ->
  exists taken,
    getQueue s ++ map Some (plays evs) = taken ++ getQueue s'.
Proof.
  unfold getQueue. revert s. induction evs as [|e r IH]; intros s H.
  - cbn [run] in H. injection H as <-. exists []. cbn [plays map].
    rewrite app_nil_r. reflexivity.
  - cbn [run] in H. destruct (step e s) as [s1|er s1] eqn:He;
      cbn [bind] in H; [|discriminate].
    destruct (IH s1 H) as [k2 Hk2].
    assert (Hs : exists k1, queue s ++ map Some (plays [e]) = k1 ++ queue s1
                 /\ plays (e :: r) = plays [e] ++ plays r).
    { destruct (plays [e]) as [|i l] eqn:Hp.
      - pose proof (suffix_step e s Hp) as [k1 Hk1]. rewrite He in Hk1.
        cbn [state_of] in Hk1. exists k1. split.
        + cbn [map]. rewrite app_nil_r. exact Hk1.
        + destruct e; cbn [plays] in *; try reflexivity. discriminate.
      - destruct e; cbn [plays] in Hp; try discriminate.
        injection Hp as <- <-. cbn [step] in He.
        pose proof (suffix_play _ _ _ _ _ He) as [k1 Hk1].
        exists k1. split; [exact Hk1|reflexivity]. }
    destruct Hs as [k1 [Hk1 Hpl]]. exists (k1 ++ k2).
    rewrite Hpl, map_app, app_assoc, Hk1, <- !app_assoc, Hk2. reflexivity.
Qed.

Lemma queue_is_fifo_witness :
  exists taken,
    getQueue idleConn ++
    map Some (plays [EvPlay itemA None None; EvSynthReply itemA true;
                     EvStreamEnd; EvStreamReady itemA true;
                     EvPlay itemB None None; EvPlay itemC None None;
                     EvRewind None; EvSkip])
    = taken ++
      getQueue (state_of
                  (run [EvPlay itemA None None; EvSynthReply itemA true;
                        EvStreamEnd; EvStreamReady itemA true;
                        EvPlay itemB None None; EvPlay itemC None None;
                        EvRewind None; EvSkip] idleConn)).
Proof.
  apply (queue_is_fifo
           [EvPlay itemA None None; EvSynthReply itemA true;
            EvStreamEnd; EvStreamReady itemA true;
            EvPlay itemB None None; EvPlay itemC None None;
            EvRewind None; EvSkip] idleConn).
  vm_compute. reflexivity.
Defined.

(** ** Skipping, and the end of a track *)

Ltac seq_fields :=
  cbn [current queue connection doneCallback doPlayNext synthPending
       streamPending synthesizeSpeech callDone
       set_current set_queue set_connection set_ended set_doneCallback set_doPlayNext
       set_synthPending set_streamPending emit].

Ltac seq_fields_in H :=
  cbn [current queue connection doneCallback doPlayNext synthPending
       streamPending synthesizeSpeech callDone
       set_current set_queue set_connection set_ended set_doneCallback set_doPlayNext
       set_synthPending set_streamPending emit] in H.

Lemma seqView_endCore (s : Conn) :
  seqView (endCore s) =
  (None, queue s, connection s, None, doPlayNext s, synthPending s,
   match doneCallback s with
   | Some next => streamPending s ++ [next]
   | None => streamPending s
   end).
Proof.
  unfold seqView.
  rewrite current_endCore, queue_endCore, connection_endCore,
    doneCallback_endCore, doPlayNext_endCore.
  unfold endCore. seq_fields. destruct (doneCallback s); reflexivity.
Qed.

Lemma seqView_synthesizeSpeech (item : MusicQueueItem) (s : Conn) :
  seqView (synthesizeSpeech item s) =
  (current s, queue s, connection s, doneCallback s, doPlayNext s,
   synthPending s ++ [item], streamPending s).
Proof. reflexivity. Qed.

Lemma skip_playing_view (item : MusicQueueItem) (s : Conn)
    (cu dc : option MusicQueueItem) (q : list (option MusicQueueItem))
    (c : VoiceConnection) (g : bool) (sy sr : list MusicQueueItem) :
  seqView s = (cu, Some item :: q, Some c, dc, g, sy, sr) -> playing c = true ->
  exists s1,
    skip s = Done s1 /\
    seqView s1 =
      (None, q, Some (stopped c), None, false, sy ++ [item],
       match dc with Some next => sr ++ [next] | None => sr end).
Proof.
  unfold seqView at 1. intros [= Hcur Hq Hc Hd Hg Hsy Hsr] Hp.
  unfold skip. rewrite Hc. rewrite (playNext_playing s c item q Hc Hp Hq).
  eexists; split; [reflexivity|].
  rewrite seqView_synthesizeSpeech. unfold afterStop.
  pose proof (seqView_endCore
                (emit TStopPlaying
                   (set_ended true
                      (set_connection (Some (stopped c))
                         (set_doPlayNext false (set_queue q s)))))) as V.
  unfold seqView in V. seq_fields. seq_fields_in V.
  injection V as V1 V2 V3 V4 V5 V6 V7.
  rewrite V1, V2, V3, V4, V5, V6, V7, Hsy, Hsr, Hd. reflexivity.
Qed.

Lemma streamEnd_guarded_view (s : Conn)
    (cu dc : option MusicQueueItem) (q : list (option MusicQueueItem))
    (c : VoiceConnection) (sy sr : list MusicQueueItem) :
  seqView s = (cu, q, Some c, dc, false, sy, sr) -> playing c = true ->
  exists s3,
    step EvStreamEnd s = Done s3 /\
    seqView s3 =
      (None, q, Some (stopped c), None, false, sy,
       match dc with Some next => sr ++ [next] | None => sr end).
Proof.
  unfold seqView at 1. intros [= Hcur Hq Hc Hd Hg Hsy Hsr] Hp.
  cbn [step]. unfold streamEnd. rewrite Hc, Hp.
  unfold endHandler. rewrite endHandlerWith_guarded by exact Hg.
  eexists; split; [reflexivity|].
  rewrite seqView_endCore. seq_fields. rewrite Hq, Hg, Hsy, Hsr, Hd.
  reflexivity.
Qed.

Lemma streamEnd_advancing_view (item : MusicQueueItem) (s : Conn)
    (cu dc : option MusicQueueItem) (q : list (option MusicQueueItem))
    (c : VoiceConnection) (sy sr : list MusicQueueItem) :
  seqView s = (cu, Some item :: q, Some c, dc, true, sy, sr) ->
  playing c = true ->
  exists s3,
    step EvStreamEnd s = Done s3 /\
    seqView s3 =
      (None, q, Some (stopped c), None, true, sy ++ [item],
       match dc with Some next => sr ++ [next] | None => sr end).
Proof.
  unfold seqView at 1. intros [= Hcur Hq Hc Hd Hg Hsy Hsr] Hp.
  cbn [step]. rewrite (streamEnd_guard_set s c item q Hc Hp Hg Hq).
  eexists; split; [reflexivity|].
  rewrite seqView_synthesizeSpeech.
  pose proof (seqView_endCore (set_ended true (set_connection (Some (stopped c)) s))) as V.
  unfold seqView in V. seq_fields. seq_fields_in V.
  injection V as V1 V2 V3 V4 V5 V6 V7.
  rewrite V1, V3, V4, V5, V6, V7, Hg, Hsy, Hsr, Hd. reflexivity.
Qed.




Ltac run_step E :=
  match goal with
  | |- run (?e :: ?r) ?s = _ =>
      change (run (e :: r) s) with (bind (step e s) (run r));
      rewrite E; cbn [bind]
  end.

(** X6. Skipping to the next item: while a stream plays and nothing is
    pending, [skip], the synthesis reply, the end of the announcement and
    the arrival of the stream make the head of the queue the current item,
    playing, with the guard set again; the rest of the queue is not
    touched. *)
Theorem skip_starts_next_item (s : Conn) (c : VoiceConnection)
    (cu : option MusicQueueItem) (item : MusicQueueItem)
    (q : list (option MusicQueueItem)) (g : bool) :
  seqView s = (cu, Some item :: q, Some c, None, g, [], []) ->
  playing c = true ->
  exists s' c',
    run [EvSkip; EvSynthReply item true; EvStreamEnd;
         EvStreamReady item true] s = Done s' /\
    seqView s' = (Some item, q, Some c', None, true, [], []) /\
    playing c' = true.
Proof.
  intros Hv Hp.
  destruct (skip_playing_view item s _ _ _ _ _ _ _ Hv Hp) as (s1 & E1 & V1).
  cbn [app] in V1.
  destruct (synthReply_ok_view item s1 _ _ _ _ _ _ _ V1) as (s2 & E2 & V2).
  destruct (streamEnd_guarded_view s2 _ _ _ _ _ _ V2 eq_refl) as (s3 & E3 & V3).
  cbn [app] in V3.
  destruct (streamReady_ok_view item s3 _ _ _ _ _ _ [] V3) as (s4 & E4 & V4).
  exists s4. eexists. split; [|split; [exact V4|reflexivity]].
  change (skip s = Done s1) with (step EvSkip s = Done s1) in E1.
  run_step E1. run_step E2. run_step E3. run_step E4. reflexivity.
Qed.

Lemma skip_starts_next_item_witness :
  exists s' c',
    run [EvSkip; EvSynthReply itemB true; EvStreamEnd;
         EvStreamReady itemB true] playingConn = Done s' /\
    seqView s' = (Some itemB, [Some itemC], Some c', None, true, [], []) /\
    playing c' = true.
Proof.
  apply (skip_starts_next_item playingConn (mkVoice true false 1)
           (Some itemA) itemB [Some itemC] true); reflexivity.
Defined.

(** X7. A track that ends by itself with two items waiting takes both of
    them off the queue before either has started: the guard is still set
    when the announcement of the first one ends, so the 'end' listener
    calls [playNext] again while the stream of the first one is still
    being fetched. *)
Theorem natural_end_takes_two_items (s : Conn) (c : VoiceConnection)
    (cu : option MusicQueueItem) (b c2 : MusicQueueItem)
    (q : list (option MusicQueueItem)) :
  seqView s = (cu, Some b :: Some c2 :: q, Some c, None, true, [], []) ->
  playing c = true ->
  exists s' c',
    run [EvStreamEnd; EvSynthReply b true; EvStreamEnd] s = Done s' /\
    seqView s' = (None, q, Some c', None, true, [c2], [b]) /\
    playing c' = false.
Proof.
  intros Hv Hp.
  destruct (streamEnd_advancing_view b s _ _ _ _ _ _ Hv Hp) as (s1 & E1 & V1).
  cbn [app] in V1.
  destruct (synthReply_ok_view b s1 _ _ _ _ _ _ _ V1) as (s2 & E2 & V2).
  destruct (streamEnd_advancing_view c2 s2 _ _ _ _ _ _ V2 eq_refl)
    as (s3 & E3 & V3).
  cbn [app] in V3.
  exists s3. eexists. split; [|split; [exact V3|reflexivity]].
  run_step E1. run_step E2. run_step E3. reflexivity.
Qed.

Lemma natural_end_takes_two_items_witness :
  exists s' c',
    run [EvStreamEnd; EvSynthReply itemB true; EvStreamEnd] playingConn
      = Done s' /\
    seqView s' = (None, [], Some c', None, true, [itemC], [itemB]) /\
    playing c' = false.
Proof.
  apply (natural_end_takes_two_items playingConn (mkVoice true false 1)
           (Some itemA) itemB itemC []); reflexivity.
Defined.



(** ** Channels: joining, failing to join, joining again *)

Lemma log_synthesizeSpeech (item : MusicQueueItem) (s : Conn) :
  log (synthesizeSpeech item s) = log s ++ [Synthesize (announcementText item)].
Proof. reflexivity. Qed.

Lemma voiceChannel_synthesizeSpeech (item : MusicQueueItem) (s : Conn) :
  voiceChannel (synthesizeSpeech item s) = voiceChannel s.
Proof. reflexivity. Qed.

Lemma log_afterStop (c : VoiceConnection) (q : list (option MusicQueueItem))
    (s : Conn) :
  log (afterStop c q s) = log s ++ [TStopPlaying; ConsoleLog].
Proof.
  unfold afterStop. rewrite log_endCore. cbn [log emit].
  rewrite <- app_assoc. reflexivity.
Qed.

Lemma voiceChannel_afterStop (c : VoiceConnection)
    (q : list (option MusicQueueItem)) (s : Conn) :
  voiceChannel (afterStop c q s) = voiceChannel s.
Proof. unfold afterStop. rewrite voiceChannel_endCore. reflexivity. Qed.

Lemma playNext_connected (s : Conn) (c : VoiceConnection) :
  connection s = Some c ->
  exists s' l,
    playNext s = Done s' /\ log s' = log s ++ l /\
    isConnected s' = true /\ voiceChannel s' = voiceChannel s.
Proof.
  intros Hc.
  destruct (playNext_cases s) as [H|q H|item q H Hn|item q c' H Hc' Hp|item q c' H Hc' Hp].
  - exists s, []. split; [reflexivity|]. split; [symmetry; apply app_nil_r|].
    split; [|reflexivity]. unfold isConnected. rewrite Hc. reflexivity.
  - exists (set_queue q s), []. split; [reflexivity|].
    split; [symmetry; apply app_nil_r|].
    split; [|reflexivity]. unfold isConnected. cbn [connection set_queue].
    rewrite Hc. reflexivity.
  - congruence.
  - exists (synthesizeSpeech item (set_queue q s)),
      [Synthesize (announcementText item)].
    split; [reflexivity|].
    split; [rewrite log_synthesizeSpeech; reflexivity|].
    split; [|reflexivity]. unfold isConnected.
    rewrite connection_synthesizeSpeech. cbn [connection set_queue].
    rewrite Hc. reflexivity.
  - exists (synthesizeSpeech item (afterStop c' q s)),
      [TStopPlaying; ConsoleLog; Synthesize (announcementText item)].
    split; [reflexivity|].
    split; [rewrite log_synthesizeSpeech, log_afterStop, <- app_assoc;
            reflexivity|].
    split.
    + unfold isConnected. rewrite connection_synthesizeSpeech.
      destruct (afterStop_facts c' q s) as (_ & _ & _ & Hca & _).
      rewrite Hca. reflexivity.
    + rewrite voiceChannel_synthesizeSpeech. apply voiceChannel_afterStop.
Qed.

Lemma play_rejoins (item : MusicQueueItem) (c : VoiceConnection) (ch : string)
    (s : Conn) :
  connection s = None -> voiceChannel s = Some ch ->
  exists s' l,
    play item None (Some c) s = Done s' /\
    log s' = log s ++ ConsoleLog :: TJoin ch :: l /\
    isConnected s' = true /\ voiceChannel s' = Some ch.
Proof.
  intros Hc Hv. unfold play. cbn [connection voiceChannel emit].
  rewrite Hc, Hv. unfold connect. cbn [connection set_voiceChannel emit].
  rewrite Hc. cbn [bind].
  set (s1 := set_ended false _).
  assert (H1 : log s1 = log s ++ [ConsoleLog] ++ [TJoin ch] /\
               connection s1 = Some c /\ voiceChannel s1 = Some ch).
  { subst s1. cbn [log connection voiceChannel set_connection set_ended emit
                   set_voiceChannel]. rewrite <- app_assoc. auto. }
  clearbody s1. destruct H1 as (Hl & Hc1 & Hv1).
  set (s2 := set_queue (queue s1 ++ [Some item]) s1).
  assert (H2 : log s2 = log s1 /\ connection s2 = Some c /\
               voiceChannel s2 = Some ch /\ current s2 = current s1).
  { subst s2. cbn [log connection voiceChannel current set_queue]. auto. }
  clearbody s2. destruct H2 as (Hl2 & Hc2 & Hv2 & Hcu2).
  assert (H3 : exists s3 l,
             match current s2 with
             | Some _ => Done s2
             | None => playNext s2
             end = Done s3 /\ log s3 = log s2 ++ l /\
             isConnected s3 = true /\ voiceChannel s3 = Some ch).
  { destruct (current s2).
    - exists s2, []. rewrite app_nil_r. unfold isConnected. rewrite Hc2. auto.
    - destruct (playNext_connected s2 c Hc2) as (s3 & l & E & L & C & V).
      exists s3, l. rewrite V. auto. }
  destruct H3 as (s3 & l & E3 & L3 & C3 & V3). rewrite E3. cbn [bind].
  unfold updateNowPlayingMessage. destruct (nowPlayingMessage s3).
  - exists (emit EditNowPlaying s3), (l ++ [EditNowPlaying]).
    unfold isConnected in *. cbn [log connection voiceChannel emit].
    rewrite L3, Hl2, Hl, <- !app_assoc. auto.
  - exists s3, l. rewrite L3, Hl2, Hl, <- !app_assoc. auto.
Qed.

(** X9. A call that names a channel stores it before it touches the
    transport.  So when [switchChannel] fails on a dropped connection, or
    [play] fails to join, the channel is remembered although nothing was
    joined and nothing enqueued, and the next [play] without a channel
    joins exactly that channel. *)
Theorem failed_attempt_remembers_channel (s : Conn) (ch : string)
    (item item' : MusicQueueItem) (c : VoiceConnection) :
  connection s = None ->
  exists s1 s2,
    switchChannel ch s = Threw TypeError s1 /\
    play item (Some ch) None s = Threw JoinFailed s2 /\
    (queue s1 = queue s /\ queue s2 = queue s) /\
    (forall s0, s0 = s1 \/ s0 = s2 ->
     exists s' l,
       play item' None (Some c) s0 = Done s' /\
       log s' = log s0 ++ ConsoleLog :: TJoin ch :: l /\
       isConnected s' = true).
Proof.
  intros Hc.
  exists (set_voiceChannel (Some ch) s).
  exists (emit (TJoin ch) (set_voiceChannel (Some ch) (emit ConsoleLog s))).
  split; [|split; [|split]].
  - unfold switchChannel, withConnection.
    cbn [connection set_voiceChannel]. rewrite Hc. reflexivity.
  - unfold play, connect. cbn [connection emit]. rewrite Hc. reflexivity.
  - split; reflexivity.
  - intros s0 [-> | ->].
    + destruct (play_rejoins item' c ch (set_voiceChannel (Some ch) s))
        as (s' & l & E & L & C & _); [exact Hc|reflexivity|].
      exists s', l. auto.
    + destruct (play_rejoins item' c ch
                  (emit (TJoin ch)
                     (set_voiceChannel (Some ch) (emit ConsoleLog s))))
        as (s' & l & E & L & C & _); [exact Hc|reflexivity|].
      exists s', l. auto.
Qed.

Lemma failed_attempt_remembers_channel_witness :
  exists s1 s2,
    switchChannel "C2" freshConn = Threw TypeError s1 /\
    play itemA (Some "C2") None freshConn = Threw JoinFailed s2 /\
    (queue s1 = queue freshConn /\ queue s2 = queue freshConn) /\
    (forall s0, s0 = s1 \/ s0 = s2 ->
     exists s' l,
       play itemB None (Some idleVoice) s0 = Done s' /\
       log s' = log s0 ++ ConsoleLog :: TJoin "C2" :: l /\
       isConnected s' = true).
Proof.
  apply (failed_attempt_remembers_channel freshConn "C2" itemA itemB idleVoice).
  reflexivity.
Defined.

Lemma disconnect_connected (s : Conn) (c : VoiceConnection) (ch : string) :
  connection s = Some c -> voiceChannel s = Some ch ->
  exists s1 l,
    disconnect s = Done s1 /\ connection s1 = None /\
    voiceChannel s1 = Some ch /\ log s1 = log s ++ l ++ [TLeave].
Proof.
  intros Hc Hv. unfold disconnect. rewrite Hc.
  assert (Hs : exists s0 l, stopPlaying s = Done s0 /\
                 voiceChannel s0 = Some ch /\ log s0 = log s ++ l).
  { unfold stopPlaying, stopPlayingWith, withConnection. rewrite Hc.
    destruct (playing c || negb (ended s)).
    - destruct (endHandler_after_stop
                  (emit TStopPlaying
                     (set_ended true (set_connection (Some (stopped c)) s)))
                  (stopped c) eq_refl eq_refl)
        as (s0 & l & E & L & _ & _ & V).
      exists s0, (TStopPlaying :: l). split; [exact E|].
      split; [rewrite V; exact Hv|].
      rewrite L. cbn [log emit set_connection set_ended]. rewrite <- app_assoc.
      reflexivity.
    - exists (emit TStopPlaying s), [TStopPlaying]. auto. }
  destruct Hs as (s0 & l & E & V & L). rewrite E. cbn [bind]. rewrite V.
  exists (set_connection None (emit TLeave s0)), l.
  cbn [connection voiceChannel log set_connection set_ended emit].
  rewrite L, <- app_assoc. auto.
Qed.

(** X10. Leaving and coming back: [disconnect] keeps the channel it
    leaves, so a [play] without a channel after it joins that channel
    again and the connection is live. *)
Theorem play_after_disconnect_rejoins (s : Conn) (c c' : VoiceConnection)
    (ch : string) (item : MusicQueueItem) :
  connection s = Some c -> voiceChannel s = Some ch ->
  exists s' l l',
    run [EvDisconnect; EvPlay item None (Some c')] s = Done s' /\
    log s' = log s ++ l ++ TLeave :: ConsoleLog :: TJoin ch :: l' /\
    isConnected s' = true /\ voiceChannel s' = Some ch.
Proof.
  intros Hc Hv.
  destruct (disconnect_connected s c ch Hc Hv) as (s1 & l & E1 & C1 & V1 & L1).
  destruct (play_rejoins item c' ch s1 C1 V1) as (s2 & l' & E2 & L2 & C2 & V2).
  exists s2, l, l'. split; [|split; [|split; assumption]].
  - change (disconnect s = Done s1) with (step EvDisconnect s = Done s1) in E1.
    change (play item None (Some c') s1)
      with (step (EvPlay item None (Some c')) s1) in E2.
    run_step E1. run_step E2. reflexivity.
  - rewrite L2, L1, <- !app_assoc. reflexivity.
Qed.

Lemma play_after_disconnect_rejoins_witness :
  exists s' l l',
    run [EvDisconnect; EvPlay itemC None (Some idleVoice)] playingConn
      = Done s' /\
    log s' = log playingConn ++ l ++ TLeave :: ConsoleLog :: TJoin "C1" :: l' /\
    isConnected s' = true /\ voiceChannel s' = Some "C1".
Proof.
  apply (play_after_disconnect_rejoins playingConn (mkVoice true false 1)
           idleVoice "C1" itemC); reflexivity.
Defined.

(** ** The registry of connections and the seek command *)

(** X11. The registry makes one connection per guild as long as calls of
    [getMusicConnection] do not overlap: after a call the guild has an
    entry, which is the connection returned; a second call returns that
    same connection without asking the cache again and leaves the registry
    as it is; a connection that was there is not replaced; other guilds
    are not touched.  But the call awaits the cache between its lookup and
    its set: when two calls for a guild without a connection overlap, each
    makes a connection of its own, the second set replaces the first, and
    the first caller holds a connection that later calls never return. *)
Theorem getMusicConnection_registers_once
    (cacheGet cacheGet' : string -> MusicQueue) (cache1 cache2 : MusicQueue)
    (g g' : string) (r : Registry) :
  (let conn := fst (getMusicConnection cacheGet g r) in
   let r1 := snd (getMusicConnection cacheGet g r) in
   musicConnections r1 !! g = Some conn /\
   getMusicConnection cacheGet' g r1 = (conn, r1) /\
   (g' <> g -> musicConnections r1 !! g' = musicConnections r !! g') /\
   (forall old, musicConnections r !! g = Some old -> conn = old /\ r1 = r)) /\
  (getMusicConnectionBegin g r = None ->
   let conn1 := fst (getMusicConnectionResume cache1 g r) in
   let r1 := snd (getMusicConnectionResume cache1 g r) in
   let conn2 := fst (getMusicConnectionResume cache2 g r1) in
   let r2 := snd (getMusicConnectionResume cache2 g r1) in
   conn1 <> conn2 /\
   conn1 < length (objects r2) /\ conn2 < length (objects r2) /\
   musicConnections r1 !! g = Some conn1 /\
   musicConnections r2 !! g = Some conn2 /\
   getMusicConnection cacheGet g r2 = (conn2, r2)).
Proof.
  split.
  - unfold getMusicConnection, getMusicConnectionBegin,
      getMusicConnectionResume.
    destruct (musicConnections r !! g) as [old|] eqn:E;
      cbn [fst snd musicConnections objects].
    + rewrite E. split; [reflexivity|]. split; [reflexivity|].
      split; [reflexivity|]. intros old' [= <-]. split; reflexivity.
    + split; [simplify_map_eq; reflexivity|].
      split; [simplify_map_eq; reflexivity|].
      split; [intros Hne; simplify_map_eq; reflexivity|].
      intros old [=].
  - intros _.
    unfold getMusicConnection, getMusicConnectionBegin,
      getMusicConnectionResume.
    cbn [fst snd musicConnections objects].
    rewrite !length_app. cbn [length].
    split; [lia|]. split; [lia|]. split; [lia|].
    split; [simplify_map_eq; reflexivity|].
    split; simplify_map_eq; reflexivity.
Qed.

Lemma getMusicConnection_registers_once_witness :
  (let conn := fst (getMusicConnection (fun _ => mkQueue None []) "G1"
                      (mkRegistry ∅ [])) in
   let r1 := snd (getMusicConnection (fun _ => mkQueue None []) "G1"
                    (mkRegistry ∅ [])) in
   musicConnections r1 !! "G1" = Some conn /\
   getMusicConnection (fun _ => mkQueue (Some itemA) []) "G1" r1 = (conn, r1) /\
   ("G2" <> "G1" ->
    musicConnections r1 !! "G2" = musicConnections (mkRegistry ∅ []) !! "G2") /\
   (forall old, musicConnections (mkRegistry ∅ []) !! "G1" = Some old ->
      conn = old /\ r1 = mkRegistry ∅ [])) /\
  (getMusicConnectionBegin "G1" (mkRegistry ∅ []) = None ->
   let conn1 := fst (getMusicConnectionResume (mkQueue None []) "G1"
                       (mkRegistry ∅ [])) in
   let r1 := snd (getMusicConnectionResume (mkQueue None []) "G1"
                    (mkRegistry ∅ [])) in
   let conn2 := fst (getMusicConnectionResume (mkQueue None []) "G1" r1) in
   let r2 := snd (getMusicConnectionResume (mkQueue None []) "G1" r1) in
   conn1 <> conn2 /\
   conn1 < length (objects r2) /\ conn2 < length (objects r2) /\
   musicConnections r1 !! "G1" = Some conn1 /\
   musicConnections r2 !! "G1" = Some conn2 /\
   getMusicConnection (fun _ => mkQueue None []) "G1" r2 = (conn2, r2)).
Proof.
  apply (getMusicConnection_registers_once (fun _ => mkQueue None [])
           (fun _ => mkQueue (Some itemA) []) (mkQueue None [])
           (mkQueue None []) "G1" "G2" (mkRegistry ∅ [])).
Defined.

(** X12. The seek command needs a current item: while the announcement of
    the first item plays, the transport is playing and there is no current
    item, so the command passes its [isPlaying] test and then fails with a
    TypeError, on [getNowPlaying().platform] or before that on the missing
    platforms of the service, whatever the platforms are. *)
Theorem seek_command_needs_current_item (first : MusicQueueItem) (s : Conn) :
  idle s ->
  exists s1,
    run [EvPlay first None None; EvSynthReply first true] s = Done s1 /\
    isPlaying s1 = true /\ getNowPlaying s1 = None /\
    forall platforms duration,
      seekAction platforms duration s1 = CommandThrew TypeError.
Proof.
  intros (c & Hp & Hv).
  destruct (play_idle_view first s c true [] None Hv Hp) as (s1 & E1 & V1).
  destruct (synthReply_ok_view first s1 _ _ _ _ _ _ _ V1) as (s2 & E2 & V2).
  unfold seqView in V2. injection V2 as Hcu _ Hc _ _ _ _.
  assert (Hpl : isPlaying s2 = true) by (unfold isPlaying; rewrite Hc; reflexivity).
  exists s2. split; [|split; [exact Hpl|split; [exact Hcu|]]].
  - change (play first None None s = Done s1)
      with (step (EvPlay first None None) s = Done s1) in E1.
    run_step E1. run_step E2. reflexivity.
  - intros platforms duration. unfold seekAction, getNowPlaying.
    rewrite Hpl, Hcu. destruct platforms; reflexivity.
Qed.

Lemma seek_command_needs_current_item_witness :
  exists s1,
    run [EvPlay itemA None None; EvSynthReply itemA true] idleConn = Done s1 /\
    isPlaying s1 = true /\ getNowPlaying s1 = None /\
    forall platforms duration,
      seekAction platforms duration s1 = CommandThrew TypeError.
Proof.
  apply (seek_command_needs_current_item itemA idleConn).
  exists idleVoice. split; reflexivity.
Defined.

(** X13. What the seek command reaches.  With the service as
    services/Music.ts defines it, which has no platforms, the command
    never calls [conn.seek]: it replies that nothing is playing, or it
    fails with a TypeError.  With a service that has platforms, whenever
    the command calls [conn.seek] a stream was playing, there was a
    current item and its platform supports seeking; [seek] is called with
    the duration given and does not fail on an empty current item: when
    the command returns, [seek] has cleared the guard, changed nothing
    else, and awaits the stream. *)
Theorem seek_command_reaches_seek_safely
    (platforms : option (MusicQueueItem -> option MusicPlatform))
    (duration : Q) (s : Conn) :
  (platforms = None ->
   seekAction platforms duration s =
     if isPlaying s then CommandThrew TypeError
     else Replied "music.notPlaying") /\
  (forall time o, seekAction platforms duration s = Called time o ->
   exists platformOf cur platform,
     platforms = Some platformOf /\ time = duration /\
     isPlaying s = true /\ getNowPlaying s = Some cur /\
     platformOf cur = Some platform /\ supportsSeek platform = true /\
     o = Done (set_doPlayNext false s)).
Proof.
  unfold seekAction, getNowPlaying. split.
  - intros ->. destruct (isPlaying s); reflexivity.
  - intros time o.
    destruct (isPlaying s) eqn:Hpl; cbn [negb]; [|discriminate].
    destruct platforms as [platformOf|]; [|discriminate].
    destruct (current s) as [cur|] eqn:Hcur; [|discriminate].
    destruct (platformOf cur) as [p|] eqn:Hpf; [|discriminate].
    destruct (supportsSeek p) eqn:Hss; cbn [negb]; [|discriminate].
    intros [= <- <-]. exists platformOf, cur, p.
    do 6 (split; [reflexivity || assumption|]).
    apply (seekBegin_current s cur Hcur).
Qed.

Lemma seek_command_reaches_seek_safely_witness :
  (Some (fun _ : MusicQueueItem => Some (mkPlatform true "youtube")) = None ->
   seekAction (Some (fun _ => Some (mkPlatform true "youtube"))) 30 playingConn =
     if isPlaying playingConn then CommandThrew TypeError
     else Replied "music.notPlaying") /\
  (forall time o,
     seekAction (Some (fun _ => Some (mkPlatform true "youtube"))) 30 playingConn
       = Called time o ->
   exists platformOf cur platform,
     Some (fun _ : MusicQueueItem => Some (mkPlatform true "youtube"))
       = Some platformOf /\ time = 30%Q /\
     isPlaying playingConn = true /\ getNowPlaying playingConn = Some cur /\
     platformOf cur = Some platform /\ supportsSeek platform = true /\
     o = Done (set_doPlayNext false playingConn)).
Proof.
  apply (seek_command_reaches_seek_safely
           (Some (fun _ => Some (mkPlatform true "youtube"))) 30 playingConn).
Defined.

(** ** Several speakers *)

Lemma set_speaking_same (s : Conn) : set_speaking (speaking s) s = s.
Proof. destruct s; reflexivity. Qed.

Lemma noneSpeaking_false (v : string) (s : Conn) :
  v ∈ speaking s -> noneSpeaking s = false.
Proof.
  intros Hv. unfold noneSpeaking. apply bool_decide_eq_false.
  intros Hs. apply size_empty_inv in Hs. set_solver.
Qed.

Lemma other_speaker_step (v : string) (e : Event) (s : Conn) :
  otherSpeaker v e = true -> v ∈ speaking s ->
  exists sp, step e s = Done (set_speaking sp s) /\ v ∈ sp.
Proof.
  intros He Hv. destruct e; cbn [otherSpeaker] in He; try discriminate;
    apply negb_true_iff, String.eqb_neq in He; cbn [step].
  - destruct (isConnected s).
    + exists ({[ userId ]} ∪ speaking s). split; [|set_solver].
      unfold onSpeakingStart. rewrite (noneSpeaking_false v s Hv). reflexivity.
    + exists (speaking s). rewrite set_speaking_same. auto.
  - destruct (isConnected s).
    + exists (speaking s ∖ {[ userId ]}). split; [|set_solver].
      unfold onSpeakingStop.
      rewrite (noneSpeaking_false v (set_speaking (speaking s ∖ {[ userId ]}) s));
        [reflexivity|]. cbn [speaking set_speaking]. set_solver.
    + exists (speaking s). rewrite set_speaking_same. auto.
Qed.

(** X14. Ducking follows the first and the last speaker only: while one
    identity keeps speaking, any run of speakingStart and speakingStop
    signals of other identities changes nothing but the set of speakers;
    no timer is set or cleared and the volume is left alone. *)
Theorem other_speakers_only_change_the_set (v : string) (evs : list Event)
    (s : Conn) :
  v ∈ speaking s -> forallb (otherSpeaker v) evs = true ->
  exists sp, run evs s = Done (set_speaking sp s) /\ v ∈ sp.
Proof.
  revert s. induction evs as [|e r IH]; intros s Hv H.
  - exists (speaking s). cbn [run]. rewrite set_speaking_same. auto.
  - cbn [forallb] in H. apply andb_prop in H. destruct H as [He Hr].
    destruct (other_speaker_step v e s He Hv) as (sp1 & E1 & Hv1).
    destruct (IH (set_speaking sp1 s) Hv1 Hr) as (sp2 & E2 & Hv2).
    exists sp2. split; [|exact Hv2].
    run_step E1. rewrite E2. reflexivity.
Qed.

Lemma other_speakers_only_change_the_set_witness :
  exists sp,
    run [EvSpeakingStart "u"; EvSpeakingStop "u"; EvSpeakingStop "w";
         EvSpeakingStart "w"]
      (onSpeakingStart "v" idleConn)
    = Done (set_speaking sp (onSpeakingStart "v" idleConn)) /\ "v" ∈ sp.
Proof.
  apply (other_speakers_only_change_the_set "v"
           [EvSpeakingStart "u"; EvSpeakingStop "u"; EvSpeakingStop "w";
            EvSpeakingStart "w"] (onSpeakingStart "v" idleConn)).
  - apply (bool_decide_unpack ("v" ∈ speaking (onSpeakingStart "v" idleConn))).
    vm_compute. reflexivity.
  - reflexivity.
Defined.

(** ** The shape of a fade *)

Lemma clampVol_le (x y : Q) : (x <= y)%Q -> (clampVol x <= clampVol y)%Q.
Proof.
  intros H. unfold clampVol.
  apply Q.max_le_compat_l, Q.min_le_compat_r, H.
Qed.

Lemma fade_point_le (a b : Q) (i j : nat) :
  i <= j -> (0 <= b)%Q ->
  (a + inject_Z (Z.of_nat i) * b <= a + inject_Z (Z.of_nat j) * b)%Q.
Proof.
  intros Hij Hb. apply Qplus_le_r, Qmult_le_compat_r; [|exact Hb].
  rewrite <- Zle_Qle. lia.
Qed.

Lemma fade_point_ge (a b : Q) (i j : nat) :
  i <= j -> (b <= 0)%Q ->
  (a + inject_Z (Z.of_nat j) * b <= a + inject_Z (Z.of_nat i) * b)%Q.
Proof.
  intros Hij Hb.
  assert (H : (a + inject_Z (Z.of_nat i) * - b
               <= a + inject_Z (Z.of_nat j) * - b)%Q)
    by (apply fade_point_le; [exact Hij|lra]).
  lra.
Qed.

Lemma fade_step_total (a v : Q) :
  (a + inject_Z (Z.of_nat fadeSteps) * ((v - a) / (VOL_FADE_TIME * 10)) == v)%Q.
Proof. unfold fadeSteps, VOL_FADE_TIME. cbn [Z.of_nat]. field. Qed.

Lemma fade_step_sign (a v : Q) :
  ((a <= v)%Q -> (0 <= (v - a) / (VOL_FADE_TIME * 10))%Q) /\
  ((v <= a)%Q -> ((v - a) / (VOL_FADE_TIME * 10) <= 0)%Q).
Proof.
  assert (E : ((v - a) / (VOL_FADE_TIME * 10) == (v - a) * (1 # 15))%Q)
    by (unfold VOL_FADE_TIME; field).
  split; intros H; rewrite E; lra.
Qed.

Lemma fade_point_zero (a b : Q) : (a + inject_Z (Z.of_nat 0) * b == a)%Q.
Proof. cbn [Z.of_nat]. ring. Qed.

Lemma fade_samples_up (a v : Q) (i j : nat) :
  i <= j -> j < fadeSteps -> (a <= v)%Q ->
  (clampVol a <= fadeSample a ((v - a) / (VOL_FADE_TIME * 10)) i)%Q /\
  (fadeSample a ((v - a) / (VOL_FADE_TIME * 10)) i
   <= fadeSample a ((v - a) / (VOL_FADE_TIME * 10)) j)%Q /\
  (fadeSample a ((v - a) / (VOL_FADE_TIME * 10)) j <= clampVol v)%Q.
Proof.
  intros Hij Hj Hav. destruct (fade_step_sign a v) as [Hb _].
  specialize (Hb Hav). unfold fadeSample.
  split; [|split].
  - rewrite <- (fade_point_zero a ((v - a) / (VOL_FADE_TIME * 10))) at 1.
    apply clampVol_le, fade_point_le; [lia|exact Hb].
  - apply clampVol_le, fade_point_le; [exact Hij|exact Hb].
  - rewrite <- (fade_step_total a v) at 2.
    apply clampVol_le, fade_point_le; [lia|exact Hb].
Qed.

Lemma fade_samples_down (a v : Q) (i j : nat) :
  i <= j -> j < fadeSteps -> (v <= a)%Q ->
  (clampVol v <= fadeSample a ((v - a) / (VOL_FADE_TIME * 10)) j)%Q /\
  (fadeSample a ((v - a) / (VOL_FADE_TIME * 10)) j
   <= fadeSample a ((v - a) / (VOL_FADE_TIME * 10)) i)%Q /\
  (fadeSample a ((v - a) / (VOL_FADE_TIME * 10)) i <= clampVol a)%Q.
Proof.
  intros Hij Hj Hav. destruct (fade_step_sign a v) as [_ Hb].
  specialize (Hb Hav). unfold fadeSample.
  split; [|split].
  - rewrite <- (fade_step_total a v) at 1.
    apply clampVol_le, fade_point_ge; [lia|exact Hb].
  - apply clampVol_le, fade_point_ge; [exact Hij|exact Hb].
  - rewrite <- (fade_point_zero a ((v - a) / (VOL_FADE_TIME * 10))) at 3.
    apply clampVol_le, fade_point_ge; [lia|exact Hb].
Qed.

Lemma setVolume_timers (v : Q) (s : Conn) (c : VoiceConnection) :
  connection s = Some c ->
  timers (state_of (setVolume v s)) =
    List.filter (fun t => negb (isFadeHandle (fadeTimeouts s) t)) (timers s) ++
    map (fadeTimer (tvolume c) ((v - tvolume c) / (VOL_FADE_TIME * 10))
           (nextTimer s) (now s)) (seq 0 fadeSteps).
Proof.
  intros Hc. unfold setVolume. rewrite Hc.
  rewrite (fadeVolumeTo_eq v (set_volume v s) c) by exact Hc. reflexivity.
Qed.

(** X15. A fade moves towards its target and never past it: the steps
    that [setVolume] schedules are pending afterwards, one every 100 ms,
    and their volumes go from the clamped transport volume monotonically
    towards the clamped target, staying between the two. *)
Theorem fade_moves_towards_target (s : Conn) (c : VoiceConnection) (v : Q)
    (i j : nat) :
  connection s = Some c -> i <= j -> j < fadeSteps ->
  let a := tvolume c in
  let step := ((v - a) / (VOL_FADE_TIME * 10))%Q in
  let ti := mkTimer (nextTimer s + i) (now s + i * 100) (TFade (fadeSample a step i)) in
  let tj := mkTimer (nextTimer s + j) (now s + j * 100) (TFade (fadeSample a step j)) in
  In ti (timers (state_of (setVolume v s))) /\
  In tj (timers (state_of (setVolume v s))) /\
  ((a <= v)%Q ->
   (clampVol a <= fadeSample a step i)%Q /\
   (fadeSample a step i <= fadeSample a step j)%Q /\
   (fadeSample a step j <= clampVol v)%Q) /\
  ((v <= a)%Q ->
   (clampVol v <= fadeSample a step j)%Q /\
   (fadeSample a step j <= fadeSample a step i)%Q /\
   (fadeSample a step i <= clampVol a)%Q).
Proof.
  intros Hc Hij Hj a step ti tj.
  rewrite (setVolume_timers v s c Hc).
  split; [|split; [|split]].
  - apply in_or_app. right.
    change ti with (fadeTimer a step (nextTimer s) (now s) i).
    apply in_map, in_seq. lia.
  - apply in_or_app. right.
    change tj with (fadeTimer a step (nextTimer s) (now s) j).
    apply in_map, in_seq. lia.
  - apply fade_samples_up; assumption.
  - apply fade_samples_down; assumption.
Qed.

Lemma fade_moves_towards_target_witness :
  let a := tvolume idleVoice in
  let step := ((2 - a) / (VOL_FADE_TIME * 10))%Q in
  let ti := mkTimer (nextTimer idleConn + 3) (now idleConn + 3 * 100)
              (TFade (fadeSample a step 3)) in
  let tj := mkTimer (nextTimer idleConn + 14) (now idleConn + 14 * 100)
              (TFade (fadeSample a step 14)) in
  In ti (timers (state_of (setVolume 2 idleConn))) /\
  In tj (timers (state_of (setVolume 2 idleConn))) /\
  ((a <= 2)%Q ->
   (clampVol a <= fadeSample a step 3)%Q /\
   (fadeSample a step 3 <= fadeSample a step 14)%Q /\
   (fadeSample a step 14 <= clampVol 2)%Q) /\
  ((2 <= a)%Q ->
   (clampVol 2 <= fadeSample a step 14)%Q /\
   (fadeSample a step 14 <= fadeSample a step 3)%Q /\
   (fadeSample a step 3 <= clampVol a)%Q).
Proof.
  apply (fade_moves_towards_target idleConn idleVoice 2 3 14);
    [reflexivity|lia|unfold fadeSteps; lia].
Defined.

(** ** One fade at a time *)

Lemma isFadeHandle_fadeTimer (a b : Q) (n t0 m i : nat) :
  i < m ->
  isFadeHandle (map (fun k => n + k) (seq 0 m)) (fadeTimer a b n t0 i) = true.
Proof.
  intros Hi. unfold isFadeHandle. apply existsb_exists.
  exists (n + i). split.
  - apply in_map_iff. exists i. split; [reflexivity|]. apply in_seq. lia.
  - cbn [tid fadeTimer]. apply Nat.eqb_refl.
Qed.

Lemma oneFade_setVolume (v : Q) (s : Conn) :
  oneFade s -> exists s1, setVolume v s = Done s1 /\ oneFade s1.
Proof.
  intros (Hc & Hf & Ha & Hl). unfold isConnected in Hc.
  destruct (connection s) as [c|] eqn:Ec; [|discriminate].
  unfold setVolume. rewrite Ec.
  rewrite (fadeVolumeTo_onlyFades v (set_volume v s) c Ec Hf).
  eexists; split; [reflexivity|].
  unfold oneFade, isConnected, onlyFades.
  cbn [connection timers fadeTimeouts nextTimer now set_fadeTimeouts
       set_nextTimer set_timers set_volume].
  rewrite Ec. split; [reflexivity|]. split; [|split].
  - intros t Ht. apply in_map_iff in Ht. destruct Ht as (i & <- & Hi).
    apply in_seq in Hi. apply isFadeHandle_fadeTimer. lia.
  - apply fade_timers_fadeAct.
  - rewrite length_map, length_seq. reflexivity.
Qed.

Lemma filter_length_lt (t : Timer) (l : list Timer) :
  In t l -> length (List.filter (fun u => negb (tid u =? tid t)) l) < length l.
Proof.
  induction l as [|u l IH]; intros Hin; [destruct Hin|].
  cbn [List.filter length]. destruct (tid u =? tid t) eqn:E; cbn [negb length].
  - pose proof (List.filter_length_le (fun u => negb (tid u =? tid t)) l). lia.
  - destruct Hin as [->|Hin]; [rewrite Nat.eqb_refl in E; discriminate|].
    specialize (IH Hin). lia.
Qed.

Lemma oneFade_runTimers (fuel target : nat) :
  forall s, oneFade s -> length (timers s) <= fuel ->
    exists s1, snd (runTimers fuel target s) = Done s1 /\ oneFade s1.
Proof.
  induction fuel as [|f IH]; intros s J Hl.
  - destruct (timers s) as [|t r] eqn:Et; [|cbn [length] in Hl; lia].
    cbn [runTimers]. rewrite Et. cbn [earliest snd].
    eexists; split; [reflexivity|]. exact J.
  - cbn [runTimers]. destruct (earliest (timers s)) as [t|] eqn:Ee;
      [|cbn [snd]; eexists; split; [reflexivity|exact J]].
    destruct (due t <=? target);
      [|cbn [snd]; eexists; split; [reflexivity|exact J]].
    pose proof (earliest_In _ _ Ee) as Hin.
    destruct J as (Hc & Hf & Ha & Hn). unfold isConnected in Hc.
    destruct (connection s) as [c|] eqn:Ec; [|discriminate].
    pose proof (proj1 (List.Forall_forall _ _) Ha t Hin) as [x Hx].
    rewrite Hx. cbn [fire]. unfold connSetVolume, withConnection.
    cbn [connection clearTimeout set_timers set_now]. rewrite Ec.
    set (s1 := emit _ _).
    assert (J1 : oneFade s1 /\ length (timers s1) <= f).
    { subst s1. unfold oneFade, isConnected, onlyFades.
      unfold clearTimeout.
      cbn [connection timers fadeTimeouts emit set_connection set_ended set_timers
           set_now].
      pose proof (filter_length_lt t (timers s) Hin) as Hlt.
      split; [|lia]. split; [reflexivity|]. split; [|split].
      - intros u Hu. apply List.filter_In in Hu. apply Hf, Hu.
      - apply List.Forall_forall. intros u Hu. apply List.filter_In in Hu.
        apply (proj1 (List.Forall_forall _ _) Ha), Hu.
      - lia. }
    clearbody s1. destruct J1 as [J1 L1].
    destruct (IH s1 J1 L1) as (s2 & E2 & J2).
    destruct (runTimers f target s1) as [l o]. cbn [snd] in *.
    exists s2. split; assumption.
Qed.

Lemma timerWeight_ge_length (ts : list Timer) : length ts <= timerWeight ts.
Proof.
  induction ts as [|t r IH]; [reflexivity|].
  unfold timerWeight, list_sum in *. cbn [map fold_right length].
  destruct (act t); cbn [actWeight]; unfold fadeSteps; lia.
Qed.

Lemma oneFade_step (e : Event) (s : Conn) :
  volumeCommandOrTime e = true -> oneFade s ->
  exists s1, step e s = Done s1 /\ oneFade s1.
Proof.
  destruct e; cbn [volumeCommandOrTime step]; try discriminate; intros _ J.
  - apply oneFade_setVolume, J.
  - unfold elapse, elapseTrace.
    apply oneFade_runTimers; [exact J|apply timerWeight_ge_length].
Qed.

(** X16. One fade at a time: on a live connection with no timers pending,
    whatever volume commands arrive and however much time passes between
    them, nothing fails, every pending timer is a fade step whose handle
    the connection holds, and at most fifteen are pending: each command
    cancels what is left of the fade before it. *)
Theorem volume_commands_keep_one_fade (evs : list Event) (s : Conn) :
  isConnected s = true -> timers s = [] ->
  forallb volumeCommandOrTime evs = true ->
  exists s',
    run evs s = Done s' /\ isConnected s' = true /\
    length (timers s') <= fadeSteps /\
    forall t, In t (timers s') ->
      fadeAct t /\ In (tid t) (fadeTimeouts s').
Proof.
  intros Hc Ht Hev.
  assert (J : oneFade s).
  { unfold oneFade, onlyFades. rewrite Ht. split; [exact Hc|].
    split; [intros t []|]. split; [constructor|cbn [length]; lia]. }
  clear Hc Ht. revert s J. induction evs as [|e r IH]; intros s J.
  - exists s. split; [reflexivity|]. destruct J as (Hc & Hf & Ha & Hl).
    split; [exact Hc|]. split; [exact Hl|]. intros t Hin. split.
    + apply (proj1 (List.Forall_forall _ _) Ha), Hin.
    + specialize (Hf t Hin). unfold isFadeHandle in Hf.
      apply existsb_exists in Hf. destruct Hf as (id & Hid & E).
      apply Nat.eqb_eq in E. rewrite E. exact Hid.
  - cbn [forallb] in Hev. apply andb_prop in Hev. destruct Hev as [He Hr].
    destruct (oneFade_step e s He J) as (s1 & E1 & J1).
    destruct (IH Hr s1 J1) as (s' & E' & R).
    exists s'. split; [|exact R]. run_step E1. exact E'.
Qed.

Lemma volume_commands_keep_one_fade_witness :
  exists s',
    run [EvSetVolume 2; EvElapse 350; EvSetVolume (1 # 2); EvElapse 5000;
         EvSetVolume 0] idleConn = Done s' /\
    isConnected s' = true /\
    length (timers s') <= fadeSteps /\
    forall t, In t (timers s') ->
      fadeAct t /\ In (tid t) (fadeTimeouts s').
Proof.
  apply (volume_commands_keep_one_fade
           [EvSetVolume 2; EvElapse 350; EvSetVolume (1 # 2); EvElapse 5000;
            EvSetVolume 0] idleConn); reflexivity.
Defined.

(** ** The ducking timer *)

Lemma NoDup_map_filter (f : Timer -> bool) (ts : list Timer) :
  List.NoDup (map tid ts) -> List.NoDup (map tid (List.filter f ts)).
Proof.
  induction ts as [|t r IH]; intros H; [exact H|].
  cbn [map] in H. apply List.NoDup_cons_iff in H. destruct H as [Hn Hr].
  cbn [List.filter]. destruct (f t); [|apply IH, Hr].
  cbn [map]. apply List.NoDup_cons; [|apply IH, Hr].
  intros Hin. apply Hn. apply in_map_iff in Hin.
  destruct Hin as (u & Eu & Hu). apply List.filter_In in Hu.
  apply in_map_iff. exists u. split; [exact Eu|apply Hu].
Qed.

Lemma Forall_filter_keep {A : Type} (P : A -> Prop) (f : A -> bool)
    (l : list A) :
  Forall P l -> Forall P (List.filter f l).
Proof.
  intros H. apply List.Forall_forall. intros x Hx.
  apply List.filter_In in Hx. apply (proj1 (List.Forall_forall _ _) H), Hx.
Qed.

Lemma duckOK_filter (f : Timer -> bool) (ts : list Timer) (nt : nat)
    (sst : option nat) (sp : gset string) :
  duckOK ts nt sst sp -> duckOK (List.filter f ts) nt sst sp.
Proof.
  intros (H1 & H2 & H3). split; [|split].
  - apply NoDup_map_filter, H1.
  - apply Forall_filter_keep, H2.
  - apply Forall_filter_keep, H3.
Qed.

Lemma noDucks_filter (f : Timer -> bool) (ts : list Timer) :
  noDucks ts -> noDucks (List.filter f ts).
Proof. apply Forall_filter_keep. Qed.

Lemma duckOK_noDucks (ts : list Timer) (nt : nat) (sst sst' : option nat)
    (sp sp' : gset string) :
  duckOK ts nt sst sp -> noDucks ts -> duckOK ts nt sst' sp'.
Proof.
  intros (H1 & H2 & _) Hn. split; [exact H1|]. split; [exact H2|].
  apply List.Forall_forall. intros t Ht Hd.
  destruct (proj1 (List.Forall_forall _ _) Hn t Ht Hd).
Qed.

Lemma duckOK_quiet (ts : list Timer) (nt : nat) (sst : option nat)
    (sp : gset string) :
  duckOK ts nt sst sp -> sst = None \/ sp = ∅ -> noDucks ts.
Proof.
  intros (_ & _ & H3) Hq. apply List.Forall_forall. intros t Ht Hd.
  destruct (proj1 (List.Forall_forall _ _) H3 t Ht Hd) as [Hs Hp].
  destruct Hq as [Hq|Hq]; congruence.
Qed.

Lemma duckOK_cleared (ts : list Timer) (nt id : nat) (sp : gset string) :
  duckOK ts nt (Some id) sp ->
  noDucks (List.filter (fun t => negb (tid t =? id)) ts).
Proof.
  intros (_ & _ & H3). apply List.Forall_forall. intros t Ht Hd.
  apply List.filter_In in Ht. destruct Ht as [Ht Hne].
  destruct (proj1 (List.Forall_forall _ _) H3 t Ht Hd) as [Hs _].
  injection Hs as ->. rewrite Nat.eqb_refl in Hne. discriminate.
Qed.

Lemma duckOK_speaking (ts : list Timer) (nt : nat) (sst : option nat)
    (sp sp' : gset string) :
  duckOK ts nt sst sp -> sp' <> ∅ -> duckOK ts nt sst sp'.
Proof.
  intros (H1 & H2 & H3) Hsp. split; [exact H1|]. split; [exact H2|].
  apply List.Forall_forall. intros t Ht Hd.
  destruct (proj1 (List.Forall_forall _ _) H3 t Ht Hd) as [Hs _].
  split; assumption.
Qed.

Lemma duckOK_snoc (ts : list Timer) (nt : nat) (sst : option nat)
    (sp : gset string) (t : Timer) :
  duckOK ts nt sst sp -> tid t = nt ->
  (act t = TDuck -> sst = Some nt /\ sp <> ∅) ->
  duckOK (ts ++ [t]) (S nt) sst sp.
Proof.
  intros (H1 & H2 & H3) Ht Hd. split; [|split].
  - rewrite map_app. cbn [map].
    apply List.NoDup_app; [exact H1|repeat constructor; intros []|].
    intros x Hx [<-|[]]. apply in_map_iff in Hx.
    destruct Hx as (u & Eu & Hu).
    pose proof (proj1 (List.Forall_forall _ _) H2 u Hu) as Hlt.
      cbv beta in Hlt. lia.
  - apply List.Forall_app. split.
    + apply List.Forall_forall. intros u Hu.
      pose proof (proj1 (List.Forall_forall _ _) H2 u Hu) as Hlt.
      cbv beta in Hlt. lia.
    + apply List.Forall_cons; [lia|constructor].
  - apply List.Forall_app. split; [exact H3|].
    apply List.Forall_cons; [rewrite Ht; exact Hd|constructor].
Qed.

Lemma duckOK_fades (a b : Q) (t0 m : nat) (ts : list Timer) (nt : nat)
    (sst : option nat) (sp : gset string) :
  duckOK ts nt sst sp ->
  duckOK (ts ++ map (fadeTimer a b nt t0) (seq 0 m)) (nt + m) sst sp.
Proof.
  intros H. induction m as [|m IH].
  - cbn [seq map]. rewrite app_nil_r, Nat.add_0_r. exact H.
  - rewrite seq_S, map_app, app_assoc, Nat.add_succ_r. cbn [map].
    apply duckOK_snoc; [exact IH|reflexivity|discriminate].
Qed.

Lemma one_duck (ts : list Timer) (nt : nat) (sst : option nat)
    (sp : gset string) :
  duckOK ts nt sst sp -> length (List.filter isDuck ts) <= 1.
Proof.
  intros (H1 & _ & H3). induction ts as [|t r IH]; [cbn; lia|].
  cbn [map] in H1. apply List.NoDup_cons_iff in H1. destruct H1 as [Hn Hr].
  apply List.Forall_cons_iff in H3. destruct H3 as [Ht H3].
  specialize (IH Hr H3). cbn [List.filter].
  destruct (isDuck t) eqn:Ed; [|exact IH].
  assert (Hd : act t = TDuck) by (unfold isDuck in Ed; destruct (act t); congruence).
  destruct (Ht Hd) as [Hs _].
  assert (E : List.filter isDuck r = []).
  { pose proof (proj1 (List.Forall_forall _ _) H3) as H3'.
    destruct (List.filter isDuck r) as [|u l] eqn:Ef; [reflexivity|].
    assert (Hu : In u (List.filter isDuck r)) by (rewrite Ef; left; reflexivity).
    apply List.filter_In in Hu. destruct Hu as [Hu Hud].
    assert (Hda : act u = TDuck)
      by (unfold isDuck in Hud; destruct (act u); congruence).
    destruct (H3' u Hu Hda) as [Hs' _].
    exfalso. apply Hn. apply in_map_iff. exists u. split; [congruence|exact Hu]. }
  rewrite E. cbn [length]. lia.
Qed.

Lemma noneSpeaking_inv (s : Conn) : noneSpeaking s = true -> speaking s = ∅.
Proof.
  unfold noneSpeaking. intros H. apply bool_decide_eq_true in H.
  apply size_empty_inv in H. apply leibniz_equiv. exact H.
Qed.

Lemma noneSpeaking_false_inv (s : Conn) :
  noneSpeaking s = false -> speaking s <> ∅.
Proof. intros H E. rewrite (noneSpeaking_true s E) in H. discriminate. Qed.

Lemma duckInv_volView (s s' : Conn) :
  volView s' = volView s -> duckInv s -> duckInv s'.
Proof.
  unfold volView, duckInv. intros [= _ Hsp Hst _ _ Ht Hn _] H.
  rewrite Hsp, Hst, Ht, Hn. exact H.
Qed.

Lemma duckInv_fadeVolumeTo (v : Q) (s : Conn) :
  duckInv s -> duckInv (state_of (fadeVolumeTo v s)).
Proof.
  intros H. destruct (connection s) as [c|] eqn:Hc.
  - rewrite (fadeVolumeTo_eq v s c Hc). unfold duckInv. fields.
    apply duckOK_fades, duckOK_filter, H.
  - rewrite (fadeVolumeTo_disconnected v s Hc), cancelFadeVolume_eq.
    unfold duckInv. fields. apply duckOK_filter, H.
Qed.

Lemma duckInv_setVolume (v : Q) (s : Conn) :
  duckInv s -> duckInv (state_of (setVolume v s)).
Proof.
  intros H. unfold setVolume. destruct (connection s); [|exact H].
  apply duckInv_fadeVolumeTo. exact H.
Qed.

Lemma duckInv_onSpeakingStart (u : string) (s : Conn) :
  duckInv s -> duckInv (onSpeakingStart u s).
Proof.
  intros H. unfold onSpeakingStart. destruct (noneSpeaking s) eqn:En.
  - pose proof (noneSpeaking_inv s En) as Hs.
    pose proof (duckOK_quiet _ _ _ _ H (or_intror Hs)) as Hq.
    destruct (stopSpeakingTimeout s) as [id|].
    + unfold duckInv, clearTimeout. fields.
      apply (duckOK_speaking _ _ _ (speaking s)); [apply duckOK_filter, H|set_solver].
    + rewrite cancelFadeVolume_eq. unfold setTimeout. fields.
      unfold duckInv. fields.
      apply duckOK_snoc; [|reflexivity|intros _; split; [reflexivity|set_solver]].
      apply (duckOK_noDucks _ _ (startSpeakingTimeout s) _ (speaking s)).
      * apply duckOK_filter, H.
      * apply noDucks_filter, Hq.
  - unfold duckInv. fields. apply (duckOK_speaking _ _ _ (speaking s)); [exact H|set_solver].
Qed.

Lemma duckInv_onSpeakingStop (u : string) (s : Conn) :
  duckInv s -> duckInv (onSpeakingStop u s).
Proof.
  intros H. unfold onSpeakingStop. cbv zeta.
  destruct (noneSpeaking (set_speaking (speaking s ∖ {[ u ]}) s)) eqn:En.
  - fields. destruct (startSpeakingTimeout s) as [id|] eqn:Es.
    + unfold setTimeout, clearTimeout. fields. unfold duckInv. fields.
      apply duckOK_snoc; [|reflexivity|discriminate].
      apply (duckOK_noDucks _ _ (startSpeakingTimeout s) _ (speaking s)).
      * apply duckOK_filter, H.
      * unfold duckInv in H. rewrite Es in H. apply (duckOK_cleared _ _ _ _ H).
    + unfold setTimeout. fields. unfold duckInv. fields. rewrite Es.
      apply duckOK_snoc; [|reflexivity|discriminate].
      apply (duckOK_noDucks _ _ (startSpeakingTimeout s) _ (speaking s));
        [exact H|].
      apply (duckOK_quiet _ _ _ _ H). left. exact Es.
  - apply noneSpeaking_false_inv in En. unfold duckInv. fields.
    apply (duckOK_speaking _ _ _ (speaking s)); [exact H|exact En].
Qed.

Lemma duckInv_fire (t : Timer) (n : nat) (s : Conn) :
  In t (timers s) -> duckInv s ->
  duckInv (state_of (fire (act t) (clearTimeout (tid t) (set_now n s)))).
Proof.
  intros Hin H.
  assert (H0 : duckInv (clearTimeout (tid t) (set_now n s))).
  { unfold duckInv, clearTimeout. fields. apply duckOK_filter, H. }
  destruct (act t) as [x| |] eqn:Ea; cbn [fire].
  - unfold connSetVolume, withConnection.
    destruct (connection _); [|exact H0].
    cbn [state_of]. unfold duckInv, clearTimeout. fields.
    apply duckOK_filter, H.
  - destruct H as (H1 & H2 & H3).
    destruct (proj1 (List.Forall_forall _ _) H3 t Hin Ea) as [Hs _].
    unfold connSetVolume, withConnection.
    destruct (connection _); [|exact H0].
    cbn [bind state_of]. unfold duckInv, clearTimeout. fields.
    apply (duckOK_noDucks _ _ (startSpeakingTimeout s) _ (speaking s)).
    + apply duckOK_filter. split; [exact H1|split; [exact H2|exact H3]].
    + apply (duckOK_cleared _ (nextTimer s) _ (speaking s)).
      rewrite <- Hs. split; [exact H1|split; [exact H2|exact H3]].
  - apply duckInv_fadeVolumeTo. unfold duckInv, clearTimeout. fields.
    apply duckOK_filter, H.
Qed.

Lemma duckInv_runTimers (fuel target : nat) :
  forall s, duckInv s -> duckInv (state_of (snd (runTimers fuel target s))).
Proof.
  induction fuel as [|f IH]; intros s H; cbn [runTimers];
    destruct (earliest (timers s)) as [t|] eqn:Ee; try exact H;
    destruct (due t <=? target); try exact H.
  pose proof (duckInv_fire t (Nat.max (now s) (due t)) s
                (earliest_In _ _ Ee) H) as F.
  destruct (fire (act t) _) as [s1|e s1]; cbn [state_of] in F.
  - specialize (IH s1 F). destruct (runTimers f target s1) as [l o].
    exact IH.
  - exact F.
Qed.

Lemma duckInv_step (e : Event) (s : Conn) :
  duckInv s -> duckInv (state_of (step e s)).
Proof.
  intros H. destruct (volumeEvent e) eqn:Hv.
  - destruct e; cbn [volumeEvent] in Hv; try discriminate; cbn [step].
    + apply duckInv_setVolume, H.
    + cbn [state_of]. destruct (isConnected s);
        [apply duckInv_onSpeakingStart, H|exact H].
    + cbn [state_of]. destruct (isConnected s);
        [apply duckInv_onSpeakingStop, H|exact H].
    + apply duckInv_runTimers, H.
  - apply (duckInv_volView s); [apply volView_step, Hv|exact H].
Qed.

(** X17. At most one ducking timer: on a connection that starts without
    timers, after any run of events whatsoever (and however it ends) at
    most one ducking timer is pending; it is the one whose handle
    [startSpeakingTimeout] holds, and somebody is speaking then. *)
Theorem at_most_one_ducking_timer (evs : list Event) (s : Conn) :
  timers s = [] ->
  length (List.filter isDuck (timers (state_of (run evs s)))) <= 1 /\
  forall t, In t (timers (state_of (run evs s))) -> act t = TDuck ->
    startSpeakingTimeout (state_of (run evs s)) = Some (tid t) /\
    speaking (state_of (run evs s)) <> ∅.
Proof.
  intros Ht.
  assert (H : duckInv (state_of (run evs s))).
  { assert (H0 : duckInv s).
    { unfold duckInv. rewrite Ht. split; [constructor|split; constructor]. }
    clear Ht. revert s H0. induction evs as [|e r IH]; intros s H0; [exact H0|].
    cbn [run]. pose proof (duckInv_step e s H0) as H1.
    destruct (step e s) as [s1|er s1]; cbn [bind state_of] in *;
      [apply IH, H1|exact H1]. }
  split; [apply (one_duck _ _ _ _ H)|].
  destruct H as (_ & _ & H3). intros t Hin.
  apply (proj1 (List.Forall_forall _ _) H3 t Hin).
Qed.

Lemma at_most_one_ducking_timer_witness :
  length (List.filter isDuck
            (timers (state_of
                       (run [EvSpeakingStart "u"; EvSpeakingStart "w";
                             EvSetVolume 2; EvSpeakingStop "u";
                             EvSpeakingStop "w"; EvSpeakingStart "u";
                             EvElapse 100; EvSpeakingStop "u"; EvElapse 1200;
                             EvSpeakingStart "w"] idleConn)))) <= 1 /\
  forall t,
    In t (timers (state_of
                    (run [EvSpeakingStart "u"; EvSpeakingStart "w";
                          EvSetVolume 2; EvSpeakingStop "u";
                          EvSpeakingStop "w"; EvSpeakingStart "u";
                          EvElapse 100; EvSpeakingStop "u"; EvElapse 1200;
                          EvSpeakingStart "w"] idleConn))) ->
    act t = TDuck ->
    startSpeakingTimeout
      (state_of
         (run [EvSpeakingStart "u"; EvSpeakingStart "w";
               EvSetVolume 2; EvSpeakingStop "u";
               EvSpeakingStop "w"; EvSpeakingStart "u";
               EvElapse 100; EvSpeakingStop "u"; EvElapse 1200;
               EvSpeakingStart "w"] idleConn)) = Some (tid t) /\
    speaking
      (state_of
         (run [EvSpeakingStart "u"; EvSpeakingStart "w";
               EvSetVolume 2; EvSpeakingStop "u";
               EvSpeakingStop "w"; EvSpeakingStart "u";
               EvElapse 100; EvSpeakingStop "u"; EvElapse 1200;
               EvSpeakingStart "w"] idleConn)) <> ∅.
Proof.
  apply (at_most_one_ducking_timer
           [EvSpeakingStart "u"; EvSpeakingStart "w";
            EvSetVolume 2; EvSpeakingStop "u";
            EvSpeakingStop "w"; EvSpeakingStart "u";
            EvElapse 100; EvSpeakingStop "u"; EvElapse 1200;
            EvSpeakingStart "w"] idleConn).
  reflexivity.
Defined.

(** ** After a disconnect *)

(** X18. Timers outlive the connection: once the connection has been
    dropped, the first timer that comes due fails with a TypeError on the
    missing transport, whatever it was set for (a fade step, ducking, or
    the restore after silence), and no timer after it runs in that turn. *)
Theorem timer_after_disconnect_fails (s : Conn) (t : Timer) (d : nat) :
  connection s = None -> earliest (timers s) = Some t ->
  due t <= now s + d ->
  exists s',
    elapse d s = Threw TypeError s' /\
    fst (elapseTrace d s) = [act t] /\
    connection s' = None.
Proof.
  intros Hc Ee Hd. unfold elapse, elapseTrace.
  pose proof (earliest_In _ _ Ee) as Hin.
  pose proof (timerWeight_ge_length (timers s)) as Hw.
  destruct (timerWeight (timers s)) as [|f].
  - destruct (timers s); [destruct Hin|cbn [length] in Hw; lia].
  - cbn [runTimers]. rewrite Ee.
    apply Nat.leb_le in Hd. rewrite Hd.
    set (s0 := clearTimeout (tid t) (set_now (Nat.max (now s) (due t)) s)).
    assert (Hc0 : connection s0 = None) by exact Hc.
    clearbody s0. destruct (act t) as [x| |]; cbn [fire].
    + unfold connSetVolume, withConnection. rewrite Hc0. cbn [fst snd].
      exists s0. auto.
    + unfold connSetVolume, withConnection. rewrite Hc0. cbn [bind fst snd].
      exists s0. auto.
    + rewrite fadeVolumeTo_disconnected by exact Hc0. cbn [fst snd].
      eexists. split; [reflexivity|]. split; [reflexivity|].
      rewrite cancelFadeVolume_eq. exact Hc0.
Qed.

Lemma timer_after_disconnect_fails_witness :
  exists s',
    elapse 100 (state_of (disconnect fadingConn)) = Threw TypeError s' /\
    fst (elapseTrace 100 (state_of (disconnect fadingConn)))
      = [act (fadeTimer 1 ((2 - 1) / (VOL_FADE_TIME * 10)) 0 0 0)] /\
    connection s' = None.
Proof.
  apply (timer_after_disconnect_fails (state_of (disconnect fadingConn))
           (fadeTimer 1 ((2 - 1) / (VOL_FADE_TIME * 10)) 0 0 0) 100).
  - reflexivity.
  - vm_compute. reflexivity.
  - vm_compute. lia.
Defined.

Lemma advances_updateNowPlayingMessage (s : Conn) :
  advances (updateNowPlayingMessage s) = advances s.
Proof.
  unfold updateNowPlayingMessage. destruct (nowPlayingMessage s); [|reflexivity].
  rewrite advances_emit. cbn [isSynthesize]. lia.
Qed.

Lemma play_joining_with_current (item cur : MusicQueueItem) (ch : string)
    (c : VoiceConnection) (s : Conn) :
  connection s = None -> current s = Some cur ->
  exists s2,
    play item (Some ch) (Some c) s = Done s2 /\
    current s2 = Some cur /\ queue s2 = queue s ++ [Some item] /\
    advances s2 = advances s /\ connection s2 = Some c.
Proof.
  intros Hc Hcur. unfold play, connect. cbn [connection emit]. rewrite Hc.
  cbn [bind current set_queue set_connection set_ended set_voiceChannel emit].
  rewrite Hcur. cbn [bind]. eexists. split; [reflexivity|].
  set (s2 := set_queue _ _).
  assert (H2 : current s2 = Some cur /\ queue s2 = queue s ++ [Some item] /\
               advances s2 = advances s /\ connection s2 = Some c).
  { subst s2. split; [exact Hcur|]. split; [reflexivity|].
    split; [|reflexivity].
    unfold advances.
    cbn [log set_queue set_connection set_ended emit set_voiceChannel].
    rewrite <- !app_assoc, List.filter_app. cbn [List.filter app isSynthesize].
    rewrite app_nil_r. reflexivity. }
  clearbody s2. destruct H2 as (H21 & H22 & H23 & H24).
  rewrite advances_updateNowPlayingMessage.
  unfold updateNowPlayingMessage.
  destruct (nowPlayingMessage s2); cbn [current queue connection emit]; auto.
Qed.

Lemma late_stream_state (next : MusicQueueItem) (rest : list MusicQueueItem)
    (s : Conn) :
  current (set_current (Some next) (set_streamPending rest s)) = Some next /\
  connection (set_current (Some next) (set_streamPending rest s))
    = connection s /\
  queue (set_current (Some next) (set_streamPending rest s)) = queue s /\
  advances (set_current (Some next) (set_streamPending rest s)) = advances s.
Proof. split; [reflexivity|]. split; [reflexivity|]. split; reflexivity. Qed.

(** X19. A stream that arrives after a disconnect stalls the queue: the
    callback makes its item the current one and then fails on the missing
    transport, so nothing plays; a later [play] joins and enqueues, but
    because there is a current item it does not start anything. *)
Theorem late_stream_after_disconnect_stalls (s : Conn)
    (next item : MusicQueueItem) (rest : list MusicQueueItem) (ch : string)
    (c : VoiceConnection) :
  connection s = None -> removeFirst next (streamPending s) = Some rest ->
  exists s1 s2,
    step (EvStreamReady next true) s = Threw TypeError s1 /\
    getNowPlaying s1 = Some next /\ isPlaying s1 = false /\
    play item (Some ch) (Some c) s1 = Done s2 /\
    getNowPlaying s2 = Some next /\ getQueue s2 = getQueue s ++ [Some item] /\
    advances s2 = advances s /\ connection s2 = Some c.
Proof.
  intros Hc Hr.
  destruct (late_stream_state next rest s) as (L1 & L2 & L3 & L4).
  rewrite Hc in L2.
  assert (E1 : step (EvStreamReady next true) s =
               Threw TypeError
                 (set_current (Some next) (set_streamPending rest s))).
  { cbn [step]. rewrite Hr. unfold streamReady, connPlay, withConnection.
    rewrite L2. reflexivity. }
  generalize dependent (set_current (Some next) (set_streamPending rest s)).
  intros s1 L1 L2 L3 L4 E1.
  destruct (play_joining_with_current item next ch c s1 L2 L1)
    as (s2 & E2 & C2 & Q2 & A2 & K2).
  exists s1, s2. unfold getNowPlaying, getQueue, isPlaying.
  rewrite L2, Q2, L3, A2, L4.
  split; [exact E1|]. split; [exact L1|]. split; [reflexivity|].
  split; [exact E2|]. split; [exact C2|]. split; [reflexivity|].
  split; [reflexivity|exact K2].
Qed.

Lemma late_stream_after_disconnect_stalls_witness :
  exists s1 s2,
    step (EvStreamReady itemA true)
      (state_of (run [EvPlay itemA None None; EvSynthReply itemA true;
                      EvStreamEnd; EvDisconnect] idleConn))
      = Threw TypeError s1 /\
    getNowPlaying s1 = Some itemA /\ isPlaying s1 = false /\
    play itemB (Some "C1") (Some idleVoice) s1 = Done s2 /\
    getNowPlaying s2 = Some itemA /\
    getQueue s2 =
      getQueue (state_of (run [EvPlay itemA None None; EvSynthReply itemA true;
                               EvStreamEnd; EvDisconnect] idleConn))
      ++ [Some itemB] /\
    advances s2 =
      advances (state_of (run [EvPlay itemA None None; EvSynthReply itemA true;
                               EvStreamEnd; EvDisconnect] idleConn)) /\
    connection s2 = Some idleVoice.
Proof.
  apply (late_stream_after_disconnect_stalls
           (state_of (run [EvPlay itemA None None; EvSynthReply itemA true;
                           EvStreamEnd; EvDisconnect] idleConn))
           itemA itemB [] "C1" idleVoice); reflexivity.
Defined.

(** ** Handlers finish *)

Lemma withinBounds_bind (o : outcome) (k : Conn -> outcome) :
  withinBounds o -> (forall s1, withinBounds (k s1)) ->
  withinBounds (bind o k).
Proof.
  intros Ho Hk. destruct o as [s1|e s1]; cbn [bind]; [apply Hk|exact Ho].
Qed.

Lemma withinBounds_Done (s : Conn) : withinBounds (Done s).
Proof. intros s'. discriminate. Qed.

Lemma withinBounds_playNext (s : Conn) : withinBounds (playNext s).
Proof. intros s'. apply playNext_within_depth. Qed.

Lemma withinBounds_endHandler (s : Conn) : withinBounds (endHandler s).
Proof.
  unfold endHandler, endHandlerWith. destruct (doPlayNext (endCore s));
    [apply withinBounds_playNext|apply withinBounds_Done].
Qed.

Lemma withinBounds_stopPlaying (s : Conn) : withinBounds (stopPlaying s).
Proof.
  unfold stopPlaying, stopPlayingWith, withConnection.
  destruct (connection s) as [c|]; [|intros s'; discriminate].
  destruct (playing c || negb (ended s));
    [apply withinBounds_endHandler|apply withinBounds_Done].
Qed.

Lemma withinBounds_connPlay (accepted : bool) (src : AudioSource) (s : Conn) :
  withinBounds (connPlay accepted src s).
Proof.
  unfold connPlay, withConnection.
  destruct (connection s); [destruct accepted|]; intros s'; discriminate.
Qed.

Lemma withinBounds_connect (ch : string) (joined : option VoiceConnection)
    (s : Conn) :
  withinBounds (connect ch joined s).
Proof.
  unfold connect. destruct (connection s), joined; intros s'; discriminate.
Qed.

Lemma withinBounds_ensure (joined : option VoiceConnection) (m : string)
    (s : Conn) :
  withinBounds
    match connection s with
    | Some _ => Done s
    | None =>
        match voiceChannel s with
        | Some ch => connect ch joined s
        | None => Threw (JsError m) s
        end
    end.
Proof.
  destruct (connection s) eqn:Hc; [apply withinBounds_Done|].
  destruct (voiceChannel s); [apply withinBounds_connect|].
  intros s'. discriminate.
Qed.

Lemma withinBounds_seekResume (cur : MusicQueueItem) (time : Q)
    (ok accepted : bool) (s : Conn) :
  withinBounds (seekResume cur time ok accepted s).
Proof.
  unfold seekResume. destruct ok; [|intros s'; discriminate].
  apply withinBounds_bind; [apply withinBounds_stopPlaying|]. intros s1.
  apply withinBounds_bind; [apply withinBounds_connPlay|]. intros s2.
  apply withinBounds_Done.
Qed.

Lemma withinBounds_seekBegin (s : Conn) : withinBounds (seekBegin s).
Proof.
  unfold seekBegin. destruct (current (set_doPlayNext false s));
    intros s'; discriminate.
Qed.

Lemma withinBounds_step (e : Event) (s : Conn) : withinBounds (step e s).
Proof.
  destruct e; cbn [step]; try apply withinBounds_Done.
  - unfold play. apply withinBounds_bind.
    + destruct voiceChannel'; [apply withinBounds_connect|].
      apply (withinBounds_ensure joined _ (emit ConsoleLog s)).
    + intros s1. apply withinBounds_bind; [|intros s3; apply withinBounds_Done].
      destruct (current _); [apply withinBounds_Done|apply withinBounds_playNext].
  - unfold rewind. apply withinBounds_bind; [apply withinBounds_ensure|].
    intros s1. apply withinBounds_playNext.
  - unfold skip. destruct (connection s);
      [apply withinBounds_playNext|apply withinBounds_Done].
  - unfold setVolume. destruct (connection s); [|apply withinBounds_Done].
    unfold fadeVolumeTo, withConnection.
    destruct (connection (cancelFadeVolume _)); intros s'; discriminate.
  - unfold seek. apply withinBounds_bind; [apply withinBounds_seekBegin|].
    intros s1. destruct (current s);
      [apply withinBounds_seekResume|apply withinBounds_Done].
  - apply withinBounds_seekBegin.
  - apply withinBounds_seekResume.
  - unfold disconnect. destruct (connection s); [|apply withinBounds_Done].
    apply withinBounds_bind; [apply withinBounds_stopPlaying|]. intros s1.
    destruct (voiceChannel s1); intros s'; discriminate.
  - unfold streamEnd. destruct (connection s) as [c|]; [|apply withinBounds_Done].
    destruct (playing c); [apply withinBounds_endHandler|apply withinBounds_Done].
  - destruct (removeFirst next (synthPending s)); [|apply withinBounds_Done].
    unfold synthReply. destruct ok; [apply withinBounds_connPlay|].
    destruct (doneCallback _); intros s'; discriminate.
  - destruct (removeFirst next (streamPending s)); [|apply withinBounds_Done].
    unfold streamReady. destruct ok; [|intros s'; discriminate].
    apply withinBounds_bind; [apply withinBounds_connPlay|].
    intros s1. apply withinBounds_Done.
  - intros s'. apply elapse_enough_fuel.
  - destruct (removeFirst next (synthPending s)); [|apply withinBounds_Done].
    unfold synthReply. apply withinBounds_connPlay.
  - destruct (removeFirst next (streamPending s)); [|apply withinBounds_Done].
    unfold streamReady.
    apply withinBounds_bind; [apply withinBounds_connPlay|].
    intros s1. apply withinBounds_Done.
  - apply withinBounds_seekResume.
Qed.

(** X20. Handlers finish: no run of events reaches a bound of the model,
    so what a run returns is the program's own result or one of its own
    exceptions.  The 'end' listener that [playNext] triggers by stopping
    the stream sees the guard cleared and goes no deeper; the timers that
    fire while time passes are bounded by the pending work, since a
    restore timer schedules one fade and a fade step schedules nothing. *)
Theorem handlers_finish (evs : list Event) (s : Conn) :
  withinBounds (run evs s).
Proof.
  revert s. induction evs as [|e r IH]; intros s; cbn [run].
  - apply withinBounds_Done.
  - apply withinBounds_bind; [apply withinBounds_step|exact IH].
Qed.
